(** * Python-Learning-Tool: the diagram pipeline, embedded and verified

    A shallow embedding of the five stages of the pipeline

      parse_graphml -> classify_diagram_type -> classify_node_roles
                    -> traverse_graph -> interpret_flowchart

    Python [str] values are modelled as ASCII strings, [dict]s as [gmap],
    [set]s as [gset], the scores of the classifier as [Z] and the visit
    counters of the traverser as [nat]; exceptions are explicit in the
    result type of the loader, and the two loops of the pipeline that are not
    structural (the [while queue] loop of the traverser and the recursive
    [visit_node] of the interpreter) take fuel, with theorems that the fuel
    computed from the input is always enough. The recursion limit of Python
    is modelled beside it: [visit_node_limit] runs [visit_node] with a
    bounded number of frames and raises [RecursionError] past it. *)

From Stdlib Require Import String Ascii ZArith Bool.
From stdpp Require Import gmap strings list fin_maps sorting pretty.

#[local] Set Warnings "-clear-no-such-hyp".

Local Open Scope string_scope.
Local Open Scope list_scope.
Local Open Scope nat_scope.

(** ** Python string operations (ASCII) *)

Module Py.

(** [c.lower()] on one character. *)
Definition lower_ascii (c : ascii) : ascii :=
  let n := nat_of_ascii c in
  if (65 <=? n) && (n <=? 90) then ascii_of_nat (n + 32) else c.

(** [s.lower()] *)
Fixpoint lower (s : string) : string :=
  match s with
  | EmptyString => EmptyString
  | String c s' => String (lower_ascii c) (lower s')
  end.

(** [c.isspace()]: tab, newline, vertical tab, form feed, carriage return,
    the four separators 0x1c-0x1f, and the blank. *)
Definition isspace (c : ascii) : bool :=
  let n := nat_of_ascii c in
  ((9 <=? n) && (n <=? 13)) || ((28 <=? n) && (n <=? 31)) || (n =? 32).

Fixpoint lstrip (s : string) : string :=
  match s with
  | EmptyString => EmptyString
  | String c s' => if isspace c then lstrip s' else s
  end.

Fixpoint rstrip (s : string) : string :=
  match s with
  | EmptyString => EmptyString
  | String c s' =>
      match rstrip s' with
      | EmptyString => if isspace c then EmptyString else String c EmptyString
      | r => String c r
      end
  end.

(** [s.strip()] *)
Definition strip (s : string) : string := rstrip (lstrip s).

(** [s.startswith(p)] *)
Definition startswith (s p : string) : bool := String.prefix p s.

(** [kw in s] for strings: [kw] occurs as a substring of [s]. *)
Fixpoint contains (kw s : string) : bool :=
  String.prefix kw s ||
  match s with
  | EmptyString => false
  | String _ s' => contains kw s'
  end.

(** [any(kw in s for kw in kws)] *)
Definition any_in (kws : list string) (s : string) : bool :=
  existsb (fun kw => contains kw s) kws.

(** [x in [a, b, ...]] for a string [x] and a list or tuple of strings. *)
Definition mem (x : string) (l : list string) : bool :=
  existsb (String.eqb x) l.

(** [s.split(".")[-1]]: what follows the last dot, all of [s] without one. *)
Fixpoint last_dot_segment (s : string) : string :=
  match s with
  | EmptyString => EmptyString
  | String c s' =>
      if contains "." s' then last_dot_segment s'
      else if Ascii.eqb c "." then s' else s
  end.

(** [\w] of the [re] module, on ASCII. *)
Definition is_word (c : ascii) : bool :=
  let n := nat_of_ascii c in
  ((48 <=? n) && (n <=? 57)) || ((65 <=? n) && (n <=? 90))
  || ((97 <=? n) && (n <=? 122)) || (n =? 95).

Definition is_digit (c : ascii) : bool :=
  let n := nat_of_ascii c in (48 <=? n) && (n <=? 57).

Fixpoint all_chars (p : ascii -> bool) (s : string) : bool :=
  match s with
  | EmptyString => true
  | String c s' => p c && all_chars p s'
  end.

(** [s.isidentifier()], on ASCII: a letter or underscore, then word
    characters. *)
Definition isidentifier (s : string) : bool :=
  match s with
  | EmptyString => false
  | String c s' => is_word c && negb (is_digit c) && all_chars is_word s'
  end.

Fixpoint drop_word (s : string) : string :=
  match s with
  | EmptyString => EmptyString
  | String c s' => if is_word c then drop_word s' else s
  end.

Fixpoint ends_with_rparen (s : string) : bool :=
  match s with
  | EmptyString => false
  | String c EmptyString => Ascii.eqb c ")"
  | String _ s' => ends_with_rparen s'
  end.

Definition newline : ascii := ascii_of_nat 10.

(** [re.match(r"^\w+\(.*\)$", s)] is not [None], for [s] without a trailing
    newline (the caller strips it): a non-empty run of word characters (the
    greedy run, since what follows it must be the parenthesis), an opening
    parenthesis, then characters other than the newline, the last of
    them a closing parenthesis. *)
Definition match_call (s : string) : bool :=
  match s with
  | EmptyString => false
  | String c _ =>
      is_word c &&
      match drop_word s with
      | String p rest =>
          Ascii.eqb p "(" && ends_with_rparen rest
          && all_chars (fun x => negb (Ascii.eqb x newline)) rest
      | EmptyString => false
      end
  end.

End Py.

(** ** The graph model (Myparser/graphml_parser.py) *)

Record Node := mkNode {
  node_id : string;
  node_label : string;
  node_shape : string;
  node_metadata : gmap string string
}.

Record Edge := mkEdge {
  edge_source : string;
  edge_target : string;
  edge_label : string
}.

(** ** The element tree the loader walks

    [ET.parse] itself (file access and XML syntax) is outside the embedding:
    a document is either one that makes [ET.parse] raise, or the element
    tree it returns. Tags are the namespace-resolved names that
    [find]/[findall] compare with. *)

#[warnings="-register-all"]
Inductive Element := Elem {
  tag : string;
  attrib : gmap string string;
  text : option string;
  children : list Element
}.

(** The exceptions the statements of the loader can raise: [ET.parse] on a
    file it cannot read or parse, a subscript on a missing attribute, a
    local read before its assignment. Interrupts from outside the program
    are not part of the model. *)
Inductive PyExc :=
| OSError
| ParseError
| KeyError (key : string)
| UnboundLocalError (var : string)
| RecursionError.

(** Every one of them derives from [Exception]. *)
Definition is_Exception (e : PyExc) : bool :=
  match e with
  | OSError | ParseError | KeyError _ | UnboundLocalError _
  | RecursionError => true
  end.

Inductive Document :=
| Unparseable (e : PyExc)
| Parsed (root : Element).

Inductive result (A : Type) :=
| Return (a : A)
| Raise (e : PyExc).
Arguments Return {A} a.
Arguments Raise {A} e.

#[global] Instance result_bind : MBind result := fun A B k r =>
  match r with
  | Return a => k a
  | Raise e => Raise e
  end.

(** [try: body except Exception: handler] *)
Definition try_except {A} (body : result A) (handler : PyExc -> result A)
  : result A :=
  match body with
  | Return a => Return a
  | Raise e => if is_Exception e then handler e else Raise e
  end.

Definition ns_graphml : string := "{http://graphml.graphdrawing.org/xmlns}".
Definition ns_y : string := "{http://www.yworks.com/xml/graphml}".

Definition has_tag (t : string) (e : Element) : bool := String.eqb (tag e) t.

(** [e.findall("graphml:t", ns)]: the children of [e] with that tag. *)
Definition findall (t : string) (e : Element) : list Element :=
  filter (fun c => has_tag t c = true) (children e).

(** [e.find("graphml:t", ns)]: the first such child. *)
Definition find_child (t : string) (e : Element) : option Element :=
  head (findall t e).

(** [e.find(".//y:t", ns)]: the first descendant of [e] with that tag, in
    document order. *)
Fixpoint find_desc (t : string) (e : Element) : option Element :=
  let fix go (cs : list Element) : option Element :=
    match cs with
    | [] => None
    | c :: cs' =>
        if has_tag t c then Some c
        else match find_desc t c with
             | Some r => Some r
             | None => go cs'
             end
    end in
  go (children e).

(** [e.attrib[k]] *)
Definition attrib_item (k : string) (e : Element) : result string :=
  match attrib e !! k with
  | Some v => Return v
  | None => Raise (KeyError k)
  end.

(** [e.attrib.get(k, "")] *)
Definition attrib_get (k : string) (e : Element) : string :=
  default "" (attrib e !! k).

(** [(e.text or "")] *)
Definition text_or_empty (e : Element) : string := default "" (text e).

(** A local variable of the loader that is assigned in one branch only:
    unbound until then, and keeping its value from one iteration of the
    [for] loop to the next. *)
Inductive Local (A : Type) :=
| Unbound
| Bound (a : A).
Arguments Unbound {A}.
Arguments Bound {A} a.

Definition read_local {A} (name : string) (v : Local A) : result A :=
  match v with
  | Bound a => Return a
  | Unbound => Raise (UnboundLocalError name)
  end.

(** The shape derived from a generic node's configuration string. *)
Definition shape_of_config (config : string) : string :=
  if Py.contains "terminator" config || Py.contains "start" config then "ellipse"
  else if Py.contains "decision" config then "diamond"
  else if Py.contains "data" config || Py.contains "input" config then "parallelogram"
  else if Py.contains "process" config then "rectangle"
  else Py.last_dot_segment config.

(** One iteration of [for node in graph.findall("graphml:node", ns)]: the
    node built, and the value of the local [generic] afterwards. *)
Definition parse_node (generic : Local (option Element)) (node : Element)
  : result (Node * Local (option Element)) :=
  nid ← attrib_item "id" node;
  let label :=
    match find_desc (ns_y +:+ "NodeLabel") node with
    | Some label_elem => Py.strip (text_or_empty label_elem)
    | None => ""
    end in
  let shape :=
    match find_desc (ns_y +:+ "Shape") node with
    | Some shape_elem => Py.lower (attrib_get "type" shape_elem)
    | None => ""
    end in
  let shape :=
    if String.eqb shape "" then
      match find_desc (ns_y +:+ "FlowchartShape") node with
      | Some fc_shape => Py.lower (attrib_get "type" fc_shape)
      | None => shape
      end
    else shape in
  let '(shape, generic) :=
    if String.eqb shape "" then
      let g := find_desc (ns_y +:+ "GenericNode") node in
      match g with
      | Some ge => (shape_of_config (Py.lower (attrib_get "configuration" ge)), Bound g)
      | None => (shape, Bound g)
      end
    else (shape, generic) in
  g ← read_local "generic" generic;
  let raw_config :=
    match g with
    | Some ge => attrib_get "configuration" ge
    | None => ""
    end in
  let metadata : gmap string string :=
    <["raw_config" := raw_config]> (<["raw_shape" := shape]> ∅) in
  Return (mkNode nid label shape metadata, generic).

Fixpoint parse_nodes (generic : Local (option Element)) (els : list Element)
  (nodes : list Node) : result (list Node) :=
  match els with
  | [] => Return nodes
  | el :: els' =>
      r ← parse_node generic el;
      parse_nodes (snd r) els' (nodes ++ [fst r])
  end.

(** One iteration of [for edge in graph.findall("graphml:edge", ns)]. *)
Definition parse_edge (edge : Element) : result Edge :=
  src ← attrib_item "source" edge;
  tgt ← attrib_item "target" edge;
  let label :=
    match find_desc (ns_y +:+ "EdgeLabel") edge with
    | Some label_elem => Py.lower (Py.strip (text_or_empty label_elem))
    | None => ""
    end in
  Return (mkEdge src tgt label).

Fixpoint parse_edges (els : list Element) (edges : list Edge)
  : result (list Edge) :=
  match els with
  | [] => Return edges
  | el :: els' =>
      e ← parse_edge el;
      parse_edges els' (edges ++ [e])
  end.

(** The body of the [try] block of [parse_graphml]. *)
Definition parse_graphml_body (doc : Document)
  : result (list Node * list Edge) :=
  root ← match doc with
         | Unparseable e => Raise e
         | Parsed root => Return root
         end;
  match find_child (ns_graphml +:+ "graph") root with
  | None => Return ([], [])
  | Some graph =>
      nodes ← parse_nodes Unbound (findall (ns_graphml +:+ "node") graph) [];
      edges ← parse_edges (findall (ns_graphml +:+ "edge") graph) [];
      Return (nodes, edges)
  end.

Definition parse_graphml (doc : Document) : result (list Node * list Edge) :=
  try_except (parse_graphml_body doc) (fun _ => Return ([], [])).

(** Building element trees for the examples. *)
Definition el (t : string) (attrs : list (string * string))
  (txt : option string) (cs : list Element) : Element :=
  Elem t (list_to_map attrs) txt cs.

(** ** The diagram classifier (classifier/diagram_type.py) *)

Definition uml_keywords : list string :=
  ["class"; "attribute"; "method"; "<<interface>>"; "<<abstract>>"].
Definition flowchart_keywords : list string :=
  ["start"; "stop"; "input"; "output"; "decision"; "process"; "end"].
Definition sequence_keywords : list string :=
  ["activate"; "deactivate"; "message"; "return"; "lifeline"].
Definition er_keywords : list string :=
  ["entity"; "relation"; "attribute"; "primary key"; "foreign key"].
Definition activity_keywords : list string :=
  ["activity"; "fork"; "join"; "action"; "swimlane"].

(** The [scores] dict: its five keys are fixed, so it is a record; [items]
    lists it in the insertion order of the dict literal, which is the order
    [max] and [sorted] see. *)
Record Scores := mkScores {
  sc_uml : Z;
  sc_flowchart : Z;
  sc_sequence : Z;
  sc_er : Z;
  sc_activity : Z
}.

Definition scores0 : Scores := mkScores 0 0 0 0 0.

Definition items (s : Scores) : list (string * Z) :=
  [("UML Class Diagram", sc_uml s); ("Flowchart", sc_flowchart s);
   ("UML Sequence Diagram", sc_sequence s); ("ER Diagram", sc_er s);
   ("UML Activity Diagram", sc_activity s)].

Definition add_uml (k : Z) (s : Scores) : Scores :=
  mkScores (sc_uml s + k) (sc_flowchart s) (sc_sequence s) (sc_er s) (sc_activity s).
Definition add_flowchart (k : Z) (s : Scores) : Scores :=
  mkScores (sc_uml s) (sc_flowchart s + k) (sc_sequence s) (sc_er s) (sc_activity s).
Definition add_sequence (k : Z) (s : Scores) : Scores :=
  mkScores (sc_uml s) (sc_flowchart s) (sc_sequence s + k) (sc_er s) (sc_activity s).
Definition add_er (k : Z) (s : Scores) : Scores :=
  mkScores (sc_uml s) (sc_flowchart s) (sc_sequence s) (sc_er s + k) (sc_activity s).
Definition add_activity (k : Z) (s : Scores) : Scores :=
  mkScores (sc_uml s) (sc_flowchart s) (sc_sequence s) (sc_er s) (sc_activity s + k).

(** [if c: s = f(s)] *)
Definition when (c : bool) (f : Scores -> Scores) (s : Scores) : Scores :=
  if c then f s else s.

(** Step 3's first test: the label has ["::"], or ["class"] and both braces. *)
Definition structural_class_hint (label : string) : bool :=
  Py.contains "::" label
  || (Py.contains "class" label && Py.contains "{" label && Py.contains "}" label).

(** Step 3's second test: the label looks like a method signature. *)
Definition structural_method_hint (label : string) : bool :=
  Py.contains "(" label && Py.contains ")" label && Py.contains ":" label.

(** The body of [for node in nodes] in [classify_diagram_type]. *)
Definition score_node (s : Scores) (node : Node) : Scores :=
  let label := Py.lower (node_label node) in
  let shape := Py.lower (node_shape node) in
  let s :=
    if Py.mem shape ["diamond"; "parallelogram"; "ellipse"; "document"; "offpageconnector"]
    then add_flowchart 2 s
    else if Py.mem shape ["rectangle"; "roundrectangle"]
    then add_uml 1 (add_flowchart 1 s)
    else if String.eqb shape "hexagon" then add_activity 2 s
    else s in
  let s := when (Py.any_in flowchart_keywords label) (add_flowchart 2) s in
  let s := when (Py.any_in uml_keywords label) (add_uml 2) s in
  let s := when (Py.any_in sequence_keywords label) (add_sequence 2) s in
  let s := when (Py.any_in er_keywords label) (add_er 2) s in
  let s := when (Py.any_in activity_keywords label) (add_activity 2) s in
  let s := when (structural_class_hint label) (add_uml 3) s in
  let s := when (structural_method_hint label) (add_uml 2) s in
  s.

Definition score_nodes (nodes : list Node) : Scores :=
  foldl score_node scores0 nodes.

(** [max(its, key=lambda x: x[1])] with [best] the maximum so far: the first
    of the maximal items is the one kept. *)
Fixpoint max_by_value (best : string * Z) (its : list (string * Z))
  : string * Z :=
  match its with
  | [] => best
  | it :: its' =>
      if (best.2 <? it.2)%Z then max_by_value it its' else max_by_value best its'
  end.

Definition top_item (s : Scores) : string * Z :=
  max_by_value ("UML Class Diagram", sc_uml s) (items s).

(** [sorted(scores.values(), reverse=True)[1]] *)
Definition second_score (s : Scores) : Z :=
  default 0%Z (merge_sort Z.ge (map snd (items s)) !! 1%nat).

Definition classify_diagram_type (nodes : list Node) : string :=
  let scores := score_nodes nodes in
  let '(top_type, top_score) := top_item scores in
  let second := second_score scores in
  if (top_score =? 0)%Z then "Unknown"
  else if String.eqb top_type "UML Class Diagram"
          && (2 <? sc_flowchart scores)%Z
          && (top_score - sc_flowchart scores <=? 1)%Z
  then "Flowchart"
  else if (2 <=? top_score - second)%Z then top_type
  else if (4 <=? top_score)%Z then top_type
  else "Flowchart".

(** ** The role classifier (classifier/shape_label.py) *)

Definition flowchart_role (label shape : string) : string :=
  if Py.mem shape ["ellipse"; "terminator"; "start1"] || Py.contains "start" label
  then "Start"
  else if Py.contains "end" label || Py.contains "stop" label then "End"
  else if String.eqb shape "diamond" || Py.contains "?" label
          || Py.any_in ["if"; "check"; "compare"; "do"; "can"; "should"; "else"] label
  then "Decision"
  else if Py.any_in ["repeat"; "loop"; "again"; "while"; "for"] label then "Loop"
  else if Py.mem shape ["parallelogram"; "input"; "document"]
          || Py.any_in ["input"; "scan"; "read"; "enter"] label
  then "Input"
  else if Py.mem shape ["output"; "display"]
          || Py.any_in ["print"; "display"; "output"; "show"] label
  then "Output"
  else if Py.mem shape ["rectangle"; "roundrectangle"; "box"] then "Process"
  else if Py.mem shape ["offpageconnector"; "jump"; "connector"] then "Jump"
  else if Py.contains "print" label then "Output"
  else if Py.contains "input" label || Py.contains "scan" label then "Input"
  else "Process".

Definition uml_class_role (label shape : string) : string :=
  if Py.any_in ["<<interface>>"; "<<abstract>>"; "interface"; "abstract"] label
  then "Interface"
  else if Py.startswith label "class" || Py.contains "class" label then "Class"
  else if Py.contains "{" label && Py.contains "}" label then "Class"
  else if Py.match_call label then "Method"
  else if Py.contains ":" label || Py.contains "=" label
          || Py.any_in ["int"; "str"; "float"; "bool"; "string"; "boolean"; "void"] label
  then "Attribute"
  else if String.eqb shape "rectangle" && Py.isidentifier label then "Attribute"
  else "Unknown UML Part".

Definition sequence_role (label : string) : string :=
  if Py.contains "lifeline" label then "Lifeline"
  else if Py.contains "message" label || Py.contains "-->" label then "Message"
  else "Actor".

(** The ER and activity cascades have no [else]: [role] keeps the value it
    was initialised with. *)
Definition er_role (role label : string) : string :=
  if Py.contains "entity" label then "Entity"
  else if Py.contains "attribute" label then "Attribute"
  else if Py.contains "relation" label || Py.contains "relationship" label
  then "Relationship"
  else role.

Definition activity_role (role label : string) : string :=
  if Py.contains "fork" label then "Fork"
  else if Py.contains "join" label then "Join"
  else if Py.contains "action" label || Py.contains "activity" label then "Action"
  else if Py.contains "swimlane" label then "Swimlane"
  else role.

(** The body of [for node in nodes] in [classify_node_roles], up to the
    assignment [node_roles[node.id] = role]. *)
Definition node_role (diagram_type : string) (node : Node) : string :=
  let label := Py.lower (Py.strip (node_label node)) in
  let shape := Py.lower (Py.strip (node_shape node)) in
  let role := "Unknown" in
  if String.eqb diagram_type "Flowchart" then flowchart_role label shape
  else if String.eqb diagram_type "UML Class Diagram" then uml_class_role label shape
  else if String.eqb diagram_type "UML Sequence Diagram" then sequence_role label
  else if String.eqb diagram_type "ER Diagram" then er_role role label
  else if String.eqb diagram_type "UML Activity Diagram" then activity_role role label
  else role.

(** [edge_label_map], filled when [edges] is given and never read. *)
Definition edge_label_map (edges : option (list Edge))
  : gmap (string * string) string :=
  match edges with
  | Some es =>
      foldl (λ m e, <[(edge_source e, edge_target e) :=
                        Py.lower (Py.strip (edge_label e))]> m) ∅ es
  | None => ∅
  end.

Definition classify_node_roles (nodes : list Node) (diagram_type : string)
  (edges : option (list Edge)) : gmap string string :=
  let _ := edge_label_map edges in
  foldl (λ node_roles node,
           <[node_id node := node_role diagram_type node]> node_roles) ∅ nodes.

(** ** The graph traverser (traverser/graph_traverser.py) *)

Definition is_start_like (node : Node) : bool :=
  let label := Py.lower (node_label node) in
  let shape := Py.lower (node_shape node) in
  Py.contains "start" label || Py.mem shape ["start1"; "terminator"; "ellipse"].

Definition find_start_node (nodes : list Node) : option string :=
  match List.find is_start_like nodes with
  | Some node => Some (node_id node)
  | None => node_id <$> head nodes
  end.

(** [adj[edge.source].append(edge.target)] on a [defaultdict(list)]. *)
Definition adj_append (adj : gmap string (list string)) (e : Edge)
  : gmap string (list string) :=
  <[edge_source e := default [] (adj !! edge_source e) ++ [edge_target e]]> adj.

Definition build_adjacency (edges : list Edge)
  : gmap string (list string) * gmap (string * string) string :=
  (foldl adj_append ∅ edges,
   foldl (λ m e, <[(edge_source e, edge_target e) :=
                     Py.lower (Py.strip (edge_label e))]> m) ∅ edges).

(** The variables of the [while queue] loop. [visit_count] is a
    [defaultdict(int)]: a key that is absent reads as 0. *)
Record BfsState := mkBfs {
  visited : gset string;
  order : list string;
  queue : list string;
  visit_count : gmap string nat
}.

Definition count_of (vc : gmap string nat) (x : string) : nat :=
  default 0 (vc !! x).

(** [if current not in visited: visited.add(current); order.append(current)] *)
Definition mark (current : string) (st : BfsState) : BfsState :=
  if decide (current ∈ visited st) then st
  else mkBfs ({[current]} ∪ visited st) (order st ++ [current])
             (queue st) (visit_count st).

(** [if visit_count[neighbor] < 3: queue.append(neighbor);
    visit_count[neighbor] += 1] *)
Definition admit_neighbor (st : BfsState) (neighbor : string) : BfsState :=
  if count_of (visit_count st) neighbor <? 3 then
    mkBfs (visited st) (order st) (queue st ++ [neighbor])
          (<[neighbor := count_of (visit_count st) neighbor + 1]> (visit_count st))
  else st.

(** One iteration of the loop, after [current = queue.popleft()]. *)
Definition bfs_step (adj : gmap string (list string)) (current : string)
  (st : BfsState) : BfsState :=
  foldl admit_neighbor (mark current st) (default [] (adj !! current)).

Definition pop_queue (rest : list string) (st : BfsState) : BfsState :=
  mkBfs (visited st) (order st) rest (visit_count st).

(** [while queue: ...], with fuel for the number of iterations; [None] is
    fuel running out with the queue not yet empty. *)
Fixpoint bfs_loop (fuel : nat) (adj : gmap string (list string))
  (st : BfsState) : option BfsState :=
  match queue st with
  | [] => Some st
  | current :: rest =>
      match fuel with
      | O => None
      | S fuel' => bfs_loop fuel' adj (bfs_step adj current (pop_queue rest st))
      end
  end.

Definition bfs_init (start_node : string) : BfsState :=
  mkBfs ∅ [] [start_node] ∅.

(** Enough iterations for any run: the start node is dequeued once, and each
    edge target at most three times. *)
Definition bfs_fuel (edges : list Edge) : nat := S (3 * length edges).

Definition legacy_roles (nodes : list Node) : gmap string string :=
  foldl (λ roles node, <[node_id node := "Unknown"]> roles) ∅ nodes.

(** The ids appended after the loop: [list(all_node_ids - set(order))], in
    the iteration order of the set, which Python leaves unspecified and
    [elements] fixes. *)
Definition unreachable_ids (nodes : list Node) (order : list string)
  : list string :=
  elements ((list_to_set (map node_id nodes) : gset string) ∖ list_to_set order).

(** The loop run from the start node, with the state it ends in. *)
Definition run_bfs (edges : list Edge) (start_node : string)
  : option BfsState :=
  bfs_loop (bfs_fuel edges) (build_adjacency edges).1 (bfs_init start_node).

Definition traverse_graph (nodes : list Node) (edges : list Edge)
  : option (list string * gmap string string) :=
  match find_start_node nodes with
  | None => Some ([], ∅)
  | Some start_node =>
      if String.eqb start_node "" then Some ([], ∅)
      else
        st ← run_bfs edges start_node;
        Some (order st ++ unreachable_ids nodes (order st), legacy_roles nodes)
  end.

(** ** The flow interpreter (interpreter/interpreter.py) *)

(** An entry of [logic_templates.json], a file the repository reads at run
    time: the table is a parameter of the interpreter. *)
Record TemplateEntry := mkEntry {
  keywords : list string;
  logic : string
}.

Definition match_template (label role : string)
  (templates : gmap string (list TemplateEntry)) : option string :=
  let label_lower := Py.lower label in
  let role_templates := default [] (templates !! role) in
  let exact entry :=
    existsb (λ kw, String.eqb label_lower (Py.lower kw)) (keywords entry) in
  let partial entry :=
    existsb (λ kw, Py.contains (Py.lower kw) label_lower) (keywords entry) in
  match List.find exact role_templates with
  | Some entry => Some (logic entry)
  | None => logic <$> List.find partial role_templates
  end.

(** An element of a [next_map] list. *)
Record OutEdge := mkOut {
  target_id : string;
  out_label : string
}.

Record Branch := mkBranch {
  condition_label : string;
  condition : string;
  target_node_id : string;
  target_label : string
}.

(** A step of [execution_flow]; the keys ["branches"] and ["next_id"] are
    present only when set. *)
Record Step := mkStep {
  step_node_id : string;
  step_label : string;
  step_role : string;
  step_type : string;
  step_logic_template : option string;
  step_flow_type : string;
  step_branches : option (list Branch);
  step_next_id : option string
}.

Record NodeInfo := mkNodeInfo {
  info_id : string;
  info_label : string;
  info_shape : string;
  info_role : string
}.

Record EdgeInfo := mkEdgeInfo {
  info_source_id : string;
  info_target_id : string;
  info_edge_label : string
}.

Record FlowchartData := mkFlowchartData {
  diagram_type : string;
  nodes_out : list NodeInfo;
  edges_out : list EdgeInfo;
  execution_flow : list Step
}.

(** [{node.id: node for node in nodes}]: a later node with the same id
    replaces an earlier one. *)
Definition build_id_to_node (nodes : list Node) : gmap string Node :=
  foldl (λ m node, <[node_id node := node]> m) ∅ nodes.

(** [{"target_id": edge.target, "label": (edge.label or "").strip().lower()}] *)
Definition out_of_edge (e : Edge) : OutEdge :=
  mkOut (edge_target e) (Py.lower (Py.strip (edge_label e))).

(** [next_map.setdefault(edge.source, []).append({...})] *)
Definition next_map_append (m : gmap string (list OutEdge)) (e : Edge)
  : gmap string (list OutEdge) :=
  <[edge_source e := default [] (m !! edge_source e) ++ [out_of_edge e]]> m.

Definition build_next_map (edges : list Edge) : gmap string (list OutEdge) :=
  foldl next_map_append ∅ edges.

Definition condition_of (condition_raw : string) : string :=
  if Py.mem condition_raw ["yes"; "true"; "y"] then "yes"
  else if Py.mem condition_raw ["no"; "false"; "n"] then "no"
  else "".

Definition flow_type_of (role_lower : string) : string :=
  if String.eqb role_lower "start" then "start"
  else if String.eqb role_lower "end" then "end"
  else if String.eqb role_lower "decision" then "decision"
  else if String.eqb role_lower "loop" then "loop"
  else if Py.mem role_lower ["input"; "output"; "process"; "task"] then role_lower
  else if String.eqb role_lower "jump" then "jump"
  else if Py.mem role_lower ["class"; "interface"; "method"; "attribute"]
  then "uml_element"
  else "generic_action".

Section Interpreter.

Variable id_to_node : gmap string Node.
Variable next_map : gmap string (list OutEdge).
Variable roles : gmap string string.
Variable templates : gmap string (list TemplateEntry).

(** The outgoing edges [next_map.get(node.id, [])]. *)
Definition next_nodes_of (node : Node) : list OutEdge :=
  default [] (next_map !! node_id node).

(** [roles.get(node.id, "Unknown")] *)
Definition role_of (node : Node) : string :=
  default "Unknown" (roles !! node_id node).

(** The branch appended for one outgoing edge of a decision node: none
    when the target id has no node. *)
Definition branch_of (out : OutEdge) : option Branch :=
  match id_to_node !! target_id out with
  | Some target =>
      Some (mkBranch (out_label out) (condition_of (out_label out))
                     (target_id out) (Py.strip (node_label target)))
  | None => None
  end.

Definition branches_of (next_nodes : list OutEdge) : list Branch :=
  omap branch_of next_nodes.

Definition next_id_of (role_lower : string) (next_nodes : list OutEdge)
  : option string :=
  match next_nodes with
  | [out] => if negb (Py.mem role_lower ["decision"; "end"])
             then Some (target_id out) else None
  | _ => None
  end.

(** The step [visit_node] builds for a node it has found. *)
Definition build_step (node : Node) : Step :=
  let label := Py.strip (node_label node) in
  let role := role_of node in
  let shape := Py.strip (node_shape node) in
  let next_nodes := next_nodes_of node in
  let role_lower := Py.lower role in
  mkStep (node_id node) label role shape
         (match_template label role templates)
         (flow_type_of role_lower)
         (if String.eqb role_lower "decision"
          then Some (branches_of next_nodes) else None)
         (next_id_of role_lower next_nodes).

(** The variables [visit_node] closes over and mutates. *)
Record VisitState := mkVisit {
  dfs_visited : gset string;
  dfs_flow : list Step
}.

(** [visit_node(node_id)]; the fuel bounds the depth of the recursion and
    is spent only where the function calls itself. The recursion limit of
    the Python interpreter is not part of this definition: [visit_node_limit]
    below adds it. *)
Fixpoint visit_node (fuel : nat) (nid : string) (st : VisitState)
  : option VisitState :=
  if decide (nid ∈ dfs_visited st) then Some st
  else
    let seen := {[nid]} ∪ dfs_visited st in
    match id_to_node !! nid with
    | None => Some (mkVisit seen (dfs_flow st))
    | Some node =>
        match fuel with
        | O => None
        | S fuel' =>
            foldl (λ acc out, st' ← acc; visit_node fuel' (target_id out) st')
                  (Some (mkVisit seen (dfs_flow st ++ [build_step node])))
                  (next_nodes_of node)
        end
    end.

(** [for nid in traversal_order: visit_node(nid)] *)
Definition visit_all (fuel : nat) (traversal_order : list string)
  (st : VisitState) : option VisitState :=
  foldl (λ acc nid, st' ← acc; visit_node fuel nid st') (Some st)
        traversal_order.

End Interpreter.

Definition interpret_flowchart (templates : gmap string (list TemplateEntry))
  (nodes : list Node) (edges : list Edge) (roles : gmap string string)
  (traversal_order : list string) (diagram_type : string)
  : option FlowchartData :=
  let id_to_node := build_id_to_node nodes in
  let next_map := build_next_map edges in
  st ← visit_all id_to_node next_map roles templates (length nodes)
         traversal_order (mkVisit ∅ []);
  Some (mkFlowchartData diagram_type
          (map (λ n, mkNodeInfo (node_id n) (Py.strip (node_label n))
                       (Py.strip (node_shape n))
                       (default "Unknown" (roles !! node_id n))) nodes)
          (map (λ e, mkEdgeInfo (edge_source e) (edge_target e)
                       (Py.strip (edge_label e))) edges)
          (dfs_flow st)).

(** ** Role vocabularies, as the specification lists them *)

Definition unknown_sentinels : list string := ["Unknown"; "Unknown UML Part"].

Definition legal_roles (diagram_type : string) : list string :=
  if String.eqb diagram_type "Flowchart" then
    ["Start"; "End"; "Decision"; "Loop"; "Input"; "Output"; "Process"; "Jump"]
  else if String.eqb diagram_type "UML Class Diagram" then
    ["Interface"; "Class"; "Method"; "Attribute"]
  else if String.eqb diagram_type "UML Sequence Diagram" then
    ["Lifeline"; "Message"; "Actor"]
  else if String.eqb diagram_type "ER Diagram" then
    ["Entity"; "Attribute"; "Relationship"]
  else if String.eqb diagram_type "UML Activity Diagram" then
    ["Fork"; "Join"; "Action"; "Swimlane"]
  else [].

(** The keywords each of the three short cascades tests. *)
Definition sequence_role_keywords : list string := ["lifeline"; "message"; "-->"].
Definition er_role_keywords : list string :=
  ["entity"; "attribute"; "relation"; "relationship"].
Definition activity_role_keywords : list string :=
  ["fork"; "join"; "action"; "activity"; "swimlane"].

(** The six condition words of a decision branch. *)
Definition condition_words : list string :=
  ["yes"; "true"; "y"; "no"; "false"; "n"].

(** ** Graph notions the statements use *)

(** The outgoing edges of an id, in the order of the edge list. *)
Definition outgoing (edges : list Edge) (i : string) : list Edge :=
  filter (λ e, edge_source e = i) edges.

Definition node_ids (nodes : list Node) : list string := map node_id nodes.

(** [x] is reached from [s] by a path of [n] edges. *)
Inductive path_len (edges : list Edge) (s : string) : nat → string → Prop :=
| path_here : path_len edges s 0 s
| path_step n x e :
    path_len edges s n x → e ∈ edges → edge_source e = x →
    path_len edges s (S n) (edge_target e).

Definition reachable (edges : list Edge) (s x : string) : Prop :=
  ∃ n, path_len edges s n x.

(** [d] is the number of edges of a shortest path from [s] to [x]. *)
Definition distance (edges : list Edge) (s x : string) (d : nat) : Prop :=
  path_len edges s d x ∧ ∀ n, path_len edges s n x → d ≤ n.

(** ** Invariants and measures of the two loops *)

(** What is left of the iterations of the traverser's loop: the queue, and
    for each edge the admissions its target may still get. *)
Definition budget (vc : gmap string nat) (edges : list Edge) : nat :=
  sum_list (map (λ e, 3 - count_of vc (edge_target e)) edges).

(** The traverser's loop with the level of each queue entry made explicit:
    [qg] is the queue and [og] the order, each id with the number of edges
    of the path that brought it in; [cur] is the level of the entry
    dequeued last. *)
Definition bfs_ghost (edges : list Edge) (s : string) (cur : nat)
  (og qg : list (string * nat)) (st : BfsState) : Prop :=
  queue st = qg.*1 ∧ order st = og.*1
  ∧ visited st = list_to_set (order st) ∧ NoDup (order st)
  ∧ (∀ x l, (x, l) ∈ og ++ qg → path_len edges s l x)
  ∧ StronglySorted le og.*2 ∧ StronglySorted le qg.*2
  ∧ (∀ x l, (x, l) ∈ og → l ≤ cur)
  ∧ (∀ x l, (x, l) ∈ qg → cur ≤ l ≤ cur + 1)
  ∧ (∀ v, 0 < count_of (visit_count st) v → v ∈ order st ∨ v ∈ queue st)
  ∧ (s, 0) ∈ og ++ qg.

(** Every edge out of an id of the order leads to an id that is in the
    order or in the queue, at most one level further. *)
Definition bfs_closed (edges : list Edge) (og all : list (string * nat))
  : Prop :=
  ∀ u lu e, (u, lu) ∈ og → e ∈ edges → edge_source e = u →
    ∃ lv, lv ≤ lu + 1 ∧ (edge_target e, lv) ∈ all.

Definition bfs_inv (edges : list Edge) (s : string) (st : BfsState) : Prop :=
  ∃ cur og qg, bfs_ghost edges s cur og qg st ∧ bfs_closed edges og (og ++ qg).

(** The ids with a node that [visit_node] has not seen yet: the depth the
    recursion can still reach. *)
Definition dfs_measure (id_to_node : gmap string Node) (st : VisitState)
  : nat :=
  size (dom id_to_node ∖ dfs_visited st).

(** Every step is the step of a node of the lookup table, its id has been
    seen, and no id has two steps. *)
Definition dfs_inv (id_to_node : gmap string Node)
  (next_map : gmap string (list OutEdge)) (roles : gmap string string)
  (templates : gmap string (list TemplateEntry)) (st : VisitState) : Prop :=
  (∀ step, step ∈ dfs_flow st →
     step_node_id step ∈ dfs_visited st
     ∧ ∃ node, id_to_node !! step_node_id step = Some node
               ∧ step = build_step id_to_node next_map roles templates node)
  ∧ NoDup (map step_node_id (dfs_flow st)).

(** A step without its template tag: what is left does not depend on the
    template table. *)
Definition erase_logic (s : Step) : Step :=
  mkStep (step_node_id s) (step_label s) (step_role s) (step_type s) None
         (step_flow_type s) (step_branches s) (step_next_id s).

Definition erase_visit (st : VisitState) : VisitState :=
  mkVisit (dfs_visited st) (map erase_logic (dfs_flow st)).

(** ** The scenarios *)

Definition plain_node (i l s : string) : Node := mkNode i l s ∅.
Definition plain_edge (a b : string) : Edge := mkEdge a b "".

(** Start, input, print, end, in a chain. *)
Definition chain_nodes : list Node :=
  [plain_node "n1" "Start" "ellipse";
   plain_node "n2" "Input Value" "parallelogram";
   plain_node "n3" "Print Result" "parallelogram";
   plain_node "n4" "End" "ellipse"].

Definition chain_edges : list Edge :=
  [plain_edge "n1" "n2"; plain_edge "n2" "n3"; plain_edge "n3" "n4"].

Definition chain_roles : gmap string string :=
  classify_node_roles chain_nodes (classify_diagram_type chain_nodes)
    (Some chain_edges).

(** A class box as yEd writes it. *)
Definition account_node : Node :=
  plain_node "c1" "UserAccount { id: int, name: str }" "roundrectangle".

(** Two nodes pointing at each other. *)
Definition cycle_nodes : list Node :=
  [plain_node "A" "A" "rectangle"; plain_node "B" "B" "rectangle"].
Definition cycle_edges : list Edge :=
  [plain_edge "A" "B"; plain_edge "B" "A"].

(** A node with an edge to an id that no node has. *)
Definition dangling_nodes : list Node := [plain_node "A" "Check?" "diamond"].
Definition dangling_edges : list Edge := [mkEdge "A" "X" "yes"].

(** A node drawn with an explicit shape. *)
Definition shape_node_el (i label ty : string) : Element :=
  el (ns_graphml +:+ "node") [("id", i)] None
    [el (ns_graphml +:+ "data") [] None
       [el (ns_y +:+ "ShapeNode") [] None
          [el (ns_y +:+ "NodeLabel") [] (Some label) [];
           el (ns_y +:+ "Shape") [("type", ty)] None []]]].

(** A node drawn from the flowchart palette. *)
Definition generic_node_el (i label config : string) : Element :=
  el (ns_graphml +:+ "node") [("id", i)] None
    [el (ns_graphml +:+ "data") [] None
       [el (ns_y +:+ "GenericNode") [("configuration", config)] None
          [el (ns_y +:+ "NodeLabel") [] (Some label) []]]].

Definition graphml_doc (els : list Element) : Document :=
  Parsed (el (ns_graphml +:+ "graphml") [] None
            [el (ns_graphml +:+ "graph") [("id", "G")] None els]).

(** A palette node followed by a node with an explicit shape. *)
Definition stale_doc : Document :=
  graphml_doc [generic_node_el "n1" "Work" "com.yworks.flowchart.process";
               shape_node_el "n2" "Begin" "ellipse"].

(** A node with an explicit shape, first in the document. *)
Definition shape_first_doc : Document :=
  graphml_doc [shape_node_el "n1" "Begin" "ellipse"].

(** A document without a graph element. *)
Definition no_graph_doc : Document :=
  Parsed (el (ns_graphml +:+ "graphml") [] None []).

(** A node without an id. *)
Definition no_id_doc : Document :=
  graphml_doc [el (ns_graphml +:+ "node") [] None []].

(** The shape a node element states itself, in [y:Shape] or else in
    [y:FlowchartShape]: what [shape] holds in [parse_graphml] before the
    generic node is looked at. *)
Definition explicit_shape (node : Element) : string :=
  let shape :=
    match find_desc (ns_y +:+ "Shape") node with
    | Some shape_elem => Py.lower (attrib_get "type" shape_elem)
    | None => ""
    end in
  if String.eqb shape "" then
    match find_desc (ns_y +:+ "FlowchartShape") node with
    | Some fc_shape => Py.lower (attrib_get "type" fc_shape)
    | None => shape
    end
  else shape.

(** ** The consumers of the pipeline

    The template renderer (llm/code_template_renderer.py) picks a template by
    diagram type and turns labels into identifiers; the front end
    (ui/UI.py) cleans the generated code. *)

(** The sum of two score tables, and a table without a negative score. *)
Definition sc_plus (a b : Scores) : Scores :=
  mkScores (sc_uml a + sc_uml b) (sc_flowchart a + sc_flowchart b)
           (sc_sequence a + sc_sequence b) (sc_er a + sc_er b)
           (sc_activity a + sc_activity b).

Definition sc_nonneg (s : Scores) : Prop :=
  (0 ≤ sc_uml s)%Z ∧ (0 ≤ sc_flowchart s)%Z ∧ (0 ≤ sc_sequence s)%Z
  ∧ (0 ≤ sc_er s)%Z ∧ (0 ≤ sc_activity s)%Z.

(** The types [classify_diagram_type] can return. *)
Definition diagram_types : list string :=
  ["Flowchart"; "UML Class Diagram"; "UML Sequence Diagram"; "ER Diagram";
   "UML Activity Diagram"; "Unknown"].

(** The values of ["flow_type"] the interpreter sets from a role. *)
Definition flow_types : list string :=
  ["start"; "end"; "decision"; "loop"; "input"; "output"; "process"; "task";
   "jump"; "uml_element"; "generic_action"].

(** The [mapping] dict of [get_template_for_type]. *)
Definition template_mapping : gmap string string :=
  <["UML Sequence Diagram" := "sequence_diagram_base.j2"]>
    (<["ER Diagram" := "er_diagram_base.j2"]>
       (<["UML Class Diagram" := "uml_class_base.j2"]>
          (<["Flowchart" := "flowchart_base.j2"]> ∅))).

(** [mapping.get(diagram_type.strip(), self.default_template)] *)
Definition get_template_for_type (default_template diagram_type : string)
  : string :=
  default default_template (template_mapping !! Py.strip diagram_type).

(** [re.sub(r'\W+', '_', label)]: every maximal run of characters that are
    not word characters becomes one underscore; [in_run] says that the
    character before was part of such a run. *)
Fixpoint sub_nonword (in_run : bool) (s : string) : string :=
  match s with
  | EmptyString => EmptyString
  | String c s' =>
      if Py.is_word c then String c (sub_nonword false s')
      else if in_run then sub_nonword true s'
      else String "_" (sub_nonword true s')
  end.

(** [s.lstrip('_')], [s.rstrip('_')] and [s.strip('_')] *)
Fixpoint lstrip_underscore (s : string) : string :=
  match s with
  | EmptyString => EmptyString
  | String c s' => if Ascii.eqb c "_" then lstrip_underscore s' else s
  end.

Fixpoint rstrip_underscore (s : string) : string :=
  match s with
  | EmptyString => EmptyString
  | String c s' =>
      match rstrip_underscore s' with
      | EmptyString => if Ascii.eqb c "_" then EmptyString else String c EmptyString
      | r => String c r
      end
  end.

Definition strip_underscore (s : string) : string :=
  rstrip_underscore (lstrip_underscore s).

(** [c.isalpha()], on ASCII. *)
Definition isalpha (c : ascii) : bool :=
  let n := nat_of_ascii c in
  ((65 <=? n) && (n <=? 90)) || ((97 <=? n) && (n <=? 122)).

(** [CodeTemplateRenderer._slugify_label] *)
Definition slugify_label (label : string) : string :=
  let label := strip_underscore (sub_nonword false label) in
  match label with
  | EmptyString => "unnamed_function"
  | String c _ =>
      let label :=
        if negb (isalpha c) && negb (Ascii.eqb c "_") then String "_" label
        else label in
      Py.lower label
  end.

(** [code.split('\n')] and ['\n'.join(lines)] *)
Fixpoint split_lines (s : string) : list string :=
  match s with
  | EmptyString => [EmptyString]
  | String c s' =>
      if Ascii.eqb c Py.newline then EmptyString :: split_lines s'
      else match split_lines s' with
           | l :: ls => String c l :: ls
           | [] => [String c EmptyString]
           end
  end.

Fixpoint join_lines (lines : list string) : string :=
  match lines with
  | [] => EmptyString
  | [l] => l
  | l :: ls => l +:+ String Py.newline (join_lines ls)
  end.

(** The double quote character. *)
Definition dquote : ascii := ascii_of_nat 34.

(** The [for char in line] loop of [strip_comments]: what [new_line] holds
    when the loop ends, at the end of the line or at the [break] on a ['#']
    outside a string. *)
Fixpoint scan_comment (in_string : bool) (string_char : option ascii)
  (line : string) : string :=
  match line with
  | EmptyString => EmptyString
  | String char rest =>
      if (Ascii.eqb char dquote || Ascii.eqb char "'") && negb in_string
      then String char (scan_comment true (Some char) rest)
      else if bool_decide (Some char = string_char) && in_string
      then String char (scan_comment false None rest)
      else if Ascii.eqb char "#" && negb in_string then EmptyString
      else String char (scan_comment in_string string_char rest)
  end.

(** The body of [for line in lines] in [strip_comments]. *)
Definition strip_comment_line (cleaned_lines : list string) (line : string)
  : list string :=
  if String.eqb (Py.strip line) "" then cleaned_lines ++ [line]
  else if Py.startswith (Py.lstrip line) "#" then cleaned_lines
  else if Py.contains "#" line then
    let cleaned_line := Py.rstrip (scan_comment false None line) in
    if negb (String.eqb (Py.strip cleaned_line) "")
    then cleaned_lines ++ [cleaned_line] else cleaned_lines
  else cleaned_lines ++ [line].

Definition strip_comments (code : string) : string :=
  if String.eqb code "" then code
  else join_lines (foldl strip_comment_line [] (split_lines code)).


(** [is_placeholder_code] *)
Definition is_placeholder_code (code : string) : bool :=
  if String.eqb code "" then true
  else Py.any_in ["simulate_output("; "pass"; "# TODO"; "# Placeholder";
                  "return True"] code.

(** ** The recursion limit of the interpreter

    [visit_node] is a recursive Python function, and Python raises
    [RecursionError] when calls nest deeper than its recursion limit. The
    definitions below run the code of [interpret_flowchart] with [frames],
    the number of Python frames still free in its body: a call of
    [load_logic_templates], of [visit_node] or of [match_template] takes one
    and is refused when none is left. Calls of built-in methods ([set.add],
    [dict.get], [str.strip]) take none. [templates] is what
    [load_logic_templates] returned: the frames it needs inside the standard
    library to read the file are not counted. *)
Section InterpreterLimit.

Variable id_to_node : gmap string Node.
Variable next_map : gmap string (list OutEdge).
Variable roles : gmap string string.
Variable templates : gmap string (list TemplateEntry).

(** [visit_node(node_id)], with [frames] frames free at the call. On a node
    the call of [match_template] comes before the step is appended. *)
Fixpoint visit_node_limit (frames : nat) (nid : string) (st : VisitState)
  : result VisitState :=
  match frames with
  | O => Raise RecursionError
  | S frames' =>
      if decide (nid ∈ dfs_visited st) then Return st
      else
        let seen := {[nid]} ∪ dfs_visited st in
        match id_to_node !! nid with
        | None => Return (mkVisit seen (dfs_flow st))
        | Some node =>
            match frames' with
            | O => Raise RecursionError
            | S _ =>
                foldl (λ acc out,
                         st' ← acc; visit_node_limit frames' (target_id out) st')
                      (Return (mkVisit seen
                                 (dfs_flow st
                                    ++ [build_step id_to_node next_map roles
                                          templates node])))
                      (next_nodes_of next_map node)
            end
        end
  end.

(** [for nid in traversal_order: visit_node(nid)] *)
Definition visit_all_limit (frames : nat) (traversal_order : list string)
  (st : VisitState) : result VisitState :=
  foldl (λ acc nid, st' ← acc; visit_node_limit frames nid st') (Return st)
        traversal_order.

End InterpreterLimit.

Definition interpret_flowchart_limit
  (templates : gmap string (list TemplateEntry)) (frames : nat)
  (nodes : list Node) (edges : list Edge) (roles : gmap string string)
  (traversal_order : list string) (diagram_type : string)
  : result FlowchartData :=
  match frames with
  | O => Raise RecursionError
  | S _ =>
      let id_to_node := build_id_to_node nodes in
      let next_map := build_next_map edges in
      st ← visit_all_limit id_to_node next_map roles templates frames
             traversal_order (mkVisit ∅ []);
      Return (mkFlowchartData diagram_type
                (map (λ n, mkNodeInfo (node_id n) (Py.strip (node_label n))
                             (Py.strip (node_shape n))
                             (default "Unknown" (roles !! node_id n))) nodes)
                (map (λ e, mkEdgeInfo (edge_source e) (edge_target e)
                             (Py.strip (edge_label e))) edges)
                (dfs_flow st))
  end.

(** A chain as long as one likes: [deep_nodes n] are [n] nodes with the
    ids n0, n1, ..., and [deep_edges n] has an edge from each of them to the
    next id; the last edge leads to an id without a node. *)
Definition deep_id (k : nat) : string := "n" +:+ pretty k.

Definition deep_nodes (n : nat) : list Node :=
  map (λ k, plain_node (deep_id k) "" "") (seq 0 n).

Definition deep_edges (n : nat) : list Edge :=
  map (λ k, plain_edge (deep_id k) (deep_id (S k))) (seq 0 n).

(** ** The pipeline of the front end (ui/UI.py)

    The [try] block behind the Parse Diagram button: the loader, the diagram
    classifier, the traverser, the role classifier and the interpreter, one
    after the other, with [frames] frames free in the body of
    [interpret_flowchart]. [None] stands for the [except Exception] branch,
    which a [RecursionError] of the interpreter ends in. *)
Definition parse_diagram (templates : gmap string (list TemplateEntry))
  (frames : nat) (doc : Document) : option FlowchartData :=
  match parse_graphml doc with
  | Return (nodes, edges) =>
      let diagram_type := classify_diagram_type nodes in
      r ← traverse_graph nodes edges;
      let order := r.1 in
      let roles := classify_node_roles nodes diagram_type (Some edges) in
      match interpret_flowchart_limit templates frames nodes edges roles
              order diagram_type with
      | Return flowchart_data => Some flowchart_data
      | Raise _ => None
      end
  | Raise _ => None
  end.

(** * Theorems *)

(** ** Dicts filled in a loop *)

Section FoldInsert.

Context {A V : Type} (key : A → string) (val : A → V).

Lemma foldl_insert_snoc (m : gmap string V) (l : list A) (a : A) :
  foldl (λ m a, <[key a := val a]> m) m (l ++ [a])
  = <[key a := val a]> (foldl (λ m a, <[key a := val a]> m) m l).
Proof. by rewrite foldl_app. Qed.

Lemma foldl_insert_dom (m : gmap string V) (l : list A) :
  dom (foldl (λ m a, <[key a := val a]> m) m l)
  = list_to_set (map key l) ∪ dom m.
Proof.
  induction l as [|a l IH] using rev_ind; [set_solver|].
  rewrite foldl_insert_snoc, dom_insert_L, IH, map_app, list_to_set_app_L.
  set_solver.
Qed.

Lemma foldl_insert_lookup_Some (m : gmap string V) (l : list A) i v :
  foldl (λ m a, <[key a := val a]> m) m l !! i = Some v →
  m !! i = Some v ∨ ∃ a, a ∈ l ∧ key a = i ∧ v = val a.
Proof.
  induction l as [|a l IH] using rev_ind; [by left|].
  rewrite foldl_insert_snoc. intros H.
  destruct (decide (key a = i)) as [E|E].
  - rewrite E, lookup_insert_eq in H. inversion H; subst.
    right. exists a. split; [apply elem_of_app; right; constructor|done].
  - rewrite lookup_insert_ne in H by done.
    destruct (IH H) as [?|(b & Hb & ? & ?)]; [by left|].
    right. exists b. split; [apply elem_of_app; by left|done].
Qed.

Lemma foldl_insert_lookup_NoDup (m : gmap string V) (l : list A) a :
  NoDup (map key l) → a ∈ l →
  foldl (λ m a, <[key a := val a]> m) m l !! key a = Some (val a).
Proof.
  induction l as [|b l IH] using rev_ind; [by intros _ ?%elem_of_nil|].
  rewrite map_app, foldl_insert_snoc. simpl.
  intros [Hl [Hd _]]%NoDup_app [Ha|Ha]%elem_of_app.
  - rewrite lookup_insert_ne; [by apply IH|].
    intros E. apply (Hd (key a)); [by apply list_elem_of_fmap_2|].
    rewrite E. constructor.
  - apply list_elem_of_singleton in Ha as ->. apply lookup_insert_eq.
Qed.

Lemma foldl_insert_lookup_None (m : gmap string V) (l : list A) i :
  i ∉ map key l →
  foldl (λ m a, <[key a := val a]> m) m l !! i = m !! i.
Proof.
  induction l as [|a l IH] using rev_ind; [done|].
  rewrite map_app, foldl_insert_snoc. simpl. intros Hi.
  rewrite lookup_insert_ne; [apply IH|]; set_solver.
Qed.

End FoldInsert.

(** ** The loader *)

(** C4, at a document where it fails. The second node of [stale_doc] has an
    explicit shape and no generic-node element, and its metadata records
    the configuration string of the node before it. *)
Lemma parse_graphml_stale_raw_config :
  ∃ n1 n2,
    parse_graphml stale_doc = Return ([n1; n2], [])
    ∧ node_id n2 = "n2" ∧ node_shape n2 = "ellipse"
    ∧ find_desc (ns_y +:+ "GenericNode") (shape_node_el "n2" "Begin" "ellipse") = None
    ∧ node_metadata n2 !! "raw_shape" = Some "ellipse"
    ∧ node_metadata n2 !! "raw_config" = Some "com.yworks.flowchart.process".
Proof. eexists _, _. vm_compute. repeat split; reflexivity. Qed.

(** The same slip when the node with an explicit shape comes first: the
    local [generic] is read before any assignment, and the loader returns
    nothing of the document. *)
Lemma parse_graphml_unbound_generic :
  parse_graphml_body shape_first_doc = Raise (UnboundLocalError "generic")
  ∧ parse_graphml shape_first_doc = Return ([], []).
Proof. by vm_compute. Qed.

(** What the loader does record whenever it returns a node: the shape it
    derived. *)
Lemma parse_node_raw_shape generic node_el n g :
  parse_node generic node_el = Return (n, g) →
  node_metadata n !! "raw_shape" = Some (node_shape n)
  ∧ is_Some (node_metadata n !! "raw_config").
Proof.
  unfold parse_node. unfold mbind, result_bind.
  destruct (attrib_item "id" node_el) as [nid|]; [|done].
  repeat case_match; try done; intros [= <- <-]; simpl;
    (split; [by rewrite lookup_insert_ne, lookup_insert_eq
            |by rewrite lookup_insert_eq]).
Qed.

(** C5. [parse_graphml] returns a pair of lists for every document, and the
    pair is empty when the root has no graph element and when anything
    raises inside the [try] block. *)
Theorem parse_graphml_never_raises (doc : Document) :
  (∃ nodes edges, parse_graphml doc = Return (nodes, edges))
  ∧ (∀ root, doc = Parsed root →
       find_child (ns_graphml +:+ "graph") root = None →
       parse_graphml doc = Return ([], []))
  ∧ (∀ e, parse_graphml_body doc = Raise e →
       parse_graphml doc = Return ([], [])).
Proof.
  split; [|split].
  - unfold parse_graphml, try_except.
    destruct (parse_graphml_body doc) as [[nodes edges]|e]; [by eauto|].
    destruct e; by eauto.
  - intros root -> Hg. unfold parse_graphml, parse_graphml_body. simpl.
    by rewrite Hg.
  - intros e He. unfold parse_graphml. rewrite He. by destruct e.
Qed.

Lemma parse_graphml_never_raises_witness :
  parse_graphml no_graph_doc = Return ([], [])
  ∧ parse_graphml no_id_doc = Return ([], []).
Proof.
  split.
  - apply (proj1 (proj2 (parse_graphml_never_raises no_graph_doc)) _ eq_refl).
    reflexivity.
  - apply (proj2 (proj2 (parse_graphml_never_raises no_id_doc)) (KeyError "id")).
    reflexivity.
Defined.

(** ** The classifiers *)

Lemma score_node_blank (s : Scores) (n : Node) :
  node_label n = "" → node_shape n = "" → score_node s n = s.
Proof. intros Hl Hs. unfold score_node. rewrite Hl, Hs. by destruct s. Qed.

Lemma score_nodes_blank (s : Scores) (blanks : list Node) :
  Forall (λ n, node_label n = "" ∧ node_shape n = "") blanks →
  foldl score_node s blanks = s.
Proof.
  induction 1 as [|n l [Hl Hs] _ IH]; [done|].
  simpl. by rewrite score_node_blank.
Qed.

(** The claim of C3 fails on the class box: the label has no ["class"] in
    it, the structural rule does not fire, and the type is not the UML
    class diagram. *)
Lemma account_not_uml_class :
  ¬ (structural_class_hint (Py.lower (node_label account_node)) = true
     ∧ classify_diagram_type [account_node] = "UML Class Diagram").
Proof. intros [H _]. vm_compute in H. discriminate. Qed.

(** C3, amended. With nothing but blank nodes around the class box, the
    shape is the only signal: one point each for Flowchart and UML class,
    no structural bonus, and the tie resolves to Flowchart, where the role
    of the box is Process. Had the type been UML Class Diagram, the braces
    would make it a Class. *)
Theorem account_scenario (before after : list Node) :
  Forall (λ n, node_label n = "" ∧ node_shape n = "") before →
  Forall (λ n, node_label n = "" ∧ node_shape n = "") after →
  structural_class_hint (Py.lower (node_label account_node)) = false
  ∧ score_nodes (before ++ account_node :: after) = mkScores 1 1 0 0 0
  ∧ classify_diagram_type (before ++ account_node :: after) = "Flowchart"
  ∧ node_role "Flowchart" account_node = "Process"
  ∧ classify_node_roles [account_node]
      (classify_diagram_type [account_node]) None = {["c1" := "Process"]}
  ∧ node_role "UML Class Diagram" account_node = "Class".
Proof.
  intros Hb Ha.
  assert (Hs : score_nodes (before ++ account_node :: after) = mkScores 1 1 0 0 0).
  { unfold score_nodes. rewrite foldl_app, (score_nodes_blank _ before Hb).
    simpl. by rewrite (score_nodes_blank _ after Ha). }
  split; [by vm_compute|]. split; [done|].
  split; [|by vm_compute].
  unfold classify_diagram_type. by rewrite Hs.
Qed.

Lemma account_scenario_witness :
  classify_diagram_type
    ([plain_node "b0" "" ""] ++ account_node :: [plain_node "b1" "" ""])
  = "Flowchart".
Proof.
  apply (account_scenario [plain_node "b0" "" ""] [plain_node "b1" "" ""]);
    repeat constructor.
Defined.

Ltac solve_role_mem :=
  first [ left; repeat constructor; fail | right; repeat constructor ].

Lemma node_role_legal (diagram_type : string) (n : Node) :
  node_role diagram_type n ∈ legal_roles diagram_type
  ∨ node_role diagram_type n ∈ unknown_sentinels.
Proof.
  unfold node_role, legal_roles.
  destruct (String.eqb diagram_type "Flowchart").
  { unfold flowchart_role. repeat case_match; solve_role_mem. }
  destruct (String.eqb diagram_type "UML Class Diagram").
  { unfold uml_class_role. repeat case_match; solve_role_mem. }
  destruct (String.eqb diagram_type "UML Sequence Diagram").
  { unfold sequence_role. repeat case_match; solve_role_mem. }
  destruct (String.eqb diagram_type "ER Diagram").
  { unfold er_role. repeat case_match; solve_role_mem. }
  destruct (String.eqb diagram_type "UML Activity Diagram").
  { unfold activity_role. repeat case_match; solve_role_mem. }
  solve_role_mem.
Qed.

Lemma any_in_false_contains (kws : list string) (s kw : string) :
  Py.any_in kws s = false → kw ∈ kws → Py.contains kw s = false.
Proof.
  unfold Py.any_in. intros H Hk.
  destruct (Py.contains kw s) eqn:E; [|done].
  rewrite <- H. symmetry. apply existsb_exists. exists kw.
  split; [by apply list_elem_of_In|done].
Qed.

(** The claim of C6 fails under the sequence type: a node that matches no
    keyword is an Actor. *)
Lemma sequence_unmatched_is_actor :
  Py.any_in sequence_role_keywords "" = false
  ∧ classify_node_roles [plain_node "a" "" ""] "UML Sequence Diagram" None
      !! "a" ≠ Some "Unknown".
Proof. split; [done|]. by vm_compute. Qed.

(** C6, amended. The role map has the node ids as its keys, every role is
    of the vocabulary of the diagram type or a sentinel, and a node of a
    diagram with distinct ids that matches no keyword is Unknown under the
    ER and activity types and Actor under the sequence type. *)
Theorem classify_node_roles_vocabulary (nodes : list Node)
  (diagram_type : string) (edges : option (list Edge)) :
  dom (classify_node_roles nodes diagram_type edges)
    = list_to_set (node_ids nodes)
  ∧ (∀ i r, classify_node_roles nodes diagram_type edges !! i = Some r →
       r ∈ legal_roles diagram_type ∨ r ∈ unknown_sentinels)
  ∧ (NoDup (node_ids nodes) → ∀ n, n ∈ nodes →
       let label := Py.lower (Py.strip (node_label n)) in
       let role := classify_node_roles nodes diagram_type edges !! node_id n in
       (diagram_type = "ER Diagram" →
        Py.any_in er_role_keywords label = false → role = Some "Unknown")
       ∧ (diagram_type = "UML Activity Diagram" →
          Py.any_in activity_role_keywords label = false →
          role = Some "Unknown")
       ∧ (diagram_type = "UML Sequence Diagram" →
          Py.any_in sequence_role_keywords label = false →
          role = Some "Actor")).
Proof.
  unfold classify_node_roles, node_ids. cbv zeta. split; [|split].
  - rewrite (foldl_insert_dom node_id (node_role diagram_type)). set_solver.
  - intros i r H.
    apply (foldl_insert_lookup_Some node_id (node_role diagram_type)) in H
      as [H|(n & _ & _ & ->)]; [by rewrite lookup_empty in H|].
    apply node_role_legal.
  - intros Hnd n Hn.
    rewrite (foldl_insert_lookup_NoDup node_id (node_role diagram_type))
      by done.
    split; [|split]; intros -> Hk; f_equal; unfold node_role; simpl.
    + unfold er_role.
      by rewrite !(any_in_false_contains _ _ _ Hk) by repeat constructor.
    + unfold activity_role.
      by rewrite !(any_in_false_contains _ _ _ Hk) by repeat constructor.
    + unfold sequence_role.
      by rewrite !(any_in_false_contains _ _ _ Hk) by repeat constructor.
Qed.

Lemma classify_node_roles_vocabulary_witness :
  classify_node_roles [plain_node "e1" "Customer" "rectangle"] "ER Diagram" None
    !! "e1" = Some "Unknown".
Proof.
  refine (proj1 (proj2 (proj2 (classify_node_roles_vocabulary
            [plain_node "e1" "Customer" "rectangle"] "ER Diagram" None))
            _ (plain_node "e1" "Customer" "rectangle") _) eq_refl _).
  - apply (bool_decide_unpack _). vm_compute. exact I.
  - constructor.
  - reflexivity.
Defined.

(** ** The interpreter's tables *)

Lemma outgoing_snoc (edges : list Edge) (e : Edge) (i : string) :
  outgoing (edges ++ [e]) i
  = outgoing edges i ++ (if decide (edge_source e = i) then [e] else []).
Proof.
  unfold outgoing. by rewrite filter_app.
Qed.

Lemma build_next_map_lookup (edges : list Edge) (i : string) :
  default [] (build_next_map edges !! i) = map out_of_edge (outgoing edges i).
Proof.
  unfold build_next_map.
  induction edges as [|e edges IH] using rev_ind; [done|].
  rewrite foldl_app, outgoing_snoc, map_app. simpl. unfold next_map_append at 1.
  destruct (decide (edge_source e = i)) as [->|Hne].
  - by rewrite lookup_insert_eq, <- IH.
  - rewrite lookup_insert_ne by done. simpl. by rewrite app_nil_r.
Qed.

Lemma build_adjacency_lookup (edges : list Edge) (i : string) :
  default [] ((build_adjacency edges).1 !! i)
  = map edge_target (outgoing edges i).
Proof.
  unfold build_adjacency. simpl.
  induction edges as [|e edges IH] using rev_ind; [done|].
  rewrite foldl_app, outgoing_snoc, map_app. simpl. unfold adj_append at 1.
  destruct (decide (edge_source e = i)) as [->|Hne].
  - by rewrite lookup_insert_eq, <- IH.
  - rewrite lookup_insert_ne by done. simpl. by rewrite app_nil_r.
Qed.

Lemma build_id_to_node_key (nodes : list Node) (k : string) (n : Node) :
  build_id_to_node nodes !! k = Some n → node_id n = k ∧ n ∈ nodes.
Proof.
  intros H. apply (foldl_insert_lookup_Some node_id (λ n, n)) in H
    as [H|(a & Ha & <- & ->)]; [by rewrite lookup_empty in H|done].
Qed.

Lemma build_id_to_node_dom (nodes : list Node) :
  dom (build_id_to_node nodes) = list_to_set (node_ids nodes).
Proof.
  unfold build_id_to_node.
  rewrite (foldl_insert_dom node_id (λ n, n)). unfold node_ids. set_solver.
Qed.

Lemma build_id_to_node_is_Some (nodes : list Node) (k : string) :
  is_Some (build_id_to_node nodes !! k) ↔ k ∈ node_ids nodes.
Proof.
  rewrite <- elem_of_dom, build_id_to_node_dom. set_solver.
Qed.

Lemma size_list_to_set_le (l : list string) :
  size (list_to_set l : gset string) ≤ length l.
Proof.
  induction l as [|a l IH]; [by rewrite list_to_set_nil, size_empty|].
  rewrite list_to_set_cons, size_union_alt, size_singleton. simpl.
  pose proof (subseteq_size (list_to_set l ∖ {[a]}) (list_to_set l : gset string)
                ltac:(set_solver)).
  lia.
Qed.

Lemma mem_spec (x : string) (l : list string) : Py.mem x l = true ↔ x ∈ l.
Proof.
  unfold Py.mem. rewrite existsb_exists. split.
  - intros (y & Hy & ->%String.eqb_eq). by apply list_elem_of_In.
  - intros H. exists x. split; [by apply list_elem_of_In|apply String.eqb_refl].
Qed.

Lemma mem_false (x : string) (l : list string) : Py.mem x l = false ↔ x ∉ l.
Proof.
  rewrite <- mem_spec. by destruct (Py.mem x l).
Qed.

Lemma condition_of_spec (raw : string) :
  (condition_of raw ≠ "" ↔ raw ∈ condition_words)
  ∧ (condition_of raw = "yes" ∨ condition_of raw = "no" ∨ condition_of raw = "").
Proof.
  unfold condition_of, condition_words.
  change ["yes"; "true"; "y"; "no"; "false"; "n"]
    with (["yes"; "true"; "y"] ++ ["no"; "false"; "n"]).
  rewrite elem_of_app.
  destruct (Py.mem raw ["yes"; "true"; "y"]) eqn:Ey.
  { apply mem_spec in Ey. split; [|by left]. split; [by left|done]. }
  destruct (Py.mem raw ["no"; "false"; "n"]) eqn:En.
  { apply mem_spec in En. split; [|by right; left]. split; [by right|done]. }
  apply mem_false in Ey, En. split; [|by right; right].
  split; [done|by intros [?|?]].
Qed.

(** ** The recursion of the interpreter *)

Section Visit.

Variable id_to_node : gmap string Node.
Variable next_map : gmap string (list OutEdge).
Variable roles : gmap string string.
Variable templates : gmap string (list TemplateEntry).

Hypothesis id_to_node_key :
  ∀ k n, id_to_node !! k = Some n → node_id n = k.

Local Abbreviation visit := (visit_node id_to_node next_map roles templates).
Local Abbreviation inv := (dfs_inv id_to_node next_map roles templates).
Local Abbreviation measure := (dfs_measure id_to_node).

Lemma dfs_measure_mono (st st' : VisitState) :
  dfs_visited st ⊆ dfs_visited st' → measure st' ≤ measure st.
Proof. intros H. apply subseteq_size. set_solver. Qed.

Lemma dfs_measure_mark (nid : string) (st : VisitState) (flow : list Step) :
  nid ∉ dfs_visited st → is_Some (id_to_node !! nid) →
  measure (mkVisit ({[nid]} ∪ dfs_visited st) flow) < measure st.
Proof.
  intros Hn Hs%elem_of_dom. apply subset_size. simpl. set_solver.
Qed.

Lemma dfs_inv_mark (nid : string) (st : VisitState) :
  inv st → inv (mkVisit ({[nid]} ∪ dfs_visited st) (dfs_flow st)).
Proof.
  intros [Hs Hd]. split; [|done]. simpl. intros step H.
  destruct (Hs step H) as [? ?]. split; [set_solver|done].
Qed.

Lemma dfs_inv_step (nid : string) (node : Node) (st : VisitState) :
  inv st → nid ∉ dfs_visited st → id_to_node !! nid = Some node →
  inv (mkVisit ({[nid]} ∪ dfs_visited st)
         (dfs_flow st
            ++ [build_step id_to_node next_map roles templates node])).
Proof.
  intros [Hs Hd] Hn Hnode. pose proof (id_to_node_key _ _ Hnode) as Hk.
  split; simpl.
  - intros step [H|H]%elem_of_app.
    + destruct (Hs step H) as [? ?]. split; [set_solver|done].
    + apply list_elem_of_singleton in H as ->. simpl. rewrite Hk.
      split; [set_solver|eauto].
  - rewrite map_app. apply NoDup_app. split; [done|]. split.
    + simpl. intros i Hi ->%list_elem_of_singleton.
      apply list_elem_of_fmap in Hi as (step & E & Hstep).
      destruct (Hs step Hstep) as [Hv _]. rewrite <- E, Hk in Hv. done.
    + apply NoDup_singleton.
Qed.

(** A loop of calls, from the calls. *)
Lemma visit_fold {B : Type} (g : B → string) (fuel : nat) (l : list B) :
  (∀ nid st, measure st ≤ fuel → inv st →
     ∃ st', visit fuel nid st = Some st'
            ∧ dfs_visited st ⊆ dfs_visited st' ∧ inv st') →
  ∀ st, measure st ≤ fuel → inv st →
    ∃ st', foldl (λ acc b, st' ← acc; visit fuel (g b) st') (Some st) l
           = Some st'
           ∧ dfs_visited st ⊆ dfs_visited st' ∧ inv st'.
Proof.
  intros Hvisit. induction l as [|b l IH]; intros st Hm Hi; simpl.
  - by exists st.
  - destruct (Hvisit (g b) st Hm Hi) as (st1 & -> & Hsub & Hi1).
    destruct (IH st1) as (st2 & -> & Hsub2 & Hi2); [|done|].
    + pose proof (dfs_measure_mono _ _ Hsub). lia.
    + exists st2. split; [done|]. split; [set_solver|done].
Qed.

(** [visit_node] returns whenever the fuel covers the nodes not yet seen,
    and keeps the invariant. *)
Lemma visit_node_spec (fuel : nat) :
  ∀ nid st, measure st ≤ fuel → inv st →
    ∃ st', visit fuel nid st = Some st'
           ∧ dfs_visited st ⊆ dfs_visited st' ∧ inv st'.
Proof.
  induction fuel as [|fuel IH]; intros nid st Hm Hi.
  - simpl. destruct (decide (nid ∈ dfs_visited st)) as [Hin|Hin].
    { by exists st. }
    destruct (id_to_node !! nid) as [node|] eqn:Hnode.
    { assert (Hs : is_Some (id_to_node !! nid)) by (by rewrite Hnode).
      pose proof (dfs_measure_mark nid st [] Hin Hs). lia. }
    eexists. split; [done|]. split; [set_solver|by apply dfs_inv_mark].
  - simpl. destruct (decide (nid ∈ dfs_visited st)) as [Hin|Hin].
    { by exists st. }
    destruct (id_to_node !! nid) as [node|] eqn:Hnode.
    2:{ eexists. split; [done|]. split; [set_solver|by apply dfs_inv_mark]. }
    set (st1 := mkVisit _ _).
    destruct (visit_fold target_id fuel (next_nodes_of next_map node) IH st1)
      as (st2 & E & Hsub & Hi2).
    + assert (Hs : is_Some (id_to_node !! nid)) by (by rewrite Hnode).
      assert (measure st1 < measure st) by (by apply dfs_measure_mark).
      lia.
    + by apply dfs_inv_step.
    + exists st2. split; [done|]. split; [|done].
      etrans; [|exact Hsub]. unfold st1. simpl. set_solver.
Qed.

(** An id without a node is marked and nothing else happens. *)
Lemma visit_node_missing (fuel : nat) (nid : string) (st : VisitState) :
  id_to_node !! nid = None → nid ∉ dfs_visited st →
  visit fuel nid st
  = Some (mkVisit ({[nid]} ∪ dfs_visited st) (dfs_flow st)).
Proof.
  intros Hnone Hin. destruct fuel; simpl;
    (destruct (decide _); [done|]); by rewrite Hnone.
Qed.

End Visit.

(** ** The interpreter *)

Lemma interpret_flowchart_flow (templates : gmap string (list TemplateEntry))
  (nodes : list Node) (edges : list Edge) (roles : gmap string string)
  (traversal_order : list string) (dt : string) :
  ∃ doc,
    interpret_flowchart templates nodes edges roles traversal_order dt
      = Some doc
    ∧ (∀ step, step ∈ execution_flow doc →
         ∃ node, node ∈ nodes ∧ node_id node = step_node_id step
           ∧ step = build_step (build_id_to_node nodes) (build_next_map edges)
                      roles templates node)
    ∧ NoDup (map step_node_id (execution_flow doc)).
Proof.
  assert (Hkey : ∀ k n, build_id_to_node nodes !! k = Some n → node_id n = k).
  { intros k n H. by apply build_id_to_node_key in H as [? ?]. }
  unfold interpret_flowchart, visit_all.
  destruct (visit_fold (build_id_to_node nodes) (build_next_map edges) roles
              templates Hkey (λ x, x) (length nodes) traversal_order
              (visit_node_spec _ _ _ _ Hkey _) (mkVisit ∅ []))
    as (st & -> & _ & [Hs Hd]).
  - unfold dfs_measure. simpl. rewrite build_id_to_node_dom.
    rewrite <- (length_map node_id nodes).
    etrans; [apply subseteq_size|apply size_list_to_set_le]. set_solver.
  - split; simpl; [by intros ? ?%elem_of_nil|constructor].
  - eexists. split; [done|]. simpl. split; [|done]. intros step Hstep.
    destruct (Hs step Hstep) as (_ & node & Hnode & ->).
    apply build_id_to_node_key in Hnode as [? ?]. by exists node.
Qed.

Lemma next_id_of_spec (role_lower : string) (outs : list OutEdge) :
  (is_Some (next_id_of role_lower outs)
   ↔ length outs = 1 ∧ role_lower ≠ "decision" ∧ role_lower ≠ "end")
  ∧ (∀ t, next_id_of role_lower outs = Some t →
       ∃ out, outs = [out] ∧ t = target_id out).
Proof.
  unfold next_id_of. destruct outs as [|out [|out' outs]].
  - split; [|done]. split; [by intros [? ?]|by intros [? _]].
  - destruct (Py.mem role_lower ["decision"; "end"]) eqn:E; simpl.
    + apply mem_spec in E. split; [|done].
      split; [by intros [? ?]|]. intros (_ & ? & ?). set_solver.
    + apply mem_false in E. split.
      * split; [|by eauto]. intros _. split; [done|]. set_solver.
      * intros t [= <-]. by exists out.
  - split; [|done]. split; [by intros [? ?]|by intros [? _]].
Qed.

(** C9. Every step of the execution flow has a [next_id] exactly when its
    node has one outgoing edge and a role that is, in lower case, neither
    decision nor end; the [next_id] is the target of that edge. *)
Theorem next_id_single_successor
  (templates : gmap string (list TemplateEntry)) (nodes : list Node)
  (edges : list Edge) (roles : gmap string string)
  (traversal_order : list string) (dt : string) :
  ∃ doc,
    interpret_flowchart templates nodes edges roles traversal_order dt
      = Some doc
    ∧ ∀ step, step ∈ execution_flow doc →
        let outs := outgoing edges (step_node_id step) in
        let role := default "Unknown" (roles !! step_node_id step) in
        step_role step = role
        ∧ (is_Some (step_next_id step)
           ↔ length outs = 1
             ∧ Py.lower role ≠ "decision" ∧ Py.lower role ≠ "end")
        ∧ (∀ t, step_next_id step = Some t →
             ∃ e, outs = [e] ∧ t = edge_target e).
Proof.
  destruct (interpret_flowchart_flow templates nodes edges roles
              traversal_order dt) as (doc & Hdoc & Hsteps & Hnd).
  exists doc. split; [done|]. intros step Hstep.
  destruct (Hsteps step Hstep) as (node & _ & _ & ->). simpl.
  unfold role_of, next_nodes_of. rewrite build_next_map_lookup.
  destruct (next_id_of_spec
              (Py.lower (default "Unknown" (roles !! node_id node)))
              (map out_of_edge (outgoing edges (node_id node))))
    as [Hiff Htgt].
  split; [done|]. split.
  - by rewrite Hiff, length_map.
  - intros t Ht. destruct (Htgt t Ht) as (out & Hout & ->).
    destruct (outgoing edges (node_id node)) as [|e [|e' l]]; try done.
    exists e. split; [done|]. by inversion Hout.
Qed.

Lemma next_id_single_successor_witness :
  ∃ doc step,
    interpret_flowchart ∅ dangling_nodes dangling_edges
      {["A" := "Process"]} ["A"; "X"] "Flowchart" = Some doc
    ∧ execution_flow doc = [step]
    ∧ is_Some (step_next_id step).
Proof.
  destruct (next_id_single_successor ∅ dangling_nodes dangling_edges
              {["A" := "Process"]} ["A"; "X"] "Flowchart")
    as (doc & Hdoc & Hsteps).
  vm_compute in Hdoc. injection Hdoc as <-.
  eexists _, _. split; [reflexivity|]. split; [reflexivity|].
  destruct (Hsteps _ ltac:(constructor)) as (_ & Hiff & _).
  apply Hiff. split; [reflexivity|]. split; discriminate.
Defined.

Lemma branches_of_spec (nodes : list Node) (outs : list Edge) :
  let bs := branches_of (build_id_to_node nodes) (map out_of_edge outs) in
  map (λ b, (condition_label b, target_node_id b)) bs
  = map (λ e, (Py.lower (Py.strip (edge_label e)), edge_target e))
      (filter (λ e, edge_target e ∈ node_ids nodes) outs)
  ∧ ∀ b, b ∈ bs → condition b = condition_of (condition_label b).
Proof.
  unfold branches_of. cbv zeta.
  induction outs as [|e outs [IH1 IH2]].
  { split; [done|]. by intros ? ?%elem_of_nil. }
  rewrite filter_cons. cbn [map omap list_omap].
  destruct (decide (edge_target e ∈ node_ids nodes)) as [Hin|Hin].
  - apply build_id_to_node_is_Some in Hin as [target Ht].
    assert (branch_of (build_id_to_node nodes) (out_of_edge e)
            = Some (mkBranch (Py.lower (Py.strip (edge_label e)))
                      (condition_of (Py.lower (Py.strip (edge_label e))))
                      (edge_target e) (Py.strip (node_label target)))) as ->.
    { unfold branch_of. simpl. by rewrite Ht. }
    cbn [map]. split; [by rewrite IH1|].
    intros b [->|Hb]%elem_of_cons; [done|by apply IH2].
  - assert (branch_of (build_id_to_node nodes) (out_of_edge e) = None) as ->.
    { unfold branch_of. simpl.
      destruct (build_id_to_node nodes !! edge_target e) eqn:E; [|done].
      destruct Hin. apply build_id_to_node_is_Some. by eexists. }
    done.
Qed.

(** The claim of C7 fails on an edge whose target has no node: the branch
    is not built. *)
Lemma dangling_branch_dropped :
  ∃ doc step,
    interpret_flowchart ∅ dangling_nodes dangling_edges
      {["A" := "Decision"]} ["A"; "X"] "Flowchart" = Some doc
    ∧ execution_flow doc = [step]
    ∧ step_role step = "Decision"
    ∧ step_branches step = Some []
    ∧ length (outgoing dangling_edges "A") = 1.
Proof. eexists _, _. by vm_compute. Qed.

(** C7, amended. A step has a branches list exactly when its role is, in
    lower case, decision; the list has one branch, in order, for each
    outgoing edge of the node whose target is the id of a node; and the
    condition of a branch is "yes" or "no" when the lowercased edge label
    is one of the six condition words, and empty otherwise. *)
Theorem decision_branches
  (templates : gmap string (list TemplateEntry)) (nodes : list Node)
  (edges : list Edge) (roles : gmap string string)
  (traversal_order : list string) (dt : string) :
  ∃ doc,
    interpret_flowchart templates nodes edges roles traversal_order dt
      = Some doc
    ∧ ∀ step, step ∈ execution_flow doc →
        let outs := filter (λ e, edge_target e ∈ node_ids nodes)
                      (outgoing edges (step_node_id step)) in
        (Py.lower (step_role step) ≠ "decision" → step_branches step = None)
        ∧ (Py.lower (step_role step) = "decision" →
           ∃ bs, step_branches step = Some bs
             ∧ length bs = length outs
             ∧ map (λ b, (condition_label b, target_node_id b)) bs
               = map (λ e, (Py.lower (Py.strip (edge_label e)), edge_target e))
                   outs
             ∧ ∀ b, b ∈ bs →
                 (condition b ≠ "" ↔ condition_label b ∈ condition_words)
                 ∧ (condition b = "yes" ∨ condition b = "no"
                    ∨ condition b = "")).
Proof.
  destruct (interpret_flowchart_flow templates nodes edges roles
              traversal_order dt) as (doc & Hdoc & Hsteps & Hnd).
  exists doc. split; [done|]. intros step Hstep.
  destruct (Hsteps step Hstep) as (node & _ & _ & ->). simpl.
  unfold next_nodes_of. rewrite build_next_map_lookup.
  split.
  - intros Hne. by apply String.eqb_neq in Hne as ->.
  - intros ->. simpl.
    destruct (branches_of_spec nodes (outgoing edges (node_id node)))
      as [Hmap Hcond].
    eexists. split; [done|]. split; [|split; [exact Hmap|]].
    + apply (f_equal length) in Hmap. by rewrite !length_map in Hmap.
    + intros b Hb. rewrite (Hcond b Hb). apply condition_of_spec.
Qed.

Lemma decision_branches_witness :
  ∃ doc step,
    interpret_flowchart ∅ dangling_nodes dangling_edges
      {["A" := "Decision"]} ["A"; "X"] "Flowchart" = Some doc
    ∧ execution_flow doc = [step]
    ∧ ∃ bs, step_branches step = Some bs ∧ length bs = 0.
Proof.
  destruct (decision_branches ∅ dangling_nodes dangling_edges
              {["A" := "Decision"]} ["A"; "X"] "Flowchart")
    as (doc & Hdoc & Hsteps).
  vm_compute in Hdoc. injection Hdoc as <-.
  eexists _, _. split; [reflexivity|]. split; [reflexivity|].
  destruct (Hsteps _ ltac:(constructor)) as [_ H].
  destruct (H eq_refl) as (bs & Hbs & Hlen & _).
  exists bs. split; [exact Hbs|exact Hlen].
Defined.

(** ** The recursion limit *)

Section Limit.

Variable id_to_node : gmap string Node.
Variable next_map : gmap string (list OutEdge).
Variable roles : gmap string string.
Variable templates : gmap string (list TemplateEntry).

Local Abbreviation visit := (visit_node id_to_node next_map roles templates).
Local Abbreviation visit_limit :=
  (visit_node_limit id_to_node next_map roles templates).

Lemma visit_node_S (fuel : nat) (nid : string) (st : VisitState) :
  visit (S fuel) nid st
  = if decide (nid ∈ dfs_visited st) then Some st
    else match id_to_node !! nid with
         | None => Some (mkVisit ({[nid]} ∪ dfs_visited st) (dfs_flow st))
         | Some node =>
             foldl (λ acc out, st' ← acc; visit fuel (target_id out) st')
                   (Some (mkVisit ({[nid]} ∪ dfs_visited st)
                            (dfs_flow st
                               ++ [build_step id_to_node next_map roles
                                     templates node])))
                   (next_nodes_of next_map node)
         end.
Proof. done. Qed.

Lemma visit_node_limit_S (frames : nat) (nid : string) (st : VisitState) :
  visit_limit (S frames) nid st
  = if decide (nid ∈ dfs_visited st) then Return st
    else match id_to_node !! nid with
         | None => Return (mkVisit ({[nid]} ∪ dfs_visited st) (dfs_flow st))
         | Some node =>
             match frames with
             | O => Raise RecursionError
             | S _ =>
                 foldl (λ acc out,
                          st' ← acc; visit_limit frames (target_id out) st')
                       (Return (mkVisit ({[nid]} ∪ dfs_visited st)
                                  (dfs_flow st
                                     ++ [build_step id_to_node next_map roles
                                           templates node])))
                       (next_nodes_of next_map node)
             end
         end.
Proof. done. Qed.

Lemma visit_fold_None {B : Type} (g : B → string) (fuel : nat) (l : list B) :
  foldl (λ acc b, st' ← acc; visit fuel (g b) st') None l = None.
Proof. by induction l. Qed.

Lemma visit_limit_fold_Raise {B : Type} (g : B → string) (frames : nat)
  (l : list B) (e : PyExc) :
  foldl (λ acc b, st' ← acc; visit_limit frames (g b) st') (Raise e) l
  = Raise e.
Proof. by induction l. Qed.

(** A loop of calls that all agree with calls of another kind. *)
Lemma visit_fold_more_fuel {B : Type} (g : B → string) (fuel fuel' : nat)
  (l : list B) :
  (∀ nid st st', visit fuel nid st = Some st' → visit fuel' nid st = Some st') →
  ∀ st st',
    foldl (λ acc b, st' ← acc; visit fuel (g b) st') (Some st) l = Some st' →
    foldl (λ acc b, st' ← acc; visit fuel' (g b) st') (Some st) l = Some st'.
Proof.
  intros Hv. induction l as [|b l IH]; intros st st'; simpl; [done|].
  destruct (visit fuel (g b) st) as [st1|] eqn:E;
    [|by rewrite visit_fold_None].
  rewrite (Hv _ _ _ E). apply IH.
Qed.

(** More fuel does not change what [visit_node] returns. *)
Lemma visit_node_more_fuel (fuel : nat) :
  ∀ fuel' nid st st', fuel ≤ fuel' →
    visit fuel nid st = Some st' → visit fuel' nid st = Some st'.
Proof.
  induction fuel as [|fuel IH]; intros fuel' nid st st' Hle.
  - destruct fuel'; simpl; destruct (decide (nid ∈ dfs_visited st));
      try done; by destruct (id_to_node !! nid).
  - destruct fuel' as [|fuel']; [lia|]. rewrite !visit_node_S.
    destruct (decide (nid ∈ dfs_visited st)); [done|].
    destruct (id_to_node !! nid) as [node|]; [|done].
    apply visit_fold_more_fuel. intros nid' st0 st1. apply IH. lia.
Qed.

Lemma visit_fold_limit_Return {B : Type} (g : B → string) (frames : nat)
  (l : list B) :
  (∀ nid st st',
     visit_limit frames nid st = Return st' → visit frames nid st = Some st') →
  ∀ st st',
    foldl (λ acc b, st' ← acc; visit_limit frames (g b) st') (Return st) l
      = Return st' →
    foldl (λ acc b, st' ← acc; visit frames (g b) st') (Some st) l = Some st'.
Proof.
  intros Hv. induction l as [|b l IH]; intros st st'; simpl.
  { by intros [= <-]. }
  destruct (visit_limit frames (g b) st) as [st1|e] eqn:E;
    [|by rewrite visit_limit_fold_Raise].
  rewrite (Hv _ _ _ E). apply IH.
Qed.

(** What [visit_node] returns within the recursion limit is what it returns
    without one. *)
Lemma visit_node_limit_Return (frames : nat) :
  ∀ nid st st',
    visit_limit frames nid st = Return st' → visit frames nid st = Some st'.
Proof.
  induction frames as [|frames IH]; intros nid st st'; [done|].
  rewrite visit_node_limit_S, visit_node_S.
  destruct (decide (nid ∈ dfs_visited st)); [by intros [= <-]|].
  destruct (id_to_node !! nid) as [node|]; [|by intros [= <-]].
  destruct frames as [|frames']; [done|].
  by apply visit_fold_limit_Return.
Qed.

Lemma visit_fold_limit_enough {B : Type} (g : B → string) (fuel frames : nat)
  (l : list B) :
  (∀ nid st st',
     visit fuel nid st = Some st' → visit_limit frames nid st = Return st') →
  ∀ st st',
    foldl (λ acc b, st' ← acc; visit fuel (g b) st') (Some st) l = Some st' →
    foldl (λ acc b, st' ← acc; visit_limit frames (g b) st') (Return st) l
      = Return st'.
Proof.
  intros Hv. induction l as [|b l IH]; intros st st'; simpl.
  { by intros [= <-]. }
  destruct (visit fuel (g b) st) as [st1|] eqn:E;
    [|by rewrite visit_fold_None].
  rewrite (Hv _ _ _ E). apply IH.
Qed.

(** Two frames more than the fuel that [visit_node] needs are enough: one
    for the innermost call, one for its call of [match_template]. *)
Lemma visit_node_limit_enough (fuel : nat) :
  ∀ nid st st',
    visit fuel nid st = Some st' →
    visit_limit (S (S fuel)) nid st = Return st'.
Proof.
  induction fuel as [|fuel IH]; intros nid st st'.
  - rewrite visit_node_limit_S. simpl.
    destruct (decide (nid ∈ dfs_visited st)); [by intros [= <-]|].
    destruct (id_to_node !! nid) as [node|]; [done|by intros [= <-]].
  - rewrite visit_node_limit_S, visit_node_S.
    destruct (decide (nid ∈ dfs_visited st)); [by intros [= <-]|].
    destruct (id_to_node !! nid) as [node|]; [|by intros [= <-]].
    by apply visit_fold_limit_enough.
Qed.

Lemma visit_fold_limit_Raise {B : Type} (g : B → string) (frames : nat)
  (l : list B) :
  (∀ nid st e, visit_limit frames nid st = Raise e → e = RecursionError) →
  ∀ st e,
    foldl (λ acc b, st' ← acc; visit_limit frames (g b) st') (Return st) l
      = Raise e →
    e = RecursionError.
Proof.
  intros Hv. induction l as [|b l IH]; intros st e; simpl; [done|].
  destruct (visit_limit frames (g b) st) as [st1|e'] eqn:E; [apply IH|].
  rewrite visit_limit_fold_Raise. intros [= <-]. by apply (Hv _ _ _ E).
Qed.

(** The one exception [visit_node] raises. *)
Lemma visit_node_limit_Raise (frames : nat) :
  ∀ nid st e, visit_limit frames nid st = Raise e → e = RecursionError.
Proof.
  induction frames as [|frames IH]; intros nid st e; [by intros [= <-]|].
  rewrite visit_node_limit_S.
  destruct (decide (nid ∈ dfs_visited st)); [done|].
  destruct (id_to_node !! nid) as [node|]; [|done].
  destruct frames as [|frames']; [by intros [= <-]|].
  by apply visit_fold_limit_Raise.
Qed.

(** An id without a node: marked and nothing else, when the call can be
    made at all. *)
Lemma visit_node_limit_missing (frames : nat) (nid : string) (st : VisitState) :
  id_to_node !! nid = None → nid ∉ dfs_visited st →
  visit_limit frames nid st
  = match frames with
    | O => Raise RecursionError
    | S _ => Return (mkVisit ({[nid]} ∪ dfs_visited st) (dfs_flow st))
    end.
Proof.
  intros Hnone Hin. destruct frames; [done|].
  rewrite visit_node_limit_S, decide_False by done. by rewrite Hnone.
Qed.

End Limit.

(** A document the interpreter returns within the recursion limit is the
    document it returns without one. *)
Lemma interpret_flowchart_limit_Return
  (templates : gmap string (list TemplateEntry)) (frames : nat)
  (nodes : list Node) (edges : list Edge) (roles : gmap string string)
  (traversal_order : list string) (dt : string) (doc : FlowchartData) :
  interpret_flowchart_limit templates frames nodes edges roles
    traversal_order dt = Return doc →
  interpret_flowchart templates nodes edges roles traversal_order dt
    = Some doc.
Proof.
  destruct (interpret_flowchart_flow templates nodes edges roles
              traversal_order dt) as (doc' & Hdoc' & _).
  unfold interpret_flowchart_limit. destruct frames as [|frames]; [done|].
  cbv zeta. unfold visit_all_limit.
  destruct (foldl _ _ _) as [st|e] eqn:E; [|done]. intros [= <-].
  apply (visit_fold_limit_Return _ _ _ _ (λ x, x) _ _
           (visit_node_limit_Return _ _ _ _ _)) in E.
  unfold interpret_flowchart, visit_all in *.
  destruct (foldl _ (Some _) traversal_order) as [st'|] eqn:E'; [|done].
  assert (st' = st) as ->; [|done].
  destruct (Nat.le_ge_cases (length nodes) (S frames)) as [Hle|Hle].
  - apply (visit_fold_more_fuel _ _ _ _ (λ x, x) _ (S frames)) in E'.
    + congruence.
    + intros nid s s'. by apply visit_node_more_fuel.
  - apply (visit_fold_more_fuel _ _ _ _ (λ x, x) _ (length nodes)) in E.
    + congruence.
    + intros nid s s'. by apply visit_node_more_fuel.
Qed.

(** Two frames more than there are nodes are enough. *)
Lemma interpret_flowchart_limit_enough
  (templates : gmap string (list TemplateEntry)) (frames : nat)
  (nodes : list Node) (edges : list Edge) (roles : gmap string string)
  (traversal_order : list string) (dt : string) :
  length nodes + 2 ≤ frames →
  ∃ doc, interpret_flowchart_limit templates frames nodes edges roles
           traversal_order dt = Return doc.
Proof.
  intros Hle.
  destruct (interpret_flowchart_flow templates nodes edges roles
              traversal_order dt) as (doc & Hdoc & _).
  unfold interpret_flowchart, visit_all in Hdoc.
  destruct (foldl _ (Some _) traversal_order) as [st|] eqn:E; [|done].
  destruct frames as [|[|fuel]]; [lia|lia|].
  apply (visit_fold_more_fuel _ _ _ _ (λ x, x) _ fuel) in E.
  2:{ intros nid s s'. apply visit_node_more_fuel. lia. }
  apply (visit_fold_limit_enough _ _ _ _ (λ x, x) _ (S (S fuel)) _
           (visit_node_limit_enough _ _ _ _ _)) in E.
  unfold interpret_flowchart_limit, visit_all_limit. cbv zeta.
  rewrite E. by eexists.
Qed.

(** Past the limit it raises [RecursionError] and nothing else. *)
Lemma interpret_flowchart_limit_Raise
  (templates : gmap string (list TemplateEntry)) (frames : nat)
  (nodes : list Node) (edges : list Edge) (roles : gmap string string)
  (traversal_order : list string) (dt : string) (e : PyExc) :
  interpret_flowchart_limit templates frames nodes edges roles
    traversal_order dt = Raise e →
  e = RecursionError ∧ frames < length nodes + 2.
Proof.
  intros H. split.
  - unfold interpret_flowchart_limit in H.
    destruct frames as [|frames]; [by injection H as <-|].
    cbv zeta in H. unfold visit_all_limit in H.
    destruct (foldl _ _ _) as [st|e'] eqn:E; [done|]. injection H as <-.
    by apply (visit_fold_limit_Raise _ _ _ _ (λ x, x) _ _
                (visit_node_limit_Raise _ _ _ _ _)) in E.
  - destruct (decide (length nodes + 2 ≤ frames)) as [Hle|Hle]; [|lia].
    destruct (interpret_flowchart_limit_enough templates frames nodes edges
                roles traversal_order dt Hle) as [doc Hdoc].
    congruence.
Qed.

(** ** A chain deeper than the limit *)

Lemma deep_id_inj : Inj (=) (=) deep_id.
Proof. intros j k [= H]. by apply (inj pretty). Qed.

Lemma deep_nodes_ids (n : nat) :
  node_ids (deep_nodes n) = map deep_id (seq 0 n).
Proof. unfold node_ids, deep_nodes. by rewrite map_map. Qed.

Lemma deep_nodes_NoDup (n : nat) : NoDup (node_ids (deep_nodes n)).
Proof.
  rewrite deep_nodes_ids.
  apply (@NoDup_fmap_2 _ _ deep_id deep_id_inj), NoDup_seq.
Qed.

Lemma deep_id_elem_of (n k : nat) :
  deep_id k ∈ node_ids (deep_nodes n) ↔ k < n.
Proof.
  rewrite deep_nodes_ids. split.
  - intros (j & Hj%deep_id_inj & Hin%elem_of_seq)%list_elem_of_fmap. lia.
  - intros Hk. apply list_elem_of_fmap_2, elem_of_seq. lia.
Qed.

Lemma deep_nodes_lookup (n k : nat) :
  k < n →
  build_id_to_node (deep_nodes n) !! deep_id k
  = Some (plain_node (deep_id k) "" "").
Proof.
  intros Hk. unfold build_id_to_node.
  apply (foldl_insert_lookup_NoDup node_id (λ node, node) ∅ (deep_nodes n)
           (plain_node (deep_id k) "" "")).
  - apply deep_nodes_NoDup.
  - unfold deep_nodes.
    apply (list_elem_of_fmap_2 (λ k, plain_node (deep_id k) "" "")).
    apply elem_of_seq. lia.
Qed.

Lemma deep_edges_outgoing (k : nat) :
  ∀ a m,
    outgoing (map (λ k, plain_edge (deep_id k) (deep_id (S k))) (seq a m))
      (deep_id k)
    = if decide (a ≤ k < a + m)
      then [plain_edge (deep_id k) (deep_id (S k))] else [].
Proof.
  intros a m. revert a. unfold outgoing.
  induction m as [|m IH]; intros a.
  { simpl. rewrite decide_False by lia. done. }
  simpl. rewrite filter_cons, IH. simpl.
  destruct (decide (deep_id a = deep_id k)) as [E|E].
  - apply deep_id_inj in E as ->.
    repeat case_decide; try done; lia.
  - assert (a ≠ k). { intros Hak. apply E. by rewrite Hak. }
    repeat case_decide; try done; lia.
Qed.

Lemma deep_edges_next (n k : nat) :
  k < n →
  next_nodes_of (build_next_map (deep_edges n)) (plain_node (deep_id k) "" "")
  = [mkOut (deep_id (S k)) ""].
Proof.
  intros Hk. unfold next_nodes_of. rewrite build_next_map_lookup.
  unfold deep_edges. simpl. rewrite deep_edges_outgoing.
  rewrite decide_True by lia. done.
Qed.

(** On the chain every call finds a node not seen yet and goes one call
    deeper, until no frame is left. *)
Lemma visit_node_limit_deep (templates : gmap string (list TemplateEntry))
  (roles : gmap string string) (n : nat) (frames : nat) :
  ∀ k st, k + frames ≤ n →
    (∀ j, k ≤ j → deep_id j ∉ dfs_visited st) →
    visit_node_limit (build_id_to_node (deep_nodes n))
      (build_next_map (deep_edges n)) roles templates frames (deep_id k) st
    = Raise RecursionError.
Proof.
  induction frames as [|frames IH]; intros k st Hle Hfresh; [done|].
  rewrite visit_node_limit_S.
  rewrite decide_False by (by apply Hfresh).
  rewrite deep_nodes_lookup by lia.
  destruct frames as [|frames']; [done|].
  rewrite deep_edges_next by lia. cbn [foldl target_id].
  unfold mbind, result_bind.
  apply IH; [lia|]. cbn [dfs_visited]. intros j Hj.
  rewrite not_elem_of_union, not_elem_of_singleton. split.
  - intros E%deep_id_inj. lia.
  - apply Hfresh. lia.
Qed.

(** Whatever the limit, a chain with as many nodes as frames are free makes
    the interpreter raise. *)
Lemma interpret_flowchart_limit_deep
  (templates : gmap string (list TemplateEntry)) (roles : gmap string string)
  (frames n : nat) (dt : string) :
  frames ≤ n →
  interpret_flowchart_limit templates frames (deep_nodes n) (deep_edges n)
    roles [deep_id 0] dt = Raise RecursionError.
Proof.
  intros Hle. unfold interpret_flowchart_limit.
  destruct frames as [|frames]; [done|].
  cbv zeta. unfold visit_all_limit. cbn [foldl]. unfold mbind, result_bind.
  rewrite visit_node_limit_deep; [done|lia|].
  cbn [dfs_visited]. intros j _. apply not_elem_of_empty.
Qed.




(** ** The template table does not change the flow *)

Lemma match_template_empty (label role : string) :
  match_template label role ∅ = None.
Proof. unfold match_template. by rewrite lookup_empty. Qed.

Lemma build_step_erase (id_to_node : gmap string Node)
  (next_map : gmap string (list OutEdge)) (roles : gmap string string)
  (templates : gmap string (list TemplateEntry)) (node : Node) :
  erase_logic (build_step id_to_node next_map roles templates node)
  = build_step id_to_node next_map roles ∅ node.
Proof.
  unfold erase_logic, build_step. simpl. by rewrite match_template_empty.
Qed.

Section Erase.

Variable id_to_node : gmap string Node.
Variable next_map : gmap string (list OutEdge).
Variable roles : gmap string string.
Variable templates : gmap string (list TemplateEntry).

Lemma visit_fold_erase {B : Type} (g : B → string) (fuel : nat) (l : list B) :
  (∀ nid st,
     erase_visit <$> visit_node id_to_node next_map roles templates fuel nid st
     = visit_node id_to_node next_map roles ∅ fuel nid (erase_visit st)) →
  ∀ acc,
    erase_visit <$>
      foldl (λ acc b, st' ← acc;
               visit_node id_to_node next_map roles templates fuel (g b) st')
            acc l
    = foldl (λ acc b, st' ← acc;
               visit_node id_to_node next_map roles ∅ fuel (g b) st')
            (erase_visit <$> acc) l.
Proof.
  intros Hvisit. induction l as [|b l IH]; intros acc; [done|].
  simpl. rewrite IH. f_equal. destruct acc as [st|]; [apply Hvisit|done].
Qed.

Lemma visit_node_erase (fuel : nat) :
  ∀ nid st,
    erase_visit <$> visit_node id_to_node next_map roles templates fuel nid st
    = visit_node id_to_node next_map roles ∅ fuel nid (erase_visit st).
Proof.
  induction fuel as [|fuel IH]; intros nid st; simpl;
    (destruct (decide (nid ∈ dfs_visited st)); [done|]);
    (destruct (id_to_node !! nid) as [node|]; [|done]); [done|].
  rewrite (visit_fold_erase target_id fuel _ IH). f_equal. simpl.
  unfold erase_visit. simpl.
  by rewrite map_app, <- (build_step_erase _ _ _ templates).
Qed.

End Erase.

Lemma interpret_flowchart_erase (templates : gmap string (list TemplateEntry))
  (nodes : list Node) (edges : list Edge) (roles : gmap string string)
  (traversal_order : list string) (dt : string) :
  (λ doc, map erase_logic (execution_flow doc))
    <$> interpret_flowchart templates nodes edges roles traversal_order dt
  = execution_flow
    <$> interpret_flowchart ∅ nodes edges roles traversal_order dt.
Proof.
  unfold interpret_flowchart, visit_all.
  pose proof (visit_fold_erase (build_id_to_node nodes) (build_next_map edges)
                roles templates (λ x, x) (length nodes) traversal_order
                (visit_node_erase _ _ _ _ _) (Some (mkVisit ∅ []))) as H.
  change (erase_visit <$> Some (mkVisit ∅ [])) with (Some (mkVisit ∅ [])) in H.
  rewrite <- H.
  by destruct (foldl _ (Some (mkVisit ∅ [])) traversal_order) as [st|].
Qed.

(** The role map of the chain is not the one C2 lists. *)
Lemma chain_roles_not_as_claimed :
  chain_roles ≠
  <["n1" := "Start"]> (<["n2" := "Input"]> (<["n3" := "Output"]>
    (<["n4" := "End"]> ∅))).
Proof.
  intros H. apply (f_equal (λ m : gmap string string, m !! "n3")) in H.
  vm_compute in H. discriminate.
Qed.

(** C2, evaluated on the code. On the chain the type is Flowchart and the
    execution flow has the four steps in the order of the chain, each but
    the last with the next id, as the claim says. The role map is not the
    claimed one: the shape tests of the cascade come before the label
    tests, so the rules for End and Output are never reached, the print
    node is an Input and the end node, an ellipse, is a Start. *)
Theorem chain_scenario (templates : gmap string (list TemplateEntry)) :
  classify_diagram_type chain_nodes = "Flowchart"
  ∧ chain_roles =
      <["n1" := "Start"]> (<["n2" := "Input"]> (<["n3" := "Input"]>
        (<["n4" := "Start"]> ∅)))
  ∧ ∃ legacy doc,
      traverse_graph chain_nodes chain_edges
        = Some (["n1"; "n2"; "n3"; "n4"], legacy)
      ∧ interpret_flowchart templates chain_nodes chain_edges chain_roles
          ["n1"; "n2"; "n3"; "n4"] "Flowchart" = Some doc
      ∧ map step_node_id (execution_flow doc) = ["n1"; "n2"; "n3"; "n4"]
      ∧ map step_next_id (execution_flow doc)
          = [Some "n2"; Some "n3"; Some "n4"; None].
Proof.
  split; [by vm_compute|]. split; [by vm_compute|].
  destruct (interpret_flowchart_flow templates chain_nodes chain_edges
              chain_roles ["n1"; "n2"; "n3"; "n4"] "Flowchart")
    as (doc & Hdoc & _).
  exists (legacy_roles chain_nodes), doc.
  split; [by vm_compute|]. split; [done|].
  pose proof (interpret_flowchart_erase templates chain_nodes chain_edges
                chain_roles ["n1"; "n2"; "n3"; "n4"] "Flowchart") as H.
  rewrite Hdoc in H.
  set (flow := execution_flow <$> _) in H. vm_compute in flow. subst flow.
  injection H as H.
  assert (Hid : map step_node_id (execution_flow doc)
                = map step_node_id (map erase_logic (execution_flow doc)))
    by (by rewrite map_map).
  assert (Hnext : map step_next_id (execution_flow doc)
                  = map step_next_id (map erase_logic (execution_flow doc)))
    by (by rewrite map_map).
  by rewrite Hid, Hnext, H.
Qed.


(** ** The traverser's loop ends *)

Lemma count_of_insert (vc : gmap string nat) (x y : string) (c : nat) :
  count_of (<[x := c]> vc) y = if decide (x = y) then c else count_of vc y.
Proof.
  unfold count_of. destruct (decide (x = y)) as [->|Hne].
  - by rewrite lookup_insert_eq.
  - by rewrite lookup_insert_ne.
Qed.

Lemma budget_insert_le (vc : gmap string nat) (edges : list Edge) (x : string) :
  budget (<[x := count_of vc x + 1]> vc) edges ≤ budget vc edges.
Proof.
  unfold budget. induction edges as [|e edges IH]; simpl; [done|].
  rewrite count_of_insert. destruct (decide (x = edge_target e)) as [->|_]; lia.
Qed.

Lemma budget_insert_lt (vc : gmap string nat) (edges : list Edge) (x : string) :
  count_of vc x < 3 → x ∈ map edge_target edges →
  budget (<[x := count_of vc x + 1]> vc) edges < budget vc edges.
Proof.
  intros Hc. unfold budget. induction edges as [|e edges IH]; simpl.
  { by intros ?%elem_of_nil. }
  pose proof (budget_insert_le vc edges x) as Hle. unfold budget in Hle.
  rewrite count_of_insert. intros [->|Hin]%elem_of_cons.
  - rewrite decide_True by done. lia.
  - specialize (IH Hin). destruct (decide (x = edge_target e)) as [->|_]; lia.
Qed.

Lemma neighbours_are_targets (edges : list Edge) (current x : string) :
  x ∈ default [] ((build_adjacency edges).1 !! current) →
  ∃ e, e ∈ edges ∧ edge_source e = current ∧ edge_target e = x.
Proof.
  rewrite build_adjacency_lookup. intros (e & -> & He)%list_elem_of_fmap.
  apply list_elem_of_filter in He as [? ?]. by exists e.
Qed.

Lemma admit_neighbor_budget (edges : list Edge) (st : BfsState) (x : string) :
  x ∈ map edge_target edges →
  length (queue (admit_neighbor st x))
    + budget (visit_count (admit_neighbor st x)) edges
  ≤ length (queue st) + budget (visit_count st) edges.
Proof.
  intros Hx. unfold admit_neighbor.
  destruct (count_of (visit_count st) x <? 3) eqn:E; [|done].
  apply Nat.ltb_lt in E. simpl. rewrite length_app. simpl.
  pose proof (budget_insert_lt _ edges x E Hx). lia.
Qed.

Lemma admit_neighbors_budget (edges : list Edge) (ns : list string) :
  (∀ x, x ∈ ns → x ∈ map edge_target edges) →
  ∀ st,
    length (queue (foldl admit_neighbor st ns))
      + budget (visit_count (foldl admit_neighbor st ns)) edges
    ≤ length (queue st) + budget (visit_count st) edges.
Proof.
  induction ns as [|x ns IH]; intros Hns st; simpl; [done|].
  etrans; [apply IH|apply admit_neighbor_budget].
  - intros y Hy. apply Hns. by right.
  - apply Hns. by left.
Qed.

Lemma bfs_step_budget (edges : list Edge) (current : string)
  (rest : list string) (st : BfsState) :
  let st' := bfs_step (build_adjacency edges).1 current (pop_queue rest st) in
  length (queue st') + budget (visit_count st') edges
  ≤ length rest + budget (visit_count st) edges.
Proof.
  simpl. unfold bfs_step.
  etrans; [apply admit_neighbors_budget|].
  - intros x (e & He & _ & <-)%neighbours_are_targets.
    by apply list_elem_of_fmap_2.
  - unfold mark. by destruct (decide _).
Qed.

(** With fuel for the queue and the budget, the loop runs to the end. *)
Lemma bfs_loop_terminates (edges : list Edge) (fuel : nat) :
  ∀ st, length (queue st) + budget (visit_count st) edges ≤ fuel →
    ∃ st', bfs_loop fuel (build_adjacency edges).1 st = Some st'
           ∧ queue st' = [].
Proof.
  induction fuel as [|fuel IH]; intros st Hfuel.
  - destruct st as [v o [|x q] vc]; simpl in *; [by eauto|lia].
  - destruct st as [v o [|x q] vc]; simpl in *; [by eauto|].
    apply IH.
    pose proof (bfs_step_budget edges x q (mkBfs v o (x :: q) vc)) as H.
    simpl in H. unfold pop_queue in *. simpl in *. lia.
Qed.

Lemma budget_empty (edges : list Edge) : budget ∅ edges = 3 * length edges.
Proof.
  unfold budget. induction edges as [|e edges IH]; simpl; [done|].
  unfold count_of at 1. rewrite lookup_empty. simpl. lia.
Qed.

Lemma run_bfs_terminates (edges : list Edge) (start_node : string) :
  ∃ st, run_bfs edges start_node = Some st ∧ queue st = [].
Proof.
  apply bfs_loop_terminates. unfold bfs_init, bfs_fuel. simpl.
  rewrite budget_empty. lia.
Qed.

(** More fuel does not change what the loop returns. *)
Lemma bfs_loop_more_fuel (adj : gmap string (list string)) (fuel k : nat) :
  ∀ st st', bfs_loop fuel adj st = Some st' →
    bfs_loop (fuel + k) adj st = Some st'.
Proof.
  induction fuel as [|fuel IH]; intros st st'.
  - simpl. destruct (queue st) eqn:E; [|done]. intros [= <-].
    destruct k; simpl; by rewrite E.
  - simpl. destruct (queue st); [done|]. apply IH.
Qed.

(** A property of the state that every iteration keeps holds when the
    loop ends. *)
Lemma bfs_loop_invariant (P : BfsState → Prop)
  (adj : gmap string (list string)) :
  (∀ current rest st, queue st = current :: rest → P st →
     P (bfs_step adj current (pop_queue rest st))) →
  ∀ fuel st st', P st → bfs_loop fuel adj st = Some st' → P st'.
Proof.
  intros Hstep. induction fuel as [|fuel IH]; intros st st' HP; simpl.
  - destruct (queue st); [by intros [= <-]|done].
  - destruct (queue st) as [|x q] eqn:E; [by intros [= <-]|].
    apply IH. by apply Hstep.
Qed.

Lemma admit_neighbor_count (st : BfsState) (x : string) :
  (∀ y, count_of (visit_count st) y ≤ 3) →
  ∀ y, count_of (visit_count (admit_neighbor st x)) y ≤ 3.
Proof.
  intros H y. unfold admit_neighbor.
  destruct (count_of (visit_count st) x <? 3) eqn:E; [|done].
  apply Nat.ltb_lt in E. simpl. rewrite count_of_insert.
  destruct (decide (x = y)); [lia|done].
Qed.

Lemma bfs_step_count (adj : gmap string (list string)) (current : string)
  (rest : list string) (st : BfsState) :
  (∀ y, count_of (visit_count st) y ≤ 3) →
  ∀ y, count_of (visit_count (bfs_step adj current (pop_queue rest st))) y ≤ 3.
Proof.
  intros H. unfold bfs_step.
  assert (H0 : ∀ y, count_of (visit_count (mark current (pop_queue rest st))) y
                    ≤ 3).
  { unfold mark. by destruct (decide _). }
  revert H0. generalize (mark current (pop_queue rest st)).
  induction (default [] (adj !! current)) as [|x ns IH]; intros st0 H0;
    simpl; [done|].
  by apply IH, admit_neighbor_count.
Qed.

(** C8. The loop of [traverse_graph] ends on every graph, with any fuel from
    [bfs_fuel] up, no id is ever admitted to the queue by the loop more than
    three times, and [traverse_graph] returns; on the cycle of A and B the
    loop ends after seven iterations (the start node A, three admissions
    of B and three of A), with both visited and each counter at three. *)
Theorem traverse_graph_terminates (nodes : list Node) (edges : list Edge) :
  (∃ r, traverse_graph nodes edges = Some r)
  ∧ (∀ start_node, ∃ st,
       (∀ k, bfs_loop (bfs_fuel edges + k) (build_adjacency edges).1
               (bfs_init start_node) = Some st)
       ∧ queue st = []
       ∧ ∀ x, count_of (visit_count st) x ≤ 3)
  ∧ (∃ st, run_bfs cycle_edges "A" = Some st
           ∧ bfs_loop 6 (build_adjacency cycle_edges).1 (bfs_init "A") = None
           ∧ bfs_loop 7 (build_adjacency cycle_edges).1 (bfs_init "A") = Some st
           ∧ order st = ["A"; "B"]
           ∧ count_of (visit_count st) "A" = 3
           ∧ count_of (visit_count st) "B" = 3
           ∧ traverse_graph cycle_nodes cycle_edges
             = Some (["A"; "B"], legacy_roles cycle_nodes)).
Proof.
  split; [|split].
  - unfold traverse_graph. destruct (find_start_node nodes) as [s|]; [|by eauto].
    destruct (String.eqb s ""); [by eauto|].
    destruct (run_bfs_terminates edges s) as (st & -> & _). by eauto.
  - intros s. destruct (run_bfs_terminates edges s) as (st & Hst & Hq).
    exists st. split; [|split; [done|]].
    + intros k. by apply bfs_loop_more_fuel.
    + revert Hst.
      apply (bfs_loop_invariant (λ st, ∀ y, count_of (visit_count st) y ≤ 3)).
      * intros c r st0 _ H. by apply bfs_step_count.
      * intros y. unfold count_of. simpl. rewrite lookup_empty. simpl. lia.
  - eexists. by vm_compute.
Qed.

(** ** The traverser visits in breadth-first order *)

Lemma sorted_lookup_le (l : list nat) (i j a b : nat) :
  StronglySorted le l → i ≤ j → l !! i = Some a → l !! j = Some b → a ≤ b.
Proof.
  intros Hs. revert i j. induction Hs as [|x l Hs IH Hx]; intros i j Hij.
  { by rewrite lookup_nil. }
  destruct i as [|i], j as [|j]; simpl; try lia.
  - by intros [= <-] [= <-].
  - intros [= <-] Hb. rewrite Forall_forall in Hx. apply Hx.
    by eapply list_elem_of_lookup_2.
  - apply IH. lia.
Qed.

Lemma nodup_fst_unique (og : list (string * nat)) (x : string) (l l' : nat) :
  NoDup og.*1 → (x, l) ∈ og → (x, l') ∈ og → l = l'.
Proof.
  induction og as [|[y k] og IH]; [by intros _ ?%elem_of_nil|].
  rewrite fmap_cons, NoDup_cons. simpl. intros [Hy Hnd].
  intros [E1|H1]%elem_of_cons [E2|H2]%elem_of_cons.
  - congruence.
  - inversion E1; subst. destruct Hy. by apply (list_elem_of_fmap_2' fst _ (y, l')).
  - inversion E2; subst. destruct Hy. by apply (list_elem_of_fmap_2' fst _ (y, l)).
  - by apply IH.
Qed.

Lemma elem_of_fst (og : list (string * nat)) (x : string) :
  x ∈ og.*1 → ∃ l, (x, l) ∈ og.
Proof. intros ([y l] & -> & H)%list_elem_of_fmap. by exists l. Qed.

Lemma elem_of_snd (og : list (string * nat)) (l : nat) :
  l ∈ og.*2 → ∃ x, (x, l) ∈ og.
Proof. intros ([y k] & -> & H)%list_elem_of_fmap. by exists y. Qed.

Section Bfs.

Variable edges : list Edge.
Variable s : string.

Local Abbreviation adj := (build_adjacency edges).1.

Lemma bfs_ghost_init : bfs_inv edges s (bfs_init s).
Proof.
  exists 0, [], [(s, 0)]. split.
  - unfold bfs_ghost, bfs_init. simpl.
    split; [done|]. split; [done|]. split; [done|]. split; [constructor|].
    split. { intros x l [= -> ->]%list_elem_of_singleton. constructor. }
    split; [constructor|]. split; [repeat constructor|].
    split; [by intros x l ?%elem_of_nil|].
    split. { intros x l [= _ <-]%list_elem_of_singleton. lia. }
    split. { intros v. unfold count_of. rewrite lookup_empty. simpl. lia. }
    constructor.
  - by intros u lu e ?%elem_of_nil.
Qed.

Lemma ghost_admit (cur : nat) (og qg : list (string * nat)) (st : BfsState)
  (v : string) :
  bfs_ghost edges s cur og qg st → path_len edges s (cur + 1) v →
  ∃ qg', bfs_ghost edges s cur og qg' (admit_neighbor st v)
         ∧ (∃ added, qg' = qg ++ added)
         ∧ ∃ lv, lv ≤ cur + 1 ∧ (v, lv) ∈ og ++ qg'.
Proof.
  intros (Hq & Ho & Hv & Hnd & Hsound & Hso & Hsq & Hbo & Hbq & Hcnt & Hs) Hp.
  unfold admit_neighbor.
  destruct (count_of (visit_count st) v <? 3) eqn:E.
  - exists (qg ++ [(v, cur + 1)]). split; [|split].
    + unfold bfs_ghost. simpl. rewrite !fmap_app, Hq. simpl.
      split; [done|]. split; [done|]. split; [done|]. split; [done|].
      split; [|split; [done|split; [|split; [done|split; [|split]]]]].
      * intros x l. rewrite !elem_of_app, list_elem_of_singleton.
        intros [H|[H|[= -> ->]]]; [| |done]; apply Hsound, elem_of_app;
          [by left|by right].
      * apply StronglySorted_app_2; [|done|repeat constructor].
        intros l1 l2 (x & Hx)%elem_of_snd ->%list_elem_of_singleton.
        destruct (Hbq x l1 Hx). lia.
      * intros x l [H|[= -> ->]%list_elem_of_singleton]%elem_of_app;
          [by apply (Hbq x)|lia].
      * intros y. rewrite count_of_insert.
        destruct (decide (v = y)) as [<-|_].
        -- intros _. right. apply elem_of_app. right. constructor.
        -- intros [?|?]%Hcnt; [by left|]. right. apply elem_of_app. left.
           by rewrite <- Hq.
      * apply elem_of_app in Hs. rewrite !elem_of_app. tauto.
    + by eexists.
    + exists (cur + 1). split; [done|].
      rewrite !elem_of_app, list_elem_of_singleton. tauto.
  - apply Nat.ltb_ge in E. exists qg. split; [done|]. split.
    { exists []. by rewrite app_nil_r. }
    destruct (Hcnt v ltac:(lia)) as [H|H].
    + rewrite Ho in H. apply elem_of_fst in H as [l Hl].
      exists l. split; [pose proof (Hbo v l Hl); lia|].
      apply elem_of_app. by left.
    + rewrite Hq in H. apply elem_of_fst in H as [l Hl].
      exists l. split; [destruct (Hbq v l Hl); lia|].
      apply elem_of_app. by right.
Qed.

Lemma ghost_admit_fold (cur : nat) (og : list (string * nat))
  (ns : list string) :
  (∀ v, v ∈ ns → path_len edges s (cur + 1) v) →
  ∀ qg st, bfs_ghost edges s cur og qg st →
    ∃ qg', bfs_ghost edges s cur og qg' (foldl admit_neighbor st ns)
           ∧ (∃ added, qg' = qg ++ added)
           ∧ ∀ v, v ∈ ns → ∃ lv, lv ≤ cur + 1 ∧ (v, lv) ∈ og ++ qg'.
Proof.
  induction ns as [|v ns IH]; intros Hns qg st Hg; simpl.
  { exists qg. split; [done|]. split; [|by intros ? ?%elem_of_nil].
    exists []. by rewrite app_nil_r. }
  destruct (ghost_admit cur og qg st v Hg) as (qg1 & Hg1 & [a1 ->] & lv & Hlv & Hin).
  { apply Hns. by left. }
  destruct (IH (λ y Hy, Hns y (list_elem_of_further _ _ _ Hy)) _ _ Hg1)
    as (qg2 & Hg2 & [a2 ->] & Hall).
  exists ((qg ++ a1) ++ a2). split; [done|]. split.
  { exists (a1 ++ a2). by rewrite (assoc_L (++)). }
  intros y [->|Hy]%elem_of_cons; [|by apply Hall].
  exists lv. split; [done|].
  rewrite !elem_of_app in Hin. rewrite !elem_of_app. tauto.
Qed.

Lemma ghost_pop_mark (cur lc : nat) (og qg : list (string * nat))
  (st : BfsState) (x : string) :
  bfs_ghost edges s cur og ((x, lc) :: qg) st →
  ∃ og', bfs_ghost edges s lc og' qg (mark x (pop_queue qg.*1 st))
         ∧ (∃ l0, l0 ≤ lc ∧ (x, l0) ∈ og')
         ∧ (∀ p, p ∈ og → p ∈ og')
         ∧ (∀ p, p ∈ og' → p ∈ og ∨ p = (x, lc)).
Proof.
  intros (Hq & Ho & Hv & Hnd & Hsound & Hso & Hsq & Hbo & Hbq & Hcnt & Hs).
  rewrite fmap_cons in Hq. rewrite fmap_cons in Hsq. simpl in Hq, Hsq.
  apply StronglySorted_cons in Hsq as [Hhd Hsq]. rewrite Forall_forall in Hhd.
  destruct (Hbq x lc ltac:(by left)) as [Hlo Hhi].
  assert (Hqb : ∀ y l, (y, l) ∈ qg → lc ≤ l ≤ lc + 1).
  { intros y l Hy. split.
    - apply Hhd. by apply (list_elem_of_fmap_2' snd _ (y, l)).
    - destruct (Hbq y l ltac:(by right)). lia. }
  unfold mark, pop_queue. simpl.
  destruct (decide (x ∈ visited st)) as [Hin|Hin].
  - exists og.
    assert (Hx : ∃ l0, l0 ≤ cur ∧ (x, l0) ∈ og).
    { rewrite Hv, elem_of_list_to_set, Ho in Hin.
      apply elem_of_fst in Hin as [l0 Hl0]. exists l0. split; [|done].
      by apply (Hbo x). }
    split; [|split; [|split; [done|by left]]].
    + unfold bfs_ghost. simpl.
      split; [done|]. split; [done|]. split; [done|]. split; [done|].
      split; [|split; [done|split; [done|split; [|split; [done|split]]]]].
      * intros y l [H|H]%elem_of_app; apply Hsound, elem_of_app;
          [by left|by right; right].
      * intros y l Hy. pose proof (Hbo y l Hy). lia.
      * intros y [H|H]%Hcnt; [by left|]. rewrite Hq in H.
        apply elem_of_cons in H as [->|H]; [|by right].
        left. by rewrite Hv, elem_of_list_to_set in Hin.
      * apply elem_of_app in Hs as [H|[E|H]%elem_of_cons];
          apply elem_of_app; [by left| |by right].
        inversion E; subst. destruct Hx as (l0 & Hl0 & Hx).
        left. by replace 0 with l0 by lia.
    + destruct Hx as (l0 & ? & ?). exists l0. split; [lia|done].
  - exists (og ++ [(x, lc)]).
    assert (Hnx : x ∉ order st) by (by rewrite Hv, elem_of_list_to_set in Hin).
    split; [|split; [|split]].
    + unfold bfs_ghost. simpl. rewrite !fmap_app, Ho. simpl.
      split; [done|]. split; [done|].
      split; [|split; [|split; [|split; [|split; [done|split; [|split; [done|split]]]]]]].
      * rewrite Hv, list_to_set_app_L, Ho. set_solver.
      * apply NoDup_app. rewrite <- Ho. split; [done|].
        split; [|apply NoDup_singleton].
        intros y Hy ->%list_elem_of_singleton. done.
      * intros y l. rewrite <- (assoc_L (++)). simpl. apply Hsound.
      * apply StronglySorted_app_2; [|done|repeat constructor].
        intros l1 l2 (y & Hy)%elem_of_snd ->%list_elem_of_singleton.
        pose proof (Hbo y l1 Hy). lia.
      * intros y l [H|[= -> ->]%list_elem_of_singleton]%elem_of_app;
          [|done]. pose proof (Hbo y l H). lia.
      * rewrite <- Ho. intros y [H|H]%Hcnt.
        { left. apply elem_of_app. by left. }
        rewrite Hq in H. apply elem_of_cons in H as [->|H]; [|by right].
        left. apply elem_of_app. right. constructor.
      * by rewrite <- (assoc_L (++)).
    + exists lc. split; [done|]. apply elem_of_app. right. constructor.
    + intros p Hp. apply elem_of_app. by left.
    + intros p [?|H]%elem_of_app; [by left|].
      apply list_elem_of_singleton in H. by right.
Qed.

(** One iteration of the loop keeps the invariant. *)
Lemma bfs_inv_step (current : string) (rest : list string) (st : BfsState) :
  queue st = current :: rest → bfs_inv edges s st →
  bfs_inv edges s (bfs_step adj current (pop_queue rest st)).
Proof.
  intros Hqueue (cur & og & qg & Hg & Hclosed).
  assert (∃ lc qg', qg = (current, lc) :: qg' ∧ rest = qg'.*1)
    as (lc & qg' & -> & ->).
  { destruct Hg as (Hq & _). rewrite Hqueue in Hq.
    destruct qg as [|[y lc] qg']; [done|]. rewrite fmap_cons in Hq.
    injection Hq as -> ->. by exists lc, qg'. }
  assert (Hcur : path_len edges s lc current).
  { destruct Hg as (_ & _ & _ & _ & Hsound & _).
    apply Hsound, elem_of_app. right. by left. }
  destruct (ghost_pop_mark cur lc og qg' st current Hg)
    as (og' & Hg1 & (l0 & Hl0 & Hx) & Hsub & Hnew).
  unfold bfs_step.
  destruct (ghost_admit_fold lc og' (default [] (adj !! current))) with
    (qg := qg') (st := mark current (pop_queue qg'.*1 st))
    as (qg'' & Hg2 & [added ->] & Hall); [|done|].
  { intros v (e & He & <- & <-)%neighbours_are_targets.
    rewrite Nat.add_1_r. by eapply path_step. }
  exists lc, og', (qg' ++ added). split; [done|].
  intros u lu e Hu He Hsrc.
  destruct (Hnew _ Hu) as [Hold|[= -> ->]].
  - destruct (Hclosed u lu e Hold He Hsrc) as (lv & Hlv & Hin).
    apply elem_of_app in Hin as [Hin|[E|Hin]%elem_of_cons].
    + exists lv. split; [done|]. apply elem_of_app. left. by apply Hsub.
    + inversion E; subst. exists l0. split; [lia|]. apply elem_of_app. by left.
    + exists lv. split; [done|]. rewrite !elem_of_app. tauto.
  - apply Hall. rewrite build_adjacency_lookup.
    apply list_elem_of_fmap_2, list_elem_of_filter. done.
Qed.

(** What the invariant says once the queue is empty. *)
Lemma bfs_inv_final (st : BfsState) :
  bfs_inv edges s st → queue st = [] →
  ∃ og, order st = og.*1 ∧ NoDup og.*1 ∧ StronglySorted le og.*2
        ∧ (∀ x l, (x, l) ∈ og → distance edges s x l)
        ∧ (∀ x, reachable edges s x → x ∈ order st).
Proof.
  intros (cur & og & qg & Hg & Hclosed) Hqueue.
  destruct Hg as (Hq & Ho & _ & Hnd & Hsound & Hso & _ & _ & _ & _ & Hs).
  rewrite Hqueue in Hq. destruct qg; [|done]. clear Hq.
  rewrite app_nil_r in Hclosed, Hsound, Hs. rewrite Ho in Hnd.
  assert (Hlev : ∀ n x, path_len edges s n x → ∃ l, l ≤ n ∧ (x, l) ∈ og).
  { induction 1 as [|n x e _ (l & Hl & Hin) He Hsrc].
    - by exists 0.
    - destruct (Hclosed x l e Hin He Hsrc) as (lv & Hlv & Hv).
      exists lv. split; [lia|done]. }
  exists og. split; [done|]. split; [done|]. split; [done|]. split.
  - intros x l Hx. split; [by apply Hsound|].
    intros n (l' & Hl' & Hx')%Hlev.
    by rewrite (nodup_fst_unique og x l l' Hnd Hx Hx').
  - intros x [n (l & _ & Hx)%Hlev]. rewrite Ho.
    by apply (list_elem_of_fmap_2' fst _ (x, l)).
Qed.

Lemma distance_unique (x : string) (d d' : nat) :
  distance edges s x d → distance edges s x d' → d = d'.
Proof. intros [H1 H2] [H3 H4]. apply H2 in H3. apply H4 in H1. lia. Qed.

Lemma path_len_zero (x : string) : path_len edges s 0 x → x = s.
Proof. by inversion 1. Qed.

(** The order the loop ends with: the ids reachable from the start node,
    each once, the start node first, by increasing distance. *)
Lemma run_bfs_order :
  ∃ st, run_bfs edges s = Some st
    ∧ NoDup (order st)
    ∧ (∀ x, x ∈ order st ↔ reachable edges s x)
    ∧ head (order st) = Some s
    ∧ (∀ i j x y dx dy, i ≤ j →
         order st !! i = Some x → order st !! j = Some y →
         distance edges s x dx → distance edges s y dy → dx ≤ dy).
Proof.
  destruct (run_bfs_terminates edges s) as (st & Hst & Hqueue).
  exists st. split; [done|].
  assert (Hinv : bfs_inv edges s st).
  { revert Hst. apply (bfs_loop_invariant (bfs_inv edges s)).
    - intros c r st0 Hq H. by apply bfs_inv_step.
    - apply bfs_ghost_init. }
  destruct (bfs_inv_final st Hinv Hqueue) as (og & Ho & Hnd & Hso & Hdist & Hall).
  assert (Hlk : ∀ i x, order st !! i = Some x →
                  ∃ l, og !! i = Some (x, l) ∧ og.*2 !! i = Some l).
  { intros i x. rewrite Ho, !list_lookup_fmap.
    destruct (og !! i) as [[y l]|]; [|done]. intros [= <-]. by exists l. }
  split; [by rewrite Ho|]. split; [|split].
  - intros x. split; [|by apply Hall].
    rewrite Ho. intros (l & Hl)%elem_of_fst.
    destruct (Hdist x l Hl) as [Hp _]. by exists l.
  - assert (Hs : s ∈ order st) by (apply Hall; exists 0; constructor).
    apply list_elem_of_lookup in Hs as [j Hj].
    destruct (order st) as [|y o] eqn:Eo; [by rewrite lookup_nil in Hj|].
    rewrite <- Eo in *.
    destruct (Hlk 0 y ltac:(by rewrite Eo)) as (ly & Hy & Hy2).
    destruct (Hlk j s Hj) as (ls & Hs1 & Hs2).
    pose proof (sorted_lookup_le _ 0 j ly ls Hso ltac:(lia) Hy2 Hs2) as Hle.
    apply list_elem_of_lookup_2, Hdist in Hy as [Hpy _].
    apply list_elem_of_lookup_2, Hdist in Hs1 as Hds.
    assert (ls = 0) as ->.
    { apply (distance_unique s); [done|]. split; [constructor|lia]. }
    assert (ly = 0) as -> by lia.
    rewrite Eo. simpl. f_equal. by apply path_len_zero.
  - intros i j x y dx dy Hij Hx Hy Hdx Hdy.
    destruct (Hlk i x Hx) as (lx & Hx1 & Hx2).
    destruct (Hlk j y Hy) as (ly & Hy1 & Hy2).
    apply list_elem_of_lookup_2, Hdist in Hx1, Hy1.
    rewrite (distance_unique x dx lx Hdx Hx1).
    rewrite (distance_unique y dy ly Hdy Hy1).
    by eapply (sorted_lookup_le og.*2 i j).
Qed.

End Bfs.

(** ** The traversal order *)

Lemma find_start_node_in (nodes : list Node) (s : string) :
  find_start_node nodes = Some s → s ∈ node_ids nodes.
Proof.
  unfold find_start_node, node_ids.
  destruct (List.find is_start_like nodes) as [n|] eqn:E.
  - intros [= <-]. apply find_some in E as [Hn _].
    apply list_elem_of_fmap_2. by apply list_elem_of_In.
  - destruct nodes as [|n nodes]; [done|]. simpl. intros [= <-]. by left.
Qed.

Lemma reachable_in_ids (nodes : list Node) (edges : list Edge) (s x : string) :
  Forall (λ e, edge_target e ∈ node_ids nodes) edges →
  s ∈ node_ids nodes → reachable edges s x → x ∈ node_ids nodes.
Proof.
  intros Ht Hs [n Hp]. destruct Hp as [|n x e _ He _]; [done|].
  rewrite Forall_forall in Ht. by apply Ht.
Qed.

(** The claim of C1 fails on an edge whose target has no node: the target is
    in the order all the same. *)
Lemma dangling_target_in_order :
  ∃ order roles,
    traverse_graph dangling_nodes dangling_edges = Some (order, roles)
    ∧ order = ["A"; "X"]
    ∧ length order ≠ length dangling_nodes.
Proof. eexists _, _. split; [by vm_compute|]. by split. Qed.

(** Two nodes with one id get one place in the order, and a start node
    whose id is the empty string is taken for no start node at all. *)
Lemma duplicate_id_shortens_order :
  ∃ roles,
    traverse_graph [plain_node "A" "" ""; plain_node "A" "" ""] []
    = Some (["A"], roles).
Proof. eexists. by vm_compute. Qed.

Lemma empty_start_id_empties_order :
  traverse_graph [plain_node "" "" ""; plain_node "B" "" ""]
    [plain_edge "" "B"] = Some ([], ∅).
Proof. by vm_compute. Qed.

(** C1, amended. When the ids of the nodes are distinct, every edge leads
    to the id of a node and the start node's id is not the empty string,
    [traverse_graph] returns an order as long as the node list, a
    permutation of the node ids: first the ids reachable from the start
    node, the start node at the head and the others by increasing
    distance from it, then the ids that are not reachable. *)
Theorem traverse_graph_permutation (nodes : list Node) (edges : list Edge) :
  NoDup (node_ids nodes) →
  Forall (λ e, edge_target e ∈ node_ids nodes) edges →
  find_start_node nodes ≠ Some "" →
  ∃ order roles,
    traverse_graph nodes edges = Some (order, roles)
    ∧ length order = length nodes
    ∧ order ≡ₚ node_ids nodes
    ∧ ∀ s, find_start_node nodes = Some s →
        ∃ reached rest,
          order = reached ++ rest
          ∧ head reached = Some s
          ∧ (∀ x, x ∈ reached ↔ reachable edges s x)
          ∧ (∀ x, x ∈ rest ↔ x ∈ node_ids nodes ∧ ¬ reachable edges s x)
          ∧ (∀ i j x y dx dy, i ≤ j →
               reached !! i = Some x → reached !! j = Some y →
               distance edges s x dx → distance edges s y dy → dx ≤ dy).
Proof.
  intros Hnd Htargets Hstart. unfold traverse_graph.
  destruct (find_start_node nodes) as [s|] eqn:Es.
  2:{ exists [], ∅. destruct nodes as [|n nodes].
      - by repeat split.
      - unfold find_start_node in Es. simpl in Es. by destruct (is_start_like n),
          (List.find is_start_like nodes). }
  destruct (String.eqb s "") eqn:E.
  { apply String.eqb_eq in E as ->. done. }
  destruct (run_bfs_order edges s) as (st & -> & Hndo & Hreach & Hhead & Hdist).
  simpl. eexists _, _. split; [done|].
  assert (Hunreach : ∀ x, x ∈ unreachable_ids nodes (order st)
                          ↔ x ∈ node_ids nodes ∧ ¬ reachable edges s x).
  { intros x. unfold unreachable_ids.
    rewrite elem_of_elements, elem_of_difference, !elem_of_list_to_set.
    by rewrite Hreach. }
  assert (Hperm : order st ++ unreachable_ids nodes (order st) ≡ₚ node_ids nodes).
  { apply NoDup_Permutation; [|done|].
    - apply NoDup_app. split; [done|]. split; [|apply NoDup_elements].
      intros x Hx [_ Hn]%Hunreach. by apply Hn, Hreach.
    - intros x. rewrite elem_of_app, Hunreach, Hreach. split.
      + intros [Hr|[? _]]; [|done].
        eapply reachable_in_ids; [done| |done]. by apply find_start_node_in.
      + intros Hx. destruct (decide (x ∈ order st)) as [Hin|Hin].
        * left. by apply Hreach.
        * right. split; [done|]. by rewrite <- Hreach. }
  split; [|split; [done|]].
  - apply Permutation_length in Hperm. unfold node_ids in Hperm.
    by rewrite length_map in Hperm.
  - intros s' [= <-]. by exists (order st), (unreachable_ids nodes (order st)).
Qed.

Lemma traverse_graph_permutation_witness :
  ∃ order roles,
    traverse_graph chain_nodes chain_edges = Some (order, roles)
    ∧ length order = 4.
Proof.
  destruct (traverse_graph_permutation chain_nodes chain_edges)
    as (order & roles & H & Hlen & _).
  - apply (bool_decide_unpack _). vm_compute. exact I.
  - apply (bool_decide_unpack _). vm_compute. exact I.
  - apply (bool_decide_unpack _). vm_compute. exact I.
  - exists order, roles. split; [exact H|exact Hlen].
Defined.

(** * Further properties of the code *)

(** ** The start node and the adjacency tables *)

Lemma find_start_node_first (pre post : list Node) (n : Node) :
  Forall (λ m, is_start_like m = false) pre → is_start_like n = true →
  find_start_node (pre ++ n :: post) = Some (node_id n).
Proof.
  intros Hpre Hn. unfold find_start_node.
  assert (List.find is_start_like (pre ++ n :: post) = Some n) as ->; [|done].
  induction Hpre as [|m pre Hm _ IH]; simpl; [by rewrite Hn|by rewrite Hm].
Qed.

Lemma find_start_node_none_like (nodes : list Node) :
  Forall (λ m, is_start_like m = false) nodes →
  find_start_node nodes = node_id <$> head nodes.
Proof.
  intros H. unfold find_start_node.
  assert (List.find is_start_like nodes = None) as ->; [|done].
  induction H as [|m l Hm _ IH]; simpl; [done|by rewrite Hm].
Qed.

(** X1. [find_start_node] returns [None] for the empty list only; what it
    returns is the id of a node of the list: of the first node that has
    ["start"] in its label or one of the three start shapes, and of the
    first node of the list when no node is like that. *)
Theorem find_start_node_spec (nodes : list Node) :
  (find_start_node nodes = None ↔ nodes = [])
  ∧ (∀ s, find_start_node nodes = Some s → s ∈ node_ids nodes)
  ∧ (∀ pre n post, nodes = pre ++ n :: post →
       Forall (λ m, is_start_like m = false) pre → is_start_like n = true →
       find_start_node nodes = Some (node_id n))
  ∧ (Forall (λ m, is_start_like m = false) nodes →
     find_start_node nodes = node_id <$> head nodes).
Proof.
  split; [|split; [|split]].
  - split; [|by intros ->]. unfold find_start_node.
    destruct (List.find is_start_like nodes); [done|].
    by destruct nodes.
  - apply find_start_node_in.
  - intros pre n post ->. apply find_start_node_first.
  - apply find_start_node_none_like.
Qed.

Lemma find_start_node_spec_witness :
  find_start_node
    [plain_node "a" "Read x" "parallelogram"; plain_node "b" "START" "";
     plain_node "c" "Begin" "ellipse"] = Some "b".
Proof.
  refine (proj1 (proj2 (proj2 (find_start_node_spec _)))
            [plain_node "a" "Read x" "parallelogram"]
            (plain_node "b" "START" "") [plain_node "c" "Begin" "ellipse"]
            eq_refl _ _).
  - repeat constructor.
  - reflexivity.
Defined.

Lemma foldl_insert_last {A K V : Type} `{Countable K} (key : A → K)
  (val : A → V) (l : list A) (m : gmap K V) (k : K) :
  foldl (λ m a, <[key a := val a]> m) m l !! k
  = match last (filter (λ a, key a = k) l) with
    | Some a => Some (val a)
    | None => m !! k
    end.
Proof.
  induction l as [|a l IH] using rev_ind; [done|].
  rewrite foldl_app, filter_app. simpl. rewrite filter_cons, filter_nil.
  destruct (decide (key a = k)) as [<-|Hne].
  - by rewrite lookup_insert_eq, last_snoc.
  - by rewrite lookup_insert_ne, app_nil_r.
Qed.

Lemma build_adjacency_lookup_None (edges : list Edge) (s : string) :
  (build_adjacency edges).1 !! s = None ↔ outgoing edges s = [].
Proof.
  unfold build_adjacency. simpl.
  induction edges as [|e edges IH] using rev_ind; [done|].
  rewrite foldl_app, outgoing_snoc. simpl. unfold adj_append at 1.
  destruct (decide (edge_source e = s)) as [->|Hne].
  - rewrite lookup_insert_eq. split; [done|].
    by intros [_ ?]%app_eq_nil.
  - by rewrite lookup_insert_ne, app_nil_r.
Qed.

(** X2. [build_adjacency] keeps under each source the targets of its edges,
    in the order of the edge list and with repetitions; a source without
    edges has no entry; and the label table keeps, for a pair of ids, the
    stripped and lowercased label of the last edge between them. *)
Theorem build_adjacency_spec (edges : list Edge) (s t : string) :
  default [] ((build_adjacency edges).1 !! s)
    = map edge_target (outgoing edges s)
  ∧ ((build_adjacency edges).1 !! s = None ↔ outgoing edges s = [])
  ∧ (build_adjacency edges).2 !! (s, t)
    = (λ e, Py.lower (Py.strip (edge_label e)))
        <$> last (filter (λ e, (edge_source e, edge_target e) = (s, t)) edges).
Proof.
  split; [apply build_adjacency_lookup|]. split.
  - apply build_adjacency_lookup_None.
  - unfold build_adjacency. simpl.
    rewrite (foldl_insert_last (λ e, (edge_source e, edge_target e))
               (λ e, Py.lower (Py.strip (edge_label e)))).
    rewrite lookup_empty. by destruct (last _).
Qed.

(** ** The traversal order on any graph *)

Lemma legacy_roles_lookup (nodes : list Node) (i : string) :
  legacy_roles nodes !! i
  = if decide (i ∈ node_ids nodes) then Some "Unknown" else None.
Proof.
  unfold legacy_roles.
  rewrite (foldl_insert_last node_id (λ _, "Unknown")), lookup_empty.
  destruct (decide (i ∈ node_ids nodes)) as [Hin|Hin].
  - destruct (last _) eqn:E; [done|]. apply last_None in E.
    apply list_elem_of_fmap in Hin as (n & -> & Hn).
    assert (n ∈ filter (λ a, node_id a = node_id n) nodes)
      by (by apply list_elem_of_filter).
    rewrite E in *. by apply elem_of_nil in H.
  - destruct (last _) as [n|] eqn:E; [|done].
    apply last_Some_elem_of, list_elem_of_filter in E as [<- Hn].
    destruct Hin. by apply list_elem_of_fmap_2.
Qed.

Lemma elem_of_unreachable_ids (nodes : list Node) (order : list string)
  (x : string) :
  x ∈ unreachable_ids nodes order ↔ x ∈ node_ids nodes ∧ x ∉ order.
Proof.
  unfold unreachable_ids, node_ids.
  by rewrite elem_of_elements, elem_of_difference, !elem_of_list_to_set.
Qed.

(** X3. Whatever the nodes and edges, when the start node's id is not the
    empty string the order [traverse_graph] returns has no id twice, starts
    with the start node and holds exactly the ids of the nodes and the ids
    reachable from the start node along the edges. *)
Theorem traverse_graph_order (nodes : list Node) (edges : list Edge)
  (s : string) :
  find_start_node nodes = Some s → s ≠ "" →
  ∃ order roles,
    traverse_graph nodes edges = Some (order, roles)
    ∧ NoDup order
    ∧ head order = Some s
    ∧ ∀ x, x ∈ order ↔ x ∈ node_ids nodes ∨ reachable edges s x.
Proof.
  intros Hs Hne. unfold traverse_graph. rewrite Hs.
  apply String.eqb_neq in Hne as ->.
  destruct (run_bfs_order edges s) as (st & -> & Hnd & Hreach & Hhead & _).
  simpl. eexists _, _. split; [done|].
  pose proof (elem_of_unreachable_ids nodes (order st)) as Hun.
  split; [|split].
  - apply NoDup_app. split; [done|]. split; [|apply NoDup_elements].
    intros x Hx [_ Hn]%Hun. done.
  - destruct (order st); [done|]. done.
  - intros x. rewrite elem_of_app, Hun, <- Hreach.
    destruct (decide (x ∈ order st)); tauto.
Qed.

Lemma traverse_graph_order_witness :
  ∃ order roles,
    traverse_graph dangling_nodes dangling_edges = Some (order, roles)
    ∧ NoDup order.
Proof.
  destruct (traverse_graph_order dangling_nodes dangling_edges "A")
    as (order & roles & H & Hnd & _).
  - reflexivity.
  - discriminate.
  - exists order, roles. split; [exact H|exact Hnd].
Defined.

(** X4. The role map [traverse_graph] returns beside the order: empty,
    with the empty order, when there is no node or the start node's id is
    the empty string; otherwise the order is not empty and the map sends
    every node id, and nothing else, to "Unknown". *)
Theorem traverse_graph_legacy_roles (nodes : list Node) (edges : list Edge) :
  (find_start_node nodes = None ∨ find_start_node nodes = Some "" →
   traverse_graph nodes edges = Some ([], ∅))
  ∧ (∀ s, find_start_node nodes = Some s → s ≠ "" →
       ∃ order roles,
         traverse_graph nodes edges = Some (order, roles)
         ∧ order ≠ []
         ∧ ∀ i, roles !! i
                = if decide (i ∈ node_ids nodes) then Some "Unknown" else None).
Proof.
  split.
  - unfold traverse_graph. by intros [->| ->].
  - intros s Hs Hne. unfold traverse_graph. rewrite Hs.
    apply String.eqb_neq in Hne as ->.
    destruct (run_bfs_order edges s) as (st & -> & _ & _ & Hhead & _).
    simpl. eexists _, _. split; [done|]. split.
    + by destruct (order st).
    + apply legacy_roles_lookup.
Qed.

Lemma traverse_graph_legacy_roles_witness :
  traverse_graph [plain_node "" "Start" "ellipse"; plain_node "b" "" ""]
    [plain_edge "" "b"] = Some ([], ∅).
Proof.
  apply (proj1 (traverse_graph_legacy_roles _ _)). right. reflexivity.
Defined.

(** ** The scores of the diagram classifier *)

Lemma sc_plus_assoc (a b c : Scores) :
  sc_plus (sc_plus a b) c = sc_plus a (sc_plus b c).
Proof. unfold sc_plus. simpl. f_equal; lia. Qed.

Lemma sc_plus_comm (a b : Scores) : sc_plus a b = sc_plus b a.
Proof. unfold sc_plus. f_equal; lia. Qed.

Lemma sc_plus_0_r (a : Scores) : sc_plus a scores0 = a.
Proof. destruct a. unfold sc_plus. simpl. f_equal; lia. Qed.

Lemma sc_plus_0_l (a : Scores) : sc_plus scores0 a = a.
Proof. by rewrite sc_plus_comm, sc_plus_0_r. Qed.

Lemma add_uml_plus k s : add_uml k s = sc_plus s (mkScores k 0 0 0 0).
Proof. destruct s. unfold add_uml, sc_plus. simpl. f_equal; lia. Qed.
Lemma add_flowchart_plus k s :
  add_flowchart k s = sc_plus s (mkScores 0 k 0 0 0).
Proof. destruct s. unfold add_flowchart, sc_plus. simpl. f_equal; lia. Qed.
Lemma add_sequence_plus k s :
  add_sequence k s = sc_plus s (mkScores 0 0 k 0 0).
Proof. destruct s. unfold add_sequence, sc_plus. simpl. f_equal; lia. Qed.
Lemma add_er_plus k s : add_er k s = sc_plus s (mkScores 0 0 0 k 0).
Proof. destruct s. unfold add_er, sc_plus. simpl. f_equal; lia. Qed.
Lemma add_activity_plus k s :
  add_activity k s = sc_plus s (mkScores 0 0 0 0 k).
Proof. destruct s. unfold add_activity, sc_plus. simpl. f_equal; lia. Qed.

(** A node adds its contribution to the scores, whatever they are. *)
Lemma score_node_split (s : Scores) (n : Node) :
  score_node s n = sc_plus s (score_node scores0 n).
Proof.
  unfold score_node. cbv zeta.
  assert (Hw : ∀ c f d s, (∀ s, f s = sc_plus s d) →
            when c f s = sc_plus s (if c then d else scores0)).
  { intros c f d s' Hf. destruct c; simpl; [done|by rewrite sc_plus_0_r]. }
  rewrite !(Hw _ _ _ _ (add_uml_plus _)), !(Hw _ _ _ _ (add_flowchart_plus _)),
    !(Hw _ _ _ _ (add_sequence_plus _)), !(Hw _ _ _ _ (add_er_plus _)),
    !(Hw _ _ _ _ (add_activity_plus _)).
  rewrite !sc_plus_assoc. 
  repeat case_match; rewrite ?add_uml_plus, ?add_flowchart_plus,
    ?add_activity_plus, ?sc_plus_assoc, ?sc_plus_0_l; done.
Qed.

Lemma sc_plus_nonneg (a b : Scores) :
  sc_nonneg a → sc_nonneg b → sc_nonneg (sc_plus a b).
Proof. unfold sc_nonneg, sc_plus. simpl. lia. Qed.

Lemma score_node_nonneg (n : Node) : sc_nonneg (score_node scores0 n).
Proof.
  unfold score_node. cbv zeta.
  assert (Hw : ∀ c f s, (∀ s, sc_nonneg s → sc_nonneg (f s)) →
            sc_nonneg s → sc_nonneg (when c f s)).
  { intros c f s Hf Hs. destruct c; simpl; [by apply Hf|done]. }
  assert (Hadd : ∀ d s, sc_nonneg d → sc_nonneg s → sc_nonneg (sc_plus s d)).
  { intros d s Hd Hs. by apply sc_plus_nonneg. }
  repeat (apply Hw;
          [intros s Hs;
           rewrite ?add_uml_plus, ?add_flowchart_plus, ?add_sequence_plus,
             ?add_er_plus, ?add_activity_plus;
           apply Hadd; [unfold sc_nonneg; simpl; lia|done]|]).
  repeat case_match;
    rewrite ?add_uml_plus, ?add_flowchart_plus, ?add_activity_plus;
    repeat (apply Hadd; [unfold sc_nonneg; simpl; lia|]);
    unfold sc_nonneg; simpl; lia.
Qed.

Lemma score_nodes_split (s : Scores) (nodes : list Node) :
  foldl score_node s nodes = sc_plus s (score_nodes nodes).
Proof.
  unfold score_nodes. revert s.
  induction nodes as [|n nodes IH] using rev_ind; intros s.
  - by rewrite sc_plus_0_r.
  - rewrite !foldl_app. simpl. rewrite score_node_split, IH.
    rewrite (score_node_split (foldl _ _ _)). by rewrite sc_plus_assoc.
Qed.

Lemma score_nodes_nonneg (nodes : list Node) : sc_nonneg (score_nodes nodes).
Proof.
  unfold score_nodes.
  induction nodes as [|n nodes IH] using rev_ind.
  - unfold sc_nonneg. simpl. lia.
  - rewrite foldl_app. simpl. rewrite score_node_split.
    apply sc_plus_nonneg; [done|apply score_node_nonneg].
Qed.

Lemma score_nodes_cons (n : Node) (nodes : list Node) :
  score_nodes (n :: nodes)
  = sc_plus (score_node scores0 n) (score_nodes nodes).
Proof. unfold score_nodes. simpl. apply score_nodes_split. Qed.

Lemma score_nodes_perm (nodes nodes' : list Node) :
  nodes ≡ₚ nodes' → score_nodes nodes = score_nodes nodes'.
Proof.
  induction 1 as [|n l l' _ IH|n m l|l l' l'' _ IH1 _ IH2].
  - done.
  - by rewrite !score_nodes_cons, IH.
  - rewrite !score_nodes_cons, <- !sc_plus_assoc.
    by rewrite (sc_plus_comm (score_node scores0 m)).
  - by rewrite IH1.
Qed.

(** X5. The diagram type depends on the nodes as a multiset only: listing
    the same nodes in another order gives the same type. *)
Theorem classify_diagram_type_permutation (nodes nodes' : list Node) :
  nodes ≡ₚ nodes' →
  classify_diagram_type nodes = classify_diagram_type nodes'.
Proof.
  intros H. unfold classify_diagram_type.
  by rewrite (score_nodes_perm _ _ H).
Qed.

Lemma classify_diagram_type_permutation_witness :
  classify_diagram_type (rev chain_nodes) = classify_diagram_type chain_nodes.
Proof.
  apply classify_diagram_type_permutation.
  symmetry. apply Permutation_rev.
Defined.

Lemma max_by_value_spec (its : list (string * Z)) (best : string * Z) :
  max_by_value best its ∈ best :: its
  ∧ (best.2 ≤ (max_by_value best its).2)%Z
  ∧ ∀ it, it ∈ its → (it.2 ≤ (max_by_value best its).2)%Z.
Proof.
  revert best. induction its as [|it its IH]; intros best; simpl.
  { split; [by left|]. split; [lia|by intros ? ?%elem_of_nil]. }
  destruct (best.2 <? it.2)%Z eqn:E.
  - apply Z.ltb_lt in E. destruct (IH it) as (Hin & Hle & Hall).
    split; [by right|]. split; [lia|].
    intros x [->|Hx]%elem_of_cons; [done|by apply Hall].
  - apply Z.ltb_ge in E. destruct (IH best) as (Hin & Hle & Hall).
    split; [|split; [done|]].
    + apply elem_of_cons in Hin as [->|Hin]; [by left|by right; right].
    + intros x [->|Hx]%elem_of_cons; [lia|by apply Hall].
Qed.

(** The winner of [max]: one of the five types, with a score no other
    score exceeds. *)
Lemma top_item_spec (s : Scores) :
  top_item s ∈ items s ∧ ∀ it, it ∈ items s → (it.2 ≤ (top_item s).2)%Z.
Proof.
  unfold top_item.
  destruct (max_by_value_spec (items s) ("UML Class Diagram", sc_uml s))
    as (Hin & _ & Hall).
  split; [|done].
  apply elem_of_cons in Hin as [->|Hin]; [by left|done].
Qed.

Lemma items_keys (s : Scores) (it : string * Z) :
  it ∈ items s →
  it.1 ∈ ["UML Class Diagram"; "Flowchart"; "UML Sequence Diagram";
          "ER Diagram"; "UML Activity Diagram"].
Proof.
  unfold items. intros H.
  repeat (apply elem_of_cons in H as [->|H]; [simpl; set_solver|]).
  by apply elem_of_nil in H.
Qed.

(** The three ways [classify_diagram_type] ends. *)
Lemma classify_diagram_type_cases (nodes : list Node) :
  let s := score_nodes nodes in
  (classify_diagram_type nodes = "Unknown" ∧ (top_item s).2 = 0%Z)
  ∨ (classify_diagram_type nodes = "Flowchart" ∧ (top_item s).2 ≠ 0%Z)
  ∨ (classify_diagram_type nodes = (top_item s).1
     ∧ (2 ≤ (top_item s).2 - second_score s ∨ 4 ≤ (top_item s).2)%Z).
Proof.
  unfold classify_diagram_type. cbv zeta.
  destruct (top_item (score_nodes nodes)) as [top_type top_score] eqn:E.
  simpl.
  destruct (top_score =? 0)%Z eqn:E0.
  { left. by apply Z.eqb_eq in E0. }
  apply Z.eqb_neq in E0.
  destruct (_ && _ && _); [by right; left|].
  destruct (2 <=? top_score - second_score (score_nodes nodes))%Z eqn:E2.
  { right. right. apply Z.leb_le in E2. by split; [|left]. }
  destruct (4 <=? top_score)%Z eqn:E4.
  { right. right. apply Z.leb_le in E4. by split; [|right]. }
  by right; left.
Qed.

Lemma classify_diagram_type_in (nodes : list Node) :
  classify_diagram_type nodes ∈ diagram_types.
Proof.
  destruct (classify_diagram_type_cases nodes) as [[-> _]|[[-> _]|[-> _]]].
  - unfold diagram_types. set_solver.
  - unfold diagram_types. set_solver.
  - destruct (top_item_spec (score_nodes nodes)) as [Hin _].
    apply items_keys in Hin. unfold diagram_types. set_solver.
Qed.

Lemma second_score_nonneg (s : Scores) : sc_nonneg s → (0 ≤ second_score s)%Z.
Proof.
  intros (H1 & H2 & H3 & H4 & H5). unfold second_score.
  destruct (merge_sort Z.ge (map snd (items s)) !! 1) as [v|] eqn:E;
    simpl; [|lia].
  apply list_elem_of_lookup_2 in E.
  rewrite merge_sort_Permutation in E. simpl in E.
  repeat (apply elem_of_cons in E as [->|E]; [done|]).
  by apply elem_of_nil in E.
Qed.

(** X6. The type is Unknown exactly when no node scores anything, that is
    when every node on its own leaves all five scores at zero; no score is
    ever negative. *)
Theorem classify_diagram_type_unknown (nodes : list Node) :
  sc_nonneg (score_nodes nodes)
  ∧ (classify_diagram_type nodes = "Unknown"
     ↔ score_nodes nodes = scores0)
  ∧ (score_nodes nodes = scores0
     ↔ Forall (λ n, score_node scores0 n = scores0) nodes).
Proof.
  split; [apply score_nodes_nonneg|]. split.
  - split.
    + intros H.
      destruct (classify_diagram_type_cases nodes)
        as [[_ H0]|[[H1 _]|[H1 _]]].
      * destruct (top_item_spec (score_nodes nodes)) as [_ Hall].
        pose proof (score_nodes_nonneg nodes) as (H1 & H2 & H3 & H4 & H5).
        rewrite H0 in Hall. unfold items in Hall.
        pose proof (Hall (_, _) ltac:(by left)).
        pose proof (Hall (_, _) ltac:(by right; left)).
        pose proof (Hall (_, _) ltac:(by right; right; left)).
        pose proof (Hall (_, _) ltac:(by right; right; right; left)).
        pose proof (Hall (_, _) ltac:(by right; right; right; right; left)).
        simpl in *. destruct (score_nodes nodes). unfold scores0.
        simpl in *. f_equal; lia.
      * by rewrite H in H1.
      * destruct (top_item_spec (score_nodes nodes)) as [Hin _].
        apply items_keys in Hin. rewrite <- H1, H in Hin.
        set_solver.
    + intros H. unfold classify_diagram_type. by rewrite H.
  - induction nodes as [|n nodes IH]; [done|].
    rewrite score_nodes_cons, Forall_cons, <- IH.
    pose proof (score_node_nonneg n) as (H1 & H2 & H3 & H4 & H5).
    pose proof (score_nodes_nonneg nodes) as (G1 & G2 & G3 & G4 & G5).
    destruct (score_node scores0 n), (score_nodes nodes).
    unfold sc_plus, scores0. simpl in *. split.
    + intros [= ? ? ? ? ?]. split; f_equal; lia.
    + intros [[= -> -> -> -> ->] [= -> -> -> -> ->]]. done.
Qed.

(** X7. [classify_diagram_type] returns one of the six type names, and a
    name other than Flowchart and Unknown only for the type whose score is
    the highest of the five and at least 2. *)
Theorem classify_diagram_type_top (nodes : list Node) :
  classify_diagram_type nodes ∈ diagram_types
  ∧ (classify_diagram_type nodes ≠ "Flowchart" →
     classify_diagram_type nodes ≠ "Unknown" →
     ∃ v, (classify_diagram_type nodes, v) ∈ items (score_nodes nodes)
          ∧ (2 ≤ v)%Z
          ∧ ∀ it, it ∈ items (score_nodes nodes) → (it.2 ≤ v)%Z).
Proof.
  split; [apply classify_diagram_type_in|]. intros Hf Hu.
  destruct (classify_diagram_type_cases nodes) as [[H _]|[[H _]|[H Hgap]]];
    [done|done|].
  destruct (top_item_spec (score_nodes nodes)) as [Hin Hall].
  exists (top_item (score_nodes nodes)).2. rewrite H. split; [|split; [|done]].
  - by destruct (top_item (score_nodes nodes)).
  - pose proof (second_score_nonneg _ (score_nodes_nonneg nodes)). lia.
Qed.

Lemma classify_diagram_type_top_witness :
  ∃ v, ("UML Class Diagram", v)
         ∈ items (score_nodes [plain_node "c" "class Account" "rectangle"])
       ∧ (2 ≤ v)%Z.
Proof.
  destruct (proj2 (classify_diagram_type_top
                     [plain_node "c" "class Account" "rectangle"]))
    as (v & Hin & Hv & _).
  - vm_compute. discriminate.
  - vm_compute. discriminate.
  - exists v. split; [exact Hin|exact Hv].
Defined.

(** ** The roles of the role classifier *)

Lemma classify_node_roles_lookup (nodes : list Node) (dt : string)
  (edges : option (list Edge)) (i r : string) :
  classify_node_roles nodes dt edges !! i = Some r →
  ∃ n, n ∈ nodes ∧ node_id n = i ∧ r = node_role dt n.
Proof.
  unfold classify_node_roles. cbv zeta. intros H.
  apply (foldl_insert_lookup_Some node_id (node_role dt)) in H
    as [H|H]; [by rewrite lookup_empty in H|done].
Qed.

(** X8. Under the Flowchart and the sequence type no node is left Unknown:
    every role is one of the eight flowchart roles, of the three sequence
    roles. Under a type that is none of the five the classifier handles,
    Unknown among them, every node is Unknown. *)
Theorem classify_node_roles_unknown (nodes : list Node) (dt : string)
  (edges : option (list Edge)) (i r : string) :
  classify_node_roles nodes dt edges !! i = Some r →
  (dt = "Flowchart" ∨ dt = "UML Sequence Diagram" → r ∈ legal_roles dt)
  ∧ (dt ∉ ["Flowchart"; "UML Class Diagram"; "UML Sequence Diagram";
           "ER Diagram"; "UML Activity Diagram"] → r = "Unknown").
Proof.
  intros (n & _ & _ & ->)%classify_node_roles_lookup. split.
  - intros [-> | ->]; unfold node_role, legal_roles; simpl.
    + unfold flowchart_role. repeat case_match; repeat constructor.
    + unfold sequence_role. repeat case_match; repeat constructor.
  - intros Hdt. unfold node_role.
    repeat (case_match;
            [match goal with
             | H : String.eqb _ _ = true |- _ =>
                 apply String.eqb_eq in H; subst; set_solver
             end|]).
    done.
Qed.

Lemma classify_node_roles_unknown_witness :
  ∃ r, classify_node_roles chain_nodes "Unknown" None !! "n1" = Some r
       ∧ r = "Unknown".
Proof.
  exists "Unknown". split; [vm_compute; reflexivity|].
  refine (proj2 (classify_node_roles_unknown chain_nodes "Unknown" None
                   "n1" "Unknown" _) _).
  - vm_compute. reflexivity.
  - apply (bool_decide_unpack _). vm_compute. exact I.
Defined.

(** ** Template matching *)

Lemma prefix_refl (s : string) : String.prefix s s = true.
Proof. induction s as [|c s IH]; simpl; [done|]. by case_match. Qed.

Lemma contains_refl (s : string) : Py.contains s s = true.
Proof. destruct s; [done|]. cbn [Py.contains]. by rewrite prefix_refl. Qed.

Lemma find_first {A : Type} (p : A → bool) (pre post : list A) (a : A) :
  Forall (λ x, p x = false) pre → p a = true →
  List.find p (pre ++ a :: post) = Some a.
Proof.
  intros Hpre Ha.
  induction Hpre as [|x pre Hx _ IH]; simpl; [by rewrite Ha|by rewrite Hx].
Qed.

Lemma find_None_Forall {A : Type} (p : A → bool) (l : list A) :
  List.find p l = None ↔ Forall (λ x, p x = false) l.
Proof.
  induction l as [|x l IH]; simpl; [by split; [constructor|]|].
  rewrite Forall_cons. destruct (p x); [|by rewrite IH; naive_solver].
  split; [done|by intros [? _]].
Qed.

(** X9. [match_template] looks only at the entries listed under the role.
    It returns a template exactly when the lowercased label contains the
    lowercased form of some keyword of some entry; what it returns is the
    logic of one of the entries; and an entry with a keyword equal to the
    label, the first such entry, wins over every entry, also an earlier
    one, that only has a keyword inside the label. *)
Theorem match_template_spec (label role : string)
  (templates : gmap string (list TemplateEntry)) :
  let entries := default [] (templates !! role) in
  let exact entry :=
    existsb (λ kw, String.eqb (Py.lower label) (Py.lower kw)) (keywords entry) in
  let partial entry :=
    existsb (λ kw, Py.contains (Py.lower kw) (Py.lower label)) (keywords entry) in
  (match_template label role templates = None
   ↔ Forall (λ entry, partial entry = false) entries)
  ∧ (∀ l, match_template label role templates = Some l →
       ∃ entry, entry ∈ entries ∧ partial entry = true ∧ logic entry = l)
  ∧ (∀ pre entry post, entries = pre ++ entry :: post →
       Forall (λ e, exact e = false) pre → exact entry = true →
       match_template label role templates = Some (logic entry))
  ∧ (∀ pre entry post, entries = pre ++ entry :: post →
       Forall (λ e, exact e = false) entries →
       Forall (λ e, partial e = false) pre → partial entry = true →
       match_template label role templates = Some (logic entry)).
Proof.
  intros entries exact partial.
  assert (Hmt : match_template label role templates
                = match List.find exact entries with
                  | Some entry => Some (logic entry)
                  | None => logic <$> List.find partial entries
                  end) by done.
  rewrite Hmt. clear Hmt.
  assert (Hep : ∀ e, exact e = true → partial e = true).
  { intros e. unfold exact, partial. rewrite !existsb_exists.
    intros (kw & Hkw & ->%String.eqb_eq). exists kw. split; [done|].
    apply contains_refl. }
  split; [|split; [|split]].
  - destruct (List.find exact entries) as [e|] eqn:E.
    + split; [done|]. intros Hall. apply find_some in E as [Hin He].
      rewrite Forall_forall in Hall. apply list_elem_of_In in Hin.
      apply Hep in He. specialize (Hall e Hin). simpl in Hall. congruence.
    + destruct (List.find partial entries) as [e|] eqn:E'; simpl.
      * split; [done|]. intros Hall%find_None_Forall. by rewrite Hall in E'.
      * split; [|done]. intros _. by apply find_None_Forall.
  - intros l. destruct (List.find exact entries) as [e|] eqn:E.
    + intros [= <-]. apply find_some in E as [Hin He].
      exists e. split; [by apply list_elem_of_In|]. split; [by apply Hep|done].
    + destruct (List.find partial entries) as [e|] eqn:E'; simpl; [|done].
      intros [= <-]. apply find_some in E' as [Hin He].
      exists e. split; [by apply list_elem_of_In|done].
  - intros pre e post Heq Hpre He.
    by rewrite Heq, (find_first exact pre post e Hpre He).
  - intros pre e post Heq Hnone Hpre He.
    apply find_None_Forall in Hnone. rewrite Hnone.
    by rewrite Heq, (find_first partial pre post e Hpre He).
Qed.

Lemma match_template_spec_witness :
  match_template "Print" "Output"
    {["Output" := [mkEntry ["int"] "cast"; mkEntry ["PRINT"; "show"] "print_call"]]}
  = Some "print_call".
Proof.
  refine (proj1 (proj2 (proj2 (match_template_spec "Print" "Output" _)))
            [mkEntry ["int"] "cast"] (mkEntry ["PRINT"; "show"] "print_call")
            [] _ _ _).
  - reflexivity.
  - apply (bool_decide_unpack _). vm_compute. exact I.
  - reflexivity.
Defined.

(** ** What the interpreter's flow covers *)

Lemma flow_type_of_in (role_lower : string) :
  flow_type_of role_lower ∈ flow_types
  ∧ (flow_type_of role_lower = "decision" ↔ role_lower = "decision").
Proof.
  unfold flow_type_of, flow_types.
  destruct (String.eqb role_lower "start") eqn:E1.
  { apply String.eqb_eq in E1 as ->. split; [set_solver|done]. }
  destruct (String.eqb role_lower "end") eqn:E2.
  { apply String.eqb_eq in E2 as ->. split; [set_solver|done]. }
  destruct (String.eqb role_lower "decision") eqn:E3.
  { apply String.eqb_eq in E3 as ->. split; [set_solver|done]. }
  apply String.eqb_neq in E3.
  destruct (String.eqb role_lower "loop") eqn:E4.
  { split; [set_solver|done]. }
  destruct (Py.mem role_lower ["input"; "output"; "process"; "task"]) eqn:E5.
  { apply mem_spec in E5. split; [set_solver|]. split; [|done].
    intros ->. set_solver. }
  destruct (String.eqb role_lower "jump") eqn:E6.
  { split; [set_solver|done]. }
  destruct (Py.mem role_lower ["class"; "interface"; "method"; "attribute"]).
  { split; [set_solver|done]. }
  split; [set_solver|done].
Qed.

Section Cover.

Variable id_to_node : gmap string Node.
Variable next_map : gmap string (list OutEdge).
Variable roles : gmap string string.
Variable templates : gmap string (list TemplateEntry).

Hypothesis id_to_node_key :
  ∀ k n, id_to_node !! k = Some n → node_id n = k.

Local Abbreviation visit := (visit_node id_to_node next_map roles templates).

(** Every id seen that has a node has a step. *)
Local Abbreviation covered := (λ st : VisitState,
  ∀ i, i ∈ dfs_visited st → is_Some (id_to_node !! i) →
       i ∈ map step_node_id (dfs_flow st)).

Lemma visit_fold_grows {B : Type} (g : B → string) (fuel : nat) (l : list B) :
  (∀ nid st st', visit fuel nid st = Some st' →
     dfs_visited st ⊆ dfs_visited st' ∧ nid ∈ dfs_visited st'
     ∧ (∃ more, dfs_flow st' = dfs_flow st ++ more)
     ∧ (covered st → covered st')) →
  ∀ st st',
    foldl (λ acc b, st' ← acc; visit fuel (g b) st') (Some st) l = Some st' →
    dfs_visited st ⊆ dfs_visited st'
    ∧ (∀ b, b ∈ l → g b ∈ dfs_visited st')
    ∧ (∃ more, dfs_flow st' = dfs_flow st ++ more)
    ∧ (covered st → covered st').
Proof.
  intros Hvisit. induction l as [|b l IH]; intros st st'; simpl.
  - intros [= <-]. split; [done|]. split; [by intros ? ?%elem_of_nil|].
    split; [|done]. exists []. by rewrite app_nil_r.
  - destruct (visit fuel (g b) st) as [st1|] eqn:E;
      [|by rewrite visit_fold_None].
    intros H. destruct (Hvisit _ _ _ E) as (Hs1 & Hb & [m1 Hm1] & Hc1).
    destruct (IH _ _ H) as (Hs2 & Hl & [m2 Hm2] & Hc2).
    split; [set_solver|]. split; [|split].
    + intros x [->|Hx]%elem_of_cons; [set_solver|by apply Hl].
    + exists (m1 ++ m2). by rewrite Hm2, Hm1, (assoc_L (++)).
    + intros Hc. by apply Hc2, Hc1.
Qed.

Lemma visit_node_grows (fuel : nat) :
  ∀ nid st st', visit fuel nid st = Some st' →
    dfs_visited st ⊆ dfs_visited st' ∧ nid ∈ dfs_visited st'
    ∧ (∃ more, dfs_flow st' = dfs_flow st ++ more)
    ∧ (covered st → covered st').
Proof.
  induction fuel as [|fuel IH]; intros nid st st'; simpl.
  - destruct (decide (nid ∈ dfs_visited st)) as [Hin|Hin].
    { intros [= <-]. split; [done|]. split; [done|]. split; [|done].
      exists []. by rewrite app_nil_r. }
    destruct (id_to_node !! nid) as [node|] eqn:Hnode; [done|].
    intros [= <-]. simpl. split; [set_solver|]. split; [set_solver|]. split.
    { exists []. by rewrite app_nil_r. }
    intros Hc i [->%elem_of_singleton|Hi]%elem_of_union Hsome.
    + rewrite Hnode in Hsome. by destruct Hsome.
    + by apply Hc.
  - destruct (decide (nid ∈ dfs_visited st)) as [Hin|Hin].
    { intros [= <-]. split; [done|]. split; [done|]. split; [|done].
      exists []. by rewrite app_nil_r. }
    destruct (id_to_node !! nid) as [node|] eqn:Hnode.
    2:{ intros [= <-]. simpl. split; [set_solver|]. split; [set_solver|]. split.
        { exists []. by rewrite app_nil_r. }
        intros Hc i [->%elem_of_singleton|Hi]%elem_of_union Hsome.
        + rewrite Hnode in Hsome. by destruct Hsome.
        + by apply Hc. }
    intros H.
    apply (visit_fold_grows target_id fuel _ IH) in H
      as (Hsub & _ & [more Hmore] & Hc).
    simpl in *. split; [set_solver|]. split; [set_solver|]. split.
    { exists (build_step id_to_node next_map roles templates node :: more).
      by rewrite Hmore, <- (assoc_L (++)). }
    intros Hcov. apply Hc.
    intros i [->%elem_of_singleton|Hi]%elem_of_union Hsome;
      rewrite map_app, elem_of_app.
    + right. simpl. rewrite (id_to_node_key _ _ Hnode). by left.
    + left. by apply Hcov.
Qed.

(** The first call on a node not seen yet puts its step next. *)
Lemma visit_node_fresh (fuel : nat) (nid : string) (node : Node)
  (st st' : VisitState) :
  visit fuel nid st = Some st' → nid ∉ dfs_visited st →
  id_to_node !! nid = Some node →
  ∃ more, dfs_flow st'
          = dfs_flow st
            ++ build_step id_to_node next_map roles templates node :: more.
Proof.
  intros H Hin Hnode. destruct fuel as [|fuel]; simpl in H;
    (destruct (decide (nid ∈ dfs_visited st)); [done|]);
    rewrite Hnode in H; [done|].
  apply (visit_fold_grows target_id fuel _ (visit_node_grows fuel)) in H
    as (_ & _ & [more Hmore] & _).
  exists more. simpl in Hmore. by rewrite Hmore, <- (assoc_L (++)).
Qed.

End Cover.

Lemma visit_all_missing (id_to_node : gmap string Node)
  (next_map : gmap string (list OutEdge)) (roles : gmap string string)
  (templates : gmap string (list TemplateEntry)) (fuel : nat)
  (pre : list string) :
  Forall (λ x, id_to_node !! x = None) pre →
  ∀ st, ∃ st',
    foldl (λ acc nid, st' ← acc;
             visit_node id_to_node next_map roles templates fuel nid st')
          (Some st) pre = Some st'
    ∧ dfs_flow st' = dfs_flow st
    ∧ ∀ x, x ∈ dfs_visited st' ↔ x ∈ dfs_visited st ∨ x ∈ pre.
Proof.
  induction 1 as [|x pre Hx _ IH]; intros st; simpl.
  { exists st. split; [done|]. split; [done|]. set_solver. }
  destruct (decide (x ∈ dfs_visited st)) as [Hin|Hin].
  - assert (visit_node id_to_node next_map roles templates fuel x st = Some st)
      as ->.
    { destruct fuel; simpl; by rewrite decide_True. }
    destruct (IH st) as (st' & -> & Hf & Hv). exists st'.
    split; [done|]. split; [done|]. intros y. rewrite Hv. set_solver.
  - rewrite (visit_node_missing _ _ _ _ fuel x st Hx Hin).
    destruct (IH (mkVisit ({[x]} ∪ dfs_visited st) (dfs_flow st)))
      as (st' & -> & Hf & Hv).
    exists st'. split; [done|]. split; [done|].
    intros y. rewrite Hv. simpl. set_solver.
Qed.

(** The state the loop over the traversal order ends in. *)
Lemma interpret_flowchart_state (templates : gmap string (list TemplateEntry))
  (nodes : list Node) (edges : list Edge) (roles : gmap string string)
  (traversal_order : list string) (dt : string) (doc : FlowchartData) :
  interpret_flowchart templates nodes edges roles traversal_order dt
    = Some doc →
  ∃ st, visit_all (build_id_to_node nodes) (build_next_map edges) roles
          templates (length nodes) traversal_order (mkVisit ∅ []) = Some st
        ∧ execution_flow doc = dfs_flow st.
Proof.
  unfold interpret_flowchart.
  destruct (visit_all _ _ _ _ _ _ _) as [st|]; [|done].
  intros [= <-]. by exists st.
Qed.

(** Every id of the traversal order that has a node has a step. *)
Lemma interpret_flowchart_cover (templates : gmap string (list TemplateEntry))
  (nodes : list Node) (edges : list Edge) (roles : gmap string string)
  (traversal_order : list string) (dt : string) (doc : FlowchartData) :
  interpret_flowchart templates nodes edges roles traversal_order dt
    = Some doc →
  ∀ i, i ∈ traversal_order → i ∈ node_ids nodes →
       i ∈ map step_node_id (execution_flow doc).
Proof.
  intros Hdoc.
  destruct (interpret_flowchart_state _ _ _ _ _ _ _ Hdoc) as (st & Hst & Hflow).
  assert (Hkey : ∀ k n, build_id_to_node nodes !! k = Some n → node_id n = k).
  { intros k n H. by apply build_id_to_node_key in H as [? ?]. }
  unfold visit_all in Hst.
  apply (visit_fold_grows _ _ _ _ Hkey (λ x, x) _ _
           (visit_node_grows _ _ _ _ Hkey _)) in Hst
    as (_ & Hvis & _ & Hcov).
  intros i Hi Hn. rewrite Hflow. apply Hcov.
  - simpl. intros j Hj. by apply elem_of_empty in Hj.
  - by apply Hvis.
  - by apply build_id_to_node_is_Some.
Qed.

(** With distinct node ids, all of them in the traversal order, the steps
    are one per node. *)
Lemma interpret_flowchart_perm (templates : gmap string (list TemplateEntry))
  (nodes : list Node) (edges : list Edge) (roles : gmap string string)
  (traversal_order : list string) (dt : string) (doc : FlowchartData) :
  interpret_flowchart templates nodes edges roles traversal_order dt
    = Some doc →
  (∀ i, i ∈ node_ids nodes → i ∈ traversal_order) →
  NoDup (node_ids nodes) →
  map step_node_id (execution_flow doc) ≡ₚ node_ids nodes.
Proof.
  intros Hdoc Hall Hndn.
  destruct (interpret_flowchart_flow templates nodes edges roles
              traversal_order dt) as (doc' & Hdoc' & Hsteps & Hnd).
  rewrite Hdoc in Hdoc'. injection Hdoc' as <-.
  apply NoDup_Permutation; [done|done|]. intros i. split.
  - intros (step & -> & Hstep)%list_elem_of_fmap.
    destruct (Hsteps step Hstep) as (node & Hn & <- & _).
    by apply list_elem_of_fmap_2.
  - intros Hi.
    apply (interpret_flowchart_cover _ _ _ _ _ _ _ Hdoc); [by apply Hall|done].
Qed.



(** The first id of the traversal order that has a node gives the first
    step. *)
Lemma interpret_flowchart_head (templates : gmap string (list TemplateEntry))
  (nodes : list Node) (edges : list Edge) (roles : gmap string string)
  (pre rest : list string) (i : string) (dt : string) (doc : FlowchartData) :
  interpret_flowchart templates nodes edges roles (pre ++ i :: rest) dt
    = Some doc →
  Forall (λ x, x ∉ node_ids nodes) pre → i ∈ node_ids nodes →
  ∃ step more, execution_flow doc = step :: more ∧ step_node_id step = i.
Proof.
  intros Hdoc Hpre Hi.
  destruct (interpret_flowchart_state _ _ _ _ _ _ _ Hdoc) as (st & Hst & Hflow).
  assert (Hkey : ∀ k n, build_id_to_node nodes !! k = Some n → node_id n = k).
  { intros k n H. by apply build_id_to_node_key in H as [? ?]. }
  unfold visit_all in Hst. rewrite foldl_app in Hst.
  destruct (visit_all_missing (build_id_to_node nodes) (build_next_map edges)
              roles templates (length nodes) pre) with (st := mkVisit ∅ [])
    as (st0 & E0 & Hf0 & Hv0).
  { eapply Forall_impl; [exact Hpre|]. intros x Hx. simpl in Hx.
    apply eq_None_not_Some. by rewrite build_id_to_node_is_Some. }
  rewrite E0 in Hst. simpl in Hst, Hf0.
  destruct (visit_node _ _ _ _ _ i st0) as [st1|] eqn:E1;
    [|by rewrite visit_fold_None in Hst].
  apply build_id_to_node_is_Some in Hi as Hsome. destruct Hsome as [node Hnode].
  apply (visit_node_fresh _ _ _ _ Hkey _ _ node) in E1 as [m1 Hm1]; [| |done].
  2:{ rewrite Hv0. intros [H|H]; [by apply elem_of_empty in H|].
      rewrite Forall_forall in Hpre. by apply (Hpre i). }
  apply (visit_fold_grows _ _ _ _ Hkey (λ x, x) _ _
           (visit_node_grows _ _ _ _ Hkey _)) in Hst
    as (_ & _ & [m2 Hm2] & _).
  exists (build_step (build_id_to_node nodes) (build_next_map edges) roles
            templates node), (m1 ++ m2).
  split.
  - by rewrite Hflow, Hm2, Hm1, Hf0.
  - simpl. by apply Hkey.
Qed.

(** X11. The flow starts with the step of the first id of the traversal
    order that has a node: ids without a node before it leave no trace. *)
Theorem execution_flow_first (templates : gmap string (list TemplateEntry))
  (nodes : list Node) (edges : list Edge) (roles : gmap string string)
  (pre rest : list string) (i : string) (dt : string) :
  Forall (λ x, x ∉ node_ids nodes) pre → i ∈ node_ids nodes →
  ∃ doc step more,
    interpret_flowchart templates nodes edges roles (pre ++ i :: rest) dt
      = Some doc
    ∧ execution_flow doc = step :: more
    ∧ step_node_id step = i.
Proof.
  intros Hpre Hi.
  destruct (interpret_flowchart_flow templates nodes edges roles
              (pre ++ i :: rest) dt) as (doc & Hdoc & _).
  destruct (interpret_flowchart_head _ _ _ _ _ _ _ _ _ Hdoc Hpre Hi)
    as (step & more & Hflow & Hid).
  by exists doc, step, more.
Qed.

Lemma execution_flow_first_witness :
  ∃ doc step more,
    interpret_flowchart ∅ dangling_nodes dangling_edges
      {["A" := "Decision"]} (["X"] ++ "A" :: []) "Flowchart" = Some doc
    ∧ execution_flow doc = step :: more
    ∧ step_node_id step = "A".
Proof.
  apply execution_flow_first.
  - apply (bool_decide_unpack _). vm_compute. exact I.
  - apply (bool_decide_unpack _). vm_compute. exact I.
Defined.

(** X12. The template table decides the template tag of a step and nothing
    else: with two tables the interpreter returns documents that differ in
    the tags at most, and the tag of a step is what [match_template] finds
    for its label and role. *)
Theorem templates_only_tag (t1 t2 : gmap string (list TemplateEntry))
  (nodes : list Node) (edges : list Edge) (roles : gmap string string)
  (traversal_order : list string) (dt : string) :
  ∃ d1 d2,
    interpret_flowchart t1 nodes edges roles traversal_order dt = Some d1
    ∧ interpret_flowchart t2 nodes edges roles traversal_order dt = Some d2
    ∧ map erase_logic (execution_flow d1) = map erase_logic (execution_flow d2)
    ∧ nodes_out d1 = nodes_out d2 ∧ edges_out d1 = edges_out d2
    ∧ diagram_type d1 = diagram_type d2
    ∧ ∀ step, step ∈ execution_flow d1 →
        step_logic_template step
        = match_template (step_label step) (step_role step) t1.
Proof.
  destruct (interpret_flowchart_flow t1 nodes edges roles traversal_order dt)
    as (d1 & H1 & Hsteps & _).
  destruct (interpret_flowchart_flow t2 nodes edges roles traversal_order dt)
    as (d2 & H2 & _).
  exists d1, d2. split; [done|]. split; [done|].
  pose proof (interpret_flowchart_erase t1 nodes edges roles traversal_order dt)
    as E1.
  pose proof (interpret_flowchart_erase t2 nodes edges roles traversal_order dt)
    as E2.
  rewrite H1 in E1. rewrite H2 in E2. rewrite <- E2 in E1.
  injection E1 as E1. split; [done|].
  unfold interpret_flowchart in H1, H2.
  destruct (visit_all _ _ _ t1 _ _ _); [|done].
  destruct (visit_all _ _ _ t2 _ _ _); [|done].
  simpl in H1, H2. injection H1 as <-. injection H2 as <-. simpl in *.
  split; [done|]. split; [done|]. split; [done|].
  intros step Hstep. by destruct (Hsteps step Hstep) as (node & _ & _ & ->).
Qed.

Lemma templates_only_tag_witness :
  ∃ d1 step,
    interpret_flowchart {["Decision" := [mkEntry ["a"] "if_else"]]}
      dangling_nodes dangling_edges {["A" := "Decision"]} ["A"] "Flowchart"
      = Some d1
    ∧ execution_flow d1 = [step]
    ∧ step_logic_template step
      = match_template (step_label step) (step_role step)
          {["Decision" := [mkEntry ["a"] "if_else"]]}.
Proof.
  destruct (templates_only_tag {["Decision" := [mkEntry ["a"] "if_else"]]} ∅
              dangling_nodes dangling_edges {["A" := "Decision"]} ["A"]
              "Flowchart")
    as (d1 & d2 & H1 & _ & _ & _ & _ & _ & Htag).
  vm_compute in H1. injection H1 as <-.
  eexists _, _. split; [reflexivity|]. split; [reflexivity|].
  exact (Htag _ ltac:(constructor)).
Defined.

(** X13. The flow type of a step is read off its role in lower case: it is
    one of eleven names, never the "action" the step is created with, and
    it is "decision" exactly for the steps that carry a branches list. *)
Theorem flow_type_vocabulary (templates : gmap string (list TemplateEntry))
  (nodes : list Node) (edges : list Edge) (roles : gmap string string)
  (traversal_order : list string) (dt : string) :
  ∃ doc,
    interpret_flowchart templates nodes edges roles traversal_order dt
      = Some doc
    ∧ ∀ step, step ∈ execution_flow doc →
        step_flow_type step = flow_type_of (Py.lower (step_role step))
        ∧ step_flow_type step ∈ flow_types
        ∧ step_flow_type step ≠ "action"
        ∧ (step_flow_type step = "decision" ↔ is_Some (step_branches step)).
Proof.
  destruct (interpret_flowchart_flow templates nodes edges roles
              traversal_order dt) as (doc & Hdoc & Hsteps & _).
  exists doc. split; [done|]. intros step Hstep.
  destruct (Hsteps step Hstep) as (node & _ & _ & ->). simpl.
  destruct (flow_type_of_in (Py.lower (role_of roles node))) as [Hin Hdec].
  split; [done|]. split; [done|]. split.
  - intros E. rewrite E in Hin. unfold flow_types in Hin. set_solver.
  - rewrite Hdec. destruct (String.eqb _ "decision") eqn:E.
    + apply String.eqb_eq in E. split; [by eauto|done].
    + apply String.eqb_neq in E. split; [done|by intros [? ?]].
Qed.

Lemma flow_type_vocabulary_witness :
  ∃ doc step,
    interpret_flowchart ∅ dangling_nodes dangling_edges
      {["A" := "Decision"]} ["A"] "Flowchart" = Some doc
    ∧ execution_flow doc = [step]
    ∧ step_flow_type step ∈ flow_types.
Proof.
  destruct (flow_type_vocabulary ∅ dangling_nodes dangling_edges
              {["A" := "Decision"]} ["A"] "Flowchart")
    as (doc & Hdoc & Hsteps).
  vm_compute in Hdoc. injection Hdoc as <-.
  eexists _, _. split; [reflexivity|]. split; [reflexivity|].
  exact (proj1 (proj2 (Hsteps _ ltac:(constructor)))).
Defined.

(** ** Strings the loader has normalised *)

Lemma lower_ascii_idem (c : ascii) :
  Py.lower_ascii (Py.lower_ascii c) = Py.lower_ascii c.
Proof. by destruct c as [[] [] [] [] [] [] [] []]. Qed.

Lemma isspace_lower_ascii (c : ascii) :
  Py.isspace (Py.lower_ascii c) = Py.isspace c.
Proof. by destruct c as [[] [] [] [] [] [] [] []]. Qed.

Lemma lower_idem (s : string) : Py.lower (Py.lower s) = Py.lower s.
Proof.
  induction s as [|c s IH]; simpl; [done|]. by rewrite lower_ascii_idem, IH.
Qed.

Lemma lstrip_lower (s : string) : Py.lstrip (Py.lower s) = Py.lower (Py.lstrip s).
Proof.
  induction s as [|c s IH]; simpl; [done|].
  rewrite isspace_lower_ascii. by destruct (Py.isspace c).
Qed.

Lemma lower_empty (s : string) : Py.lower s = "" ↔ s = "".
Proof. by destruct s. Qed.

Lemma rstrip_lower (s : string) : Py.rstrip (Py.lower s) = Py.lower (Py.rstrip s).
Proof.
  induction s as [|c s IH]; simpl; [done|]. rewrite IH.
  destruct (Py.rstrip s) as [|d r]; simpl.
  - rewrite isspace_lower_ascii. by destruct (Py.isspace c).
  - done.
Qed.

Lemma strip_lower (s : string) : Py.strip (Py.lower s) = Py.lower (Py.strip s).
Proof. unfold Py.strip. by rewrite lstrip_lower, rstrip_lower. Qed.

Lemma lstrip_head (s : string) :
  match Py.lstrip s with
  | EmptyString => True
  | String c _ => Py.isspace c = false
  end.
Proof.
  induction s as [|c s IH]; simpl; [done|].
  by destruct (Py.isspace c) eqn:E; simpl.
Qed.

Lemma rstrip_cons (c : ascii) (s : string) :
  Py.rstrip (String c s)
  = match Py.rstrip s with
    | EmptyString => if Py.isspace c then EmptyString else String c EmptyString
    | r => String c r
    end.
Proof. done. Qed.

Lemma rstrip_idem (s : string) : Py.rstrip (Py.rstrip s) = Py.rstrip s.
Proof.
  induction s as [|c s IH]; [done|]. rewrite rstrip_cons.
  destruct (Py.rstrip s) as [|d r] eqn:E.
  - destruct (Py.isspace c) eqn:Ec; [done|]. simpl. by rewrite Ec.
  - rewrite rstrip_cons, IH. done.
Qed.

(** Stripping on the right keeps a first character that is no blank. *)
Lemma lstrip_rstrip (s : string) :
  match s with
  | EmptyString => True
  | String c _ => Py.isspace c = false
  end →
  Py.lstrip (Py.rstrip s) = Py.rstrip s.
Proof.
  destruct s as [|c s]; [done|]. intros Hc. rewrite rstrip_cons.
  destruct (Py.rstrip s); rewrite ?Hc; simpl; by rewrite Hc.
Qed.

Lemma strip_idem (s : string) : Py.strip (Py.strip s) = Py.strip s.
Proof.
  unfold Py.strip.
  rewrite (lstrip_rstrip (Py.lstrip s) (lstrip_head s)). apply rstrip_idem.
Qed.

Lemma lower_strip_idem (s : string) :
  Py.lower (Py.strip (Py.lower (Py.strip s))) = Py.lower (Py.strip s).
Proof. by rewrite <- strip_lower, lower_idem, strip_lower, strip_idem. Qed.

Lemma last_dot_segment_lower (s : string) :
  Py.lower s = s → Py.lower (Py.last_dot_segment s) = Py.last_dot_segment s.
Proof.
  induction s as [|c s IH]; simpl; [done|]. intros [= Hc Hs].
  destruct (Py.contains "." s); [by apply IH|].
  destruct (Ascii.eqb c "."); [done|]. simpl. by rewrite Hc, Hs.
Qed.

Lemma shape_of_config_lower (config : string) :
  Py.lower config = config →
  Py.lower (shape_of_config config) = shape_of_config config.
Proof.
  intros H. unfold shape_of_config.
  repeat case_match; try done. by apply last_dot_segment_lower.
Qed.

(** ** What the loader returns *)

(** One node element, parsed: the id is the attribute, the shape is the
    explicit one or, without one, the shape of the generic node. *)
Lemma parse_node_Return (generic : Local (option Element)) (node_el : Element)
  (n : Node) (g : Local (option Element)) :
  parse_node generic node_el = Return (n, g) →
  attrib node_el !! "id" = Some (node_id n)
  ∧ Py.strip (node_label n) = node_label n
  ∧ Py.lower (node_shape n) = node_shape n
  ∧ (explicit_shape node_el ≠ "" →
     node_shape n = explicit_shape node_el ∧ g = generic ∧ generic ≠ Unbound)
  ∧ (explicit_shape node_el = "" →
     g = Bound (find_desc (ns_y +:+ "GenericNode") node_el)
     ∧ node_shape n
       = match find_desc (ns_y +:+ "GenericNode") node_el with
         | Some ge => shape_of_config (Py.lower (attrib_get "configuration" ge))
         | None => ""
         end).
Proof.
  unfold parse_node, explicit_shape. unfold mbind, result_bind, attrib_item.
  destruct (attrib node_el !! "id") as [nid|]; [|done].
  set (label := match find_desc (ns_y +:+ "NodeLabel") node_el with
                | Some e => _ | None => _ end).
  assert (Hlabel : Py.strip label = label).
  { unfold label. case_match; [apply strip_idem|done]. }
  set (s1 := match find_desc (ns_y +:+ "Shape") node_el with
             | Some e => _ | None => _ end).
  assert (Hs1 : Py.lower s1 = s1).
  { unfold s1. case_match; [apply lower_idem|done]. }
  set (s2 := if String.eqb s1 "" then _ else s1).
  assert (Hs2 : Py.lower s2 = s2).
  { unfold s2. repeat case_match; try done. apply lower_idem. }
  clearbody label s2. clear s1 Hs1.
  destruct (String.eqb s2 "") eqn:E.
  - apply String.eqb_eq in E as ->.
    destruct (find_desc (ns_y +:+ "GenericNode") node_el) as [ge|] eqn:Eg;
      simpl; intros [= <- <-]; simpl.
    + split; [done|]. split; [done|]. split.
      { apply shape_of_config_lower, lower_idem. }
      split; [done|]. by intros _.
    + split; [done|]. split; [done|]. split; [done|]. split; [done|].
      by intros _.
  - apply String.eqb_neq in E. destruct generic as [|g0]; simpl; [done|].
    intros [= <- <-]. simpl.
    split; [done|]. split; [done|]. split; [done|]. split; [|done].
    by intros _.
Qed.

Lemma parse_nodes_Return (els : list Element) :
  ∀ generic acc nodes,
    parse_nodes generic els acc = Return nodes →
    ∃ new, nodes = acc ++ new
      ∧ map (λ n, Some (node_id n)) new = map (λ el, attrib el !! "id") els
      ∧ Forall (λ n, Py.strip (node_label n) = node_label n
                     ∧ Py.lower (node_shape n) = node_shape n) new.
Proof.
  induction els as [|el els IH]; intros generic acc nodes; simpl.
  { intros [= <-]. exists []. by rewrite app_nil_r. }
  unfold mbind, result_bind.
  destruct (parse_node generic el) as [[n g]|] eqn:E; [|done]. simpl.
  intros (new & -> & Hids & Hall)%IH.
  apply parse_node_Return in E as (Hid & Hl & Hs & _).
  exists (n :: new). split; [by rewrite <- (assoc_L (++))|].
  split; [simpl; by rewrite Hid, Hids|by constructor].
Qed.

Lemma parse_edges_Return (els : list Element) :
  ∀ acc edges,
    parse_edges els acc = Return edges →
    ∃ new, edges = acc ++ new
      ∧ map (λ e, (Some (edge_source e), Some (edge_target e))) new
        = map (λ el, (attrib el !! "source", attrib el !! "target")) els
      ∧ Forall (λ e, Py.lower (Py.strip (edge_label e)) = edge_label e) new.
Proof.
  induction els as [|el els IH]; intros acc edges; simpl.
  { intros [= <-]. exists []. by rewrite app_nil_r. }
  unfold mbind, result_bind.
  destruct (parse_edge el) as [e|] eqn:E; [|done].
  intros (new & -> & Hids & Hall)%IH.
  unfold parse_edge, mbind, result_bind, attrib_item in E.
  destruct (attrib el !! "source") as [src|] eqn:Es; [|done].
  destruct (attrib el !! "target") as [tgt|] eqn:Et; [|done].
  injection E as <-.
  exists (mkEdge src tgt
            match find_desc (ns_y +:+ "EdgeLabel") el with
            | Some label_elem => Py.lower (Py.strip (text_or_empty label_elem))
            | None => ""
            end :: new).
  split; [by rewrite <- (assoc_L (++))|]. split; [simpl; by rewrite Hids|].
  constructor; [|done]. simpl. case_match; [apply lower_strip_idem|done].
Qed.

(** The result of [parse_graphml] on a document with a graph element. *)
Lemma parse_graphml_graph (root graph : Element) :
  find_child (ns_graphml +:+ "graph") root = Some graph →
  parse_graphml (Parsed root)
  = match parse_nodes Unbound (findall (ns_graphml +:+ "node") graph) [] with
    | Return nodes =>
        match parse_edges (findall (ns_graphml +:+ "edge") graph) [] with
        | Return edges => Return (nodes, edges)
        | Raise _ => Return ([], [])
        end
    | Raise _ => Return ([], [])
    end.
Proof.
  intros Hg. unfold parse_graphml, parse_graphml_body. simpl. rewrite Hg.
  unfold mbind, result_bind.
  destruct (parse_nodes _ _ _) as [nodes|e]; [|by destruct e].
  destruct (parse_edges _ _) as [edges|e]; [done|by destruct e].
Qed.

(** X14. The loader returns all of a graph or nothing of it: either both
    lists are empty, or the nodes are the node elements of the graph, one
    for one and in document order, with the ids the elements give, and the
    edges are the edge elements with their sources and targets. The labels
    and shapes it returns are normalised: node labels stripped, shapes in
    lower case, edge labels stripped and in lower case. *)
Theorem parse_graphml_all_or_nothing (root graph : Element)
  (nodes : list Node) (edges : list Edge) :
  find_child (ns_graphml +:+ "graph") root = Some graph →
  parse_graphml (Parsed root) = Return (nodes, edges) →
  (nodes = [] ∧ edges = [])
  ∨ (map (λ n, Some (node_id n)) nodes
       = map (λ el, attrib el !! "id") (findall (ns_graphml +:+ "node") graph)
     ∧ map (λ e, (Some (edge_source e), Some (edge_target e))) edges
       = map (λ el, (attrib el !! "source", attrib el !! "target"))
           (findall (ns_graphml +:+ "edge") graph)
     ∧ Forall (λ n, Py.strip (node_label n) = node_label n
                    ∧ Py.lower (node_shape n) = node_shape n) nodes
     ∧ Forall (λ e, Py.lower (Py.strip (edge_label e)) = edge_label e) edges).
Proof.
  intros Hg. rewrite (parse_graphml_graph _ _ Hg).
  destruct (parse_nodes _ _ _) as [ns|] eqn:En; [|intros [= <- <-]; by left].
  destruct (parse_edges _ _) as [es|] eqn:Ee; [|intros [= <- <-]; by left].
  intros [= <- <-]. right.
  apply parse_nodes_Return in En as (new & -> & Hn & Hnn).
  apply parse_edges_Return in Ee as (new' & -> & He & Hee).
  done.
Qed.

Lemma parse_graphml_all_or_nothing_witness :
  ∃ nodes edges,
    parse_graphml
      (graphml_doc [generic_node_el "n1" " Work " "com.yworks.flowchart.process";
                    generic_node_el "n2" "Done" "com.yworks.flowchart.start2";
                    el (ns_graphml +:+ "edge")
                       [("id", "e0"); ("source", "n1"); ("target", "n2")]
                       None []])
    = Return (nodes, edges)
    ∧ map (λ n, Some (node_id n)) nodes = [Some "n1"; Some "n2"].
Proof.
  eexists _, _. split; [vm_compute; reflexivity|].
  match goal with
  | |- map _ ?ns = _ =>
      destruct (parse_graphml_all_or_nothing
                  (el (ns_graphml +:+ "graphml") [] None
                     [el (ns_graphml +:+ "graph") [("id", "G")] None
                        [generic_node_el "n1" " Work "
                           "com.yworks.flowchart.process";
                         generic_node_el "n2" "Done"
                           "com.yworks.flowchart.start2";
                         el (ns_graphml +:+ "edge")
                            [("id", "e0"); ("source", "n1"); ("target", "n2")]
                            None []]])
                  (el (ns_graphml +:+ "graph") [("id", "G")] None
                     [generic_node_el "n1" " Work "
                        "com.yworks.flowchart.process";
                      generic_node_el "n2" "Done"
                        "com.yworks.flowchart.start2";
                      el (ns_graphml +:+ "edge")
                         [("id", "e0"); ("source", "n1"); ("target", "n2")]
                         None []])
                  ns _ eq_refl ltac:(vm_compute; reflexivity))
        as [[H _]|[H _]]
  end.
  - discriminate H.
  - exact H.
Defined.

(** When one iteration of the node loop returns, and what it raises. *)
Lemma parse_node_cases (generic : Local (option Element)) (node_el : Element) :
  match attrib node_el !! "id" with
  | None => parse_node generic node_el = Raise (KeyError "id")
  | Some _ =>
      if String.eqb (explicit_shape node_el) "" then
        ∃ n, parse_node generic node_el
             = Return (n, Bound (find_desc (ns_y +:+ "GenericNode") node_el))
      else match generic with
           | Unbound =>
               parse_node generic node_el = Raise (UnboundLocalError "generic")
           | Bound g => ∃ n, parse_node generic node_el = Return (n, Bound g)
           end
  end.
Proof.
  unfold parse_node, explicit_shape. unfold mbind, result_bind, attrib_item.
  destruct (attrib node_el !! "id") as [nid|]; [|done].
  set (s1 := match find_desc (ns_y +:+ "Shape") node_el with
             | Some e => _ | None => _ end).
  set (s2 := if String.eqb s1 "" then _ else s1). clearbody s2. clear s1.
  destruct (String.eqb s2 "").
  - destruct (find_desc (ns_y +:+ "GenericNode") node_el); simpl; by eexists.
  - destruct generic; simpl; [done|by eexists].
Qed.

Lemma parse_nodes_bound (els : list Element) :
  ∀ g acc,
    Forall (λ el, is_Some (attrib el !! "id")) els →
    ∃ nodes, parse_nodes (Bound g) els acc = Return nodes.
Proof.
  induction els as [|el els IH]; intros g acc Hall; simpl; [by eexists|].
  apply Forall_cons in Hall as [[i Hi] Hall].
  pose proof (parse_node_cases (Bound g) el) as Hc. rewrite Hi in Hc.
  unfold mbind, result_bind.
  destruct (String.eqb (explicit_shape el) ""); destruct Hc as [n ->]; simpl;
    by apply IH.
Qed.

Lemma parse_nodes_Raise_id (els : list Element) :
  ∀ generic acc,
    Exists (λ el, attrib el !! "id" = None) els →
    ∃ e, parse_nodes generic els acc = Raise e.
Proof.
  induction els as [|el els IH]; intros generic acc Hex; simpl.
  { by apply Exists_nil in Hex. }
  unfold mbind, result_bind.
  destruct (parse_node generic el) as [[n g]|e] eqn:E; [|by eexists].
  apply Exists_cons in Hex as [Hid|Hex]; [|by apply IH].
  pose proof (parse_node_cases generic el) as Hc. rewrite Hid in Hc.
  congruence.
Qed.

Lemma parse_edges_total (els : list Element) :
  ∀ acc,
    Forall (λ el, is_Some (attrib el !! "source")
                  ∧ is_Some (attrib el !! "target")) els →
    ∃ edges, parse_edges els acc = Return edges.
Proof.
  induction els as [|el els IH]; intros acc Hall; [by eexists|].
  apply Forall_cons in Hall as [[[s Hs] [t Ht]] Hall].
  cbn [parse_edges].
  unfold parse_edge, mbind, result_bind, attrib_item. rewrite Hs, Ht.
  by apply IH.
Qed.

Lemma parse_edges_Raise (els : list Element) :
  ∀ acc,
    Exists (λ el, attrib el !! "source" = None
                  ∨ attrib el !! "target" = None) els →
    ∃ e, parse_edges els acc = Raise e.
Proof.
  induction els as [|el els IH]; intros acc Hex; simpl.
  { by apply Exists_nil in Hex. }
  unfold mbind, result_bind.
  destruct (parse_edge el) as [e|e] eqn:E; [|by eexists].
  apply Exists_cons in Hex as [Hid|Hex]; [|by apply IH].
  unfold parse_edge, mbind, result_bind, attrib_item in E.
  destruct Hid as [Hid|Hid]; rewrite Hid in E; [done|].
  by destruct (attrib el !! "source").
Qed.

(** X15. When the loader keeps a graph: every node element has an id, every
    edge element a source and a target, and the first node element states no
    shape of its own. Then [parse_graphml] returns one node for each node
    element and one edge for each edge element. *)
Theorem parse_graphml_complete (root graph : Element) :
  find_child (ns_graphml +:+ "graph") root = Some graph →
  Forall (λ el, is_Some (attrib el !! "id"))
    (findall (ns_graphml +:+ "node") graph) →
  Forall (λ el, is_Some (attrib el !! "source")
                ∧ is_Some (attrib el !! "target"))
    (findall (ns_graphml +:+ "edge") graph) →
  (∀ el, head (findall (ns_graphml +:+ "node") graph) = Some el →
         explicit_shape el = "") →
  ∃ nodes edges,
    parse_graphml (Parsed root) = Return (nodes, edges)
    ∧ length nodes = length (findall (ns_graphml +:+ "node") graph)
    ∧ length edges = length (findall (ns_graphml +:+ "edge") graph).
Proof.
  intros Hg Hn He Hfirst. rewrite (parse_graphml_graph _ _ Hg).
  assert (∃ nodes, parse_nodes Unbound (findall (ns_graphml +:+ "node") graph) []
                   = Return nodes) as [nodes En].
  { destruct (findall (ns_graphml +:+ "node") graph) as [|el els];
      [by eexists|].
    apply Forall_cons in Hn as [[i Hi] Hn]. simpl.
    pose proof (parse_node_cases Unbound el) as Hc.
    rewrite Hi, (Hfirst el eq_refl) in Hc. destruct Hc as [n ->].
    unfold mbind, result_bind. simpl. by apply parse_nodes_bound. }
  destruct (parse_edges_total _ [] He) as [edges Ee].
  rewrite En, Ee. exists nodes, edges. split; [done|].
  apply parse_nodes_Return in En as (new & -> & Hids & _).
  apply parse_edges_Return in Ee as (new' & -> & Hst & _).
  apply (f_equal length) in Hids, Hst. rewrite !length_map in Hids, Hst.
  done.
Qed.

Lemma parse_graphml_complete_witness :
  ∃ nodes edges,
    parse_graphml
      (graphml_doc [generic_node_el "n1" "Work" "com.yworks.flowchart.process";
                    shape_node_el "n2" "Begin" "ellipse"])
    = Return (nodes, edges)
    ∧ length nodes = 2 ∧ length edges = 0.
Proof.
  apply (parse_graphml_complete
           (el (ns_graphml +:+ "graphml") [] None
              [el (ns_graphml +:+ "graph") [("id", "G")] None
                 [generic_node_el "n1" "Work" "com.yworks.flowchart.process";
                  shape_node_el "n2" "Begin" "ellipse"]])
           (el (ns_graphml +:+ "graph") [("id", "G")] None
              [generic_node_el "n1" "Work" "com.yworks.flowchart.process";
               shape_node_el "n2" "Begin" "ellipse"])).
  - reflexivity.
  - apply (bool_decide_unpack _). vm_compute. exact I.
  - apply (bool_decide_unpack _). vm_compute. exact I.
  - intros el0 [= <-]. vm_compute. reflexivity.
Defined.

(** X16. When the loader drops a graph: a node element without an id, an
    edge element without a source or a target, or a first node element that
    states its own shape (the local [generic] is then read before any
    assignment) makes [parse_graphml] return two empty lists, whatever else
    the graph holds. *)
Theorem parse_graphml_drops (root graph : Element) :
  find_child (ns_graphml +:+ "graph") root = Some graph →
  Exists (λ el, attrib el !! "id" = None)
    (findall (ns_graphml +:+ "node") graph)
  ∨ Exists (λ el, attrib el !! "source" = None ∨ attrib el !! "target" = None)
      (findall (ns_graphml +:+ "edge") graph)
  ∨ (∃ el, head (findall (ns_graphml +:+ "node") graph) = Some el
           ∧ explicit_shape el ≠ "") →
  parse_graphml (Parsed root) = Return ([], []).
Proof.
  intros Hg H. rewrite (parse_graphml_graph _ _ Hg).
  destruct H as [Hid|[Hst|(el0 & Hhd & Hex)]].
  - by destruct (parse_nodes_Raise_id _ Unbound [] Hid) as [e ->].
  - destruct (parse_nodes _ _ _); [|done].
    by destruct (parse_edges_Raise _ [] Hst) as [e ->].
  - destruct (findall (ns_graphml +:+ "node") graph) as [|el1 els]; [done|].
    injection Hhd as ->. simpl.
    pose proof (parse_node_cases Unbound el0) as Hc.
    apply String.eqb_neq in Hex. rewrite Hex in Hc.
    unfold mbind, result_bind.
    destruct (attrib el0 !! "id"); by rewrite Hc.
Qed.

Lemma parse_graphml_drops_witness :
  parse_graphml
    (graphml_doc [shape_node_el "n1" "Begin" "ellipse";
                  generic_node_el "n2" "Work" "com.yworks.flowchart.process"])
  = Return ([], []).
Proof.
  apply (parse_graphml_drops
           (el (ns_graphml +:+ "graphml") [] None
              [el (ns_graphml +:+ "graph") [("id", "G")] None
                 [shape_node_el "n1" "Begin" "ellipse";
                  generic_node_el "n2" "Work" "com.yworks.flowchart.process"]])
           (el (ns_graphml +:+ "graph") [("id", "G")] None
              [shape_node_el "n1" "Begin" "ellipse";
               generic_node_el "n2" "Work" "com.yworks.flowchart.process"])).
  - reflexivity.
  - right. right. eexists. split; [reflexivity|]. vm_compute. discriminate.
Defined.

(** ** Start nodes, for the traverser and for the role classifier *)

Lemma prefix_cons (a b : ascii) (s1 s2 : string) :
  String.prefix (String a s1) (String b s2)
  = if Ascii.eqb a b then String.prefix s1 s2 else false.
Proof.
  simpl. destruct (Ascii.eqb_spec a b) as [->|Hne]; by case_match.
Qed.

Lemma prefix_rstrip (s : string) :
  ∀ kw, Py.all_chars (λ c, negb (Py.isspace c)) kw = true →
        String.prefix kw (Py.rstrip s) = String.prefix kw s.
Proof.
  induction s as [|c s IH]; intros kw Hkw; [done|].
  destruct kw as [|k kw]; [by destruct (Py.rstrip (String c s))|].
  simpl in Hkw. apply andb_true_iff in Hkw as [Hk Hkw].
  apply negb_true_iff in Hk.
  rewrite rstrip_cons, (prefix_cons k c kw s), <- (IH kw Hkw).
  destruct (Py.rstrip s) as [|d r]; [|by rewrite prefix_cons].
  destruct (Py.isspace c) eqn:Ec; [|by rewrite prefix_cons].
  destruct (Ascii.eqb_spec k c) as [->|Hne]; [congruence|done].
Qed.

Lemma contains_rstrip (kw s : string) :
  Py.all_chars (λ c, negb (Py.isspace c)) kw = true →
  Py.contains kw (Py.rstrip s) = Py.contains kw s.
Proof.
  intros Hkw. induction s as [|c s IH]; [done|].
  cbn [Py.contains]. rewrite <- IH, <- (prefix_rstrip (String c s) kw Hkw).
  rewrite rstrip_cons.
  destruct (Py.rstrip s) as [|d r]; [|done].
  destruct (Py.isspace c); [|done].
  cbn [Py.contains]. by destruct (String.prefix kw "").
Qed.

Lemma contains_lstrip (k : ascii) (kw s : string) :
  Py.isspace k = false →
  Py.contains (String k kw) (Py.lstrip s) = Py.contains (String k kw) s.
Proof.
  intros Hk. induction s as [|c s IH]; [done|].
  cbn [Py.lstrip]. destruct (Py.isspace c) eqn:Ec; [|done].
  rewrite IH. cbn [Py.contains]. rewrite prefix_cons.
  destruct (Ascii.eqb_spec k c) as [->|Hne]; [congruence|done].
Qed.

Lemma contains_strip (k : ascii) (kw s : string) :
  Py.all_chars (λ c, negb (Py.isspace c)) (String k kw) = true →
  Py.contains (String k kw) (Py.strip s) = Py.contains (String k kw) s.
Proof.
  intros Hkw. unfold Py.strip. rewrite (contains_rstrip _ _ Hkw).
  apply contains_lstrip. simpl in Hkw.
  apply andb_true_iff in Hkw as [Hk _]. by apply negb_true_iff in Hk.
Qed.

Lemma flowchart_role_Start (label shape : string) :
  flowchart_role label shape = "Start"
  ↔ Py.mem shape ["ellipse"; "terminator"; "start1"]
    || Py.contains "start" label = true.
Proof.
  unfold flowchart_role.
  destruct (Py.mem shape ["ellipse"; "terminator"; "start1"]
            || Py.contains "start" label); [done|].
  split; [|done]. repeat case_match; discriminate.
Qed.

Lemma mem_strip (shape : string) (l : list string) :
  Forall (λ x, Py.strip x = x) l →
  Py.mem (Py.lower shape) l = true →
  Py.mem (Py.lower (Py.strip shape)) l = true.
Proof.
  intros Hl (x & Hx & Heq%String.eqb_eq)%existsb_exists.
  apply list_elem_of_In in Hx. rewrite Forall_forall in Hl.
  rewrite <- strip_lower, Heq, (Hl _ Hx).
  apply existsb_exists. exists x.
  split; [by apply list_elem_of_In|apply String.eqb_refl].
Qed.

(** X17. The traverser and the role classifier agree on what a start node
    is: a node [find_start_node] takes for start-like gets the role Start
    under the Flowchart type, and a node with the role Start whose shape has
    no blanks around it is start-like. *)
Theorem start_like_role_Start (n : Node) :
  (is_start_like n = true → node_role "Flowchart" n = "Start")
  ∧ (Py.strip (node_shape n) = node_shape n →
     node_role "Flowchart" n = "Start" → is_start_like n = true).
Proof.
  unfold node_role, is_start_like. cbv zeta.
  change (String.eqb "Flowchart" "Flowchart") with true. cbv iota.
  rewrite flowchart_role_Start, <- (strip_lower (node_label n)).
  rewrite (contains_strip "s" "tart" _ eq_refl).
  destruct (Py.contains "start" (Py.lower (node_label n)));
    [by rewrite orb_true_r|].
  rewrite orb_false_r. simpl orb. split.
  - intros H. apply mem_strip.
    + repeat constructor.
    + revert H. unfold Py.mem. simpl.
      by repeat (destruct (String.eqb _ _); simpl).
  - intros ->. unfold Py.mem. simpl.
    by repeat (destruct (String.eqb _ _); simpl).
Qed.

Lemma start_like_role_Start_witness :
  node_role "Flowchart" (mkNode "n1" "  Begin " "Ellipse" ∅) = "Start".
Proof.
  apply (proj1 (start_like_role_Start (mkNode "n1" "  Begin " "Ellipse" ∅))).
  vm_compute. reflexivity.
Defined.

(** ** The template renderer *)

Lemma sub_nonword_word (s : string) :
  ∀ in_run, Py.all_chars Py.is_word (sub_nonword in_run s) = true.
Proof.
  induction s as [|c s IH]; intros in_run; [done|]. cbn [sub_nonword].
  destruct (Py.is_word c) eqn:Ec; [by cbn [Py.all_chars]; rewrite Ec, IH|].
  destruct in_run; [done|]. cbn [Py.all_chars]. by rewrite IH.
Qed.

Lemma lstrip_underscore_all (p : ascii → bool) (s : string) :
  Py.all_chars p s = true → Py.all_chars p (lstrip_underscore s) = true.
Proof.
  induction s as [|c s IH]; [done|]. cbn [lstrip_underscore].
  destruct (Ascii.eqb c "_"); [|done].
  intros [_ H]%andb_true_iff. by apply IH.
Qed.

Lemma rstrip_underscore_all (p : ascii → bool) (s : string) :
  Py.all_chars p s = true → Py.all_chars p (rstrip_underscore s) = true.
Proof.
  induction s as [|c s IH]; [done|]. cbn [rstrip_underscore].
  intros [Hc H]%andb_true_iff. specialize (IH H).
  destruct (rstrip_underscore s) as [|d r].
  - destruct (Ascii.eqb c "_"); [done|]. simpl. by rewrite Hc.
  - cbn [Py.all_chars] in *. by rewrite Hc.
Qed.

Lemma lower_word (s : string) :
  Py.all_chars Py.is_word s = true → Py.all_chars Py.is_word (Py.lower s) = true.
Proof.
  induction s as [|c s IH]; [done|]. cbn [Py.lower Py.all_chars].
  intros [Hc H]%andb_true_iff. rewrite (IH H), andb_true_r.
  revert Hc. by destruct c as [[] [] [] [] [] [] [] []].
Qed.

Lemma lower_ascii_letter (c : ascii) :
  Py.is_word c = true → (isalpha c || Ascii.eqb c "_") = true →
  Py.is_digit (Py.lower_ascii c) = false.
Proof. by destruct c as [[] [] [] [] [] [] [] []]. Qed.

Lemma lstrip_underscore_head (s : string) :
  match lstrip_underscore s with
  | EmptyString => True
  | String c _ => Ascii.eqb c "_" = false
  end.
Proof.
  induction s as [|c s IH]; [done|]. cbn [lstrip_underscore].
  by destruct (Ascii.eqb c "_") eqn:E.
Qed.

(** X18. [_slugify_label] returns an identifier in lower case for every
    label: a letter or an underscore first, then letters, digits and
    underscores, none of them a capital. *)
Theorem slugify_label_identifier (label : string) :
  Py.isidentifier (slugify_label label) = true
  ∧ Py.lower (slugify_label label) = slugify_label label.
Proof.
  unfold slugify_label. cbv zeta.
  pose proof (rstrip_underscore_all Py.is_word _
                (lstrip_underscore_all Py.is_word _
                   (sub_nonword_word label false))) as Hw.
  fold (strip_underscore (sub_nonword false label)) in Hw.
  destruct (strip_underscore (sub_nonword false label)) as [|c s]; [done|].
  split; [|apply lower_idem].
  cbn [Py.all_chars] in Hw. apply andb_true_iff in Hw as [Hc Hs].
  destruct (negb (isalpha c) && negb (Ascii.eqb c "_")) eqn:E.
  - cbn [Py.lower Py.isidentifier Py.all_chars].
    change (Py.is_word (Py.lower_ascii "_")) with true.
    change (Py.is_digit (Py.lower_ascii "_")) with false.
    rewrite (lower_word s Hs), andb_true_r. simpl.
    revert Hc. by destruct c as [[] [] [] [] [] [] [] []].
  - cbn [Py.lower Py.isidentifier].
    rewrite (lower_word s Hs), andb_true_r.
    rewrite lower_ascii_letter; [|done|].
    + rewrite andb_true_r. revert Hc.
      by destruct c as [[] [] [] [] [] [] [] []].
    + by destruct (isalpha c), (Ascii.eqb c "_").
Qed.

(** X19. The template of a classified diagram. The renderer has a template
    of its own for the flowchart, class, sequence and entity-relationship
    types; a diagram classified as an activity diagram or as Unknown gets
    the default template. Blanks around the type name do not matter. *)
Theorem get_template_for_classified (default_template : string)
  (nodes : list Node) :
  let t := classify_diagram_type nodes in
  (t ∈ ["UML Activity Diagram"; "Unknown"]
   ∧ get_template_for_type default_template t = default_template)
  ∨ ((t ∉ ["UML Activity Diagram"; "Unknown"])
     ∧ template_mapping !! t
       = Some (get_template_for_type default_template t)).
Proof.
  intros t. pose proof (classify_diagram_type_in nodes) as Hin. fold t in Hin.
  unfold diagram_types in Hin. clearbody t.
  repeat (apply elem_of_cons in Hin as [->|Hin]);
    [right|right|right|right|left|left|by apply elem_of_nil in Hin];
    (split; [|by vm_compute]); try set_solver.
Qed.

(** X20. [get_template_for_type] looks the type up after stripping it:
    blanks around the name do not change the template, and a name that is
    none of the four in the mapping gives the default template. *)
Theorem get_template_for_type_strip (default_template diagram_type : string) :
  get_template_for_type default_template (Py.strip diagram_type)
  = get_template_for_type default_template diagram_type
  ∧ (Py.strip diagram_type
       ∉ ["Flowchart"; "UML Class Diagram"; "ER Diagram"; "UML Sequence Diagram"] →
     get_template_for_type default_template diagram_type = default_template).
Proof.
  unfold get_template_for_type. rewrite strip_idem. split; [done|].
  intros Hni. unfold template_mapping.
  rewrite !lookup_insert_ne, lookup_empty; [done|set_solver..].
Qed.

Lemma get_template_for_type_strip_witness :
  get_template_for_type "flowchart_base.j2" "State Machine"
  = "flowchart_base.j2".
Proof.
  apply (proj2 (get_template_for_type_strip "flowchart_base.j2" "State Machine")).
  apply (bool_decide_unpack _). vm_compute. exact I.
Defined.

(** ** Cleaning the generated code *)

Lemma prefix_empty (s : string) : String.prefix "" s = true.
Proof. by destruct s. Qed.

Lemma contains_char_cons (k c : ascii) (s : string) :
  Py.contains (String k "") (String c s)
  = Ascii.eqb k c || Py.contains (String k "") s.
Proof.
  cbn [Py.contains]. rewrite prefix_cons, prefix_empty.
  by destruct (Ascii.eqb k c).
Qed.

Lemma split_lines_cons (c : ascii) (s : string) :
  split_lines (String c s)
  = if Ascii.eqb c Py.newline then "" :: split_lines s
    else match split_lines s with
         | l :: ls => String c l :: ls
         | [] => [String c ""]
         end.
Proof. done. Qed.

Lemma split_lines_nonempty (s : string) : split_lines s ≠ [].
Proof.
  destruct s as [|c s]; [done|]. rewrite split_lines_cons.
  destruct (Ascii.eqb c Py.newline); [done|]. by destruct (split_lines s).
Qed.

Lemma join_lines_cons (l : string) (ls : list string) :
  ls ≠ [] → join_lines (l :: ls) = l +:+ String Py.newline (join_lines ls).
Proof. by destruct ls. Qed.

Lemma join_lines_char (c : ascii) (l : string) (ls : list string) :
  join_lines (String c l :: ls) = String c (join_lines (l :: ls)).
Proof. by destruct ls. Qed.

(** Splitting at the newlines and joining again gives the text back. *)
Lemma join_split_lines (s : string) : join_lines (split_lines s) = s.
Proof.
  induction s as [|c s IH]; [done|]. rewrite split_lines_cons.
  pose proof (split_lines_nonempty s) as Hne.
  destruct (Ascii.eqb_spec c Py.newline) as [->|_].
  - rewrite (join_lines_cons _ _ Hne), IH. done.
  - destruct (split_lines s) as [|l ls]; [done|].
    by rewrite join_lines_char, IH.
Qed.

(** A character other than the newline that the text does not hold is in
    none of its lines. *)
Lemma split_lines_char (k : ascii) (s : string) :
  Py.contains (String k "") s = false →
  Forall (λ l, Py.contains (String k "") l = false) (split_lines s).
Proof.
  induction s as [|c s IH]; [by repeat constructor|].
  rewrite contains_char_cons, split_lines_cons.
  intros [Hc Hs]%orb_false_iff. specialize (IH Hs).
  destruct (Ascii.eqb c Py.newline); [by constructor|].
  destruct (split_lines s) as [|l ls].
  - repeat constructor. rewrite contains_char_cons, Hc. done.
  - apply Forall_cons in IH as [Hl Hls]. constructor; [|done].
    by rewrite contains_char_cons, Hc, Hl.
Qed.

Lemma contains_lstrip_true (kw s : string) :
  Py.contains kw (Py.lstrip s) = true → Py.contains kw s = true.
Proof.
  induction s as [|c s IH]; [done|]. cbn [Py.lstrip].
  destruct (Py.isspace c); [|done].
  intros H%IH. cbn [Py.contains]. rewrite H. apply orb_true_r.
Qed.

Lemma prefix_contains (kw s : string) :
  String.prefix kw s = true → Py.contains kw s = true.
Proof. intros H. destruct s; cbn [Py.contains]; by rewrite H. Qed.

(** A line without a ['#'] goes through the loop body as it is. *)
Lemma strip_comment_line_plain (cleaned_lines : list string) (line : string) :
  Py.contains "#" line = false →
  strip_comment_line cleaned_lines line = cleaned_lines ++ [line].
Proof.
  intros H. unfold strip_comment_line. rewrite H.
  destruct (String.eqb (Py.strip line) ""); [done|].
  destruct (Py.startswith (Py.lstrip line) "#") eqn:E; [|done].
  apply prefix_contains, contains_lstrip_true in E. congruence.
Qed.

Lemma strip_comment_lines_plain (lines : list string) :
  ∀ cleaned_lines,
    Forall (λ l, Py.contains "#" l = false) lines →
    foldl strip_comment_line cleaned_lines lines = cleaned_lines ++ lines.
Proof.
  induction lines as [|l lines IH]; intros acc Hall; simpl.
  { by rewrite app_nil_r. }
  apply Forall_cons in Hall as [Hl Hall].
  rewrite (strip_comment_line_plain _ _ Hl), (IH _ Hall).
  by rewrite <- (assoc_L (++)).
Qed.

(** X21. [strip_comments] gives code without a ['#'] back as it is, blank
    lines and line breaks included. *)
Theorem strip_comments_plain (code : string) :
  Py.contains "#" code = false → strip_comments code = code.
Proof.
  intros H. unfold strip_comments.
  destruct (String.eqb code ""); [done|].
  rewrite (strip_comment_lines_plain _ [] (split_lines_char "#" code H)).
  apply join_split_lines.
Qed.

Lemma strip_comments_plain_witness :
  strip_comments ("x = 1" +:+ String Py.newline (String Py.newline "print(x)"))
  = "x = 1" +:+ String Py.newline (String Py.newline "print(x)").
Proof. apply strip_comments_plain. vm_compute. reflexivity. Defined.

Lemma length_append (a b : string) :
  String.length (a +:+ b) = String.length a + String.length b.
Proof. induction a as [|c a IH]; simpl; [done|]. by rewrite IH. Qed.

Lemma length_rstrip (s : string) : String.length (Py.rstrip s) ≤ String.length s.
Proof.
  induction s as [|c s IH]; [done|]. rewrite rstrip_cons.
  destruct (Py.rstrip s) as [|d r].
  - destruct (Py.isspace c); simpl; lia.
  - simpl in *. lia.
Qed.

Lemma length_scan_comment (line : string) :
  ∀ in_string string_char,
    String.length (scan_comment in_string string_char line)
    ≤ String.length line.
Proof.
  induction line as [|c line IH]; intros in_string string_char; [done|].
  cbn [scan_comment].
  repeat case_match; simpl; try lia;
    match goal with
    | |- S (String.length (scan_comment ?b ?sc line)) ≤ _ =>
        specialize (IH b sc); lia
    end.
Qed.

(** The length of ['\n'.join(lines)], counted with one more for each line. *)
Lemma length_join_lines (lines : list string) :
  lines ≠ [] →
  S (String.length (join_lines lines))
  = sum_list_with (λ l, S (String.length l)) lines.
Proof.
  induction lines as [|l lines IH]; [done|]. intros _.
  destruct lines as [|l' lines]; [simpl; lia|].
  rewrite join_lines_cons by done. rewrite length_append.
  specialize (IH ltac:(done)).
  change (sum_list_with (λ l, S (String.length l)) (l :: l' :: lines))
    with (S (String.length l)
          + sum_list_with (λ l, S (String.length l)) (l' :: lines)).
  rewrite <- IH. simpl. lia.
Qed.

Lemma length_strip_comment_line (cleaned_lines : list string) (line : string) :
  sum_list_with (λ l, S (String.length l))
    (strip_comment_line cleaned_lines line)
  ≤ sum_list_with (λ l, S (String.length l)) cleaned_lines
    + S (String.length line).
Proof.
  unfold strip_comment_line.
  pose proof (length_rstrip (scan_comment false None line)).
  pose proof (length_scan_comment line false None).
  repeat case_match; rewrite ?sum_list_with_app; simpl; lia.
Qed.

Lemma length_strip_comment_lines (lines : list string) :
  ∀ cleaned_lines,
    sum_list_with (λ l, S (String.length l))
      (foldl strip_comment_line cleaned_lines lines)
    ≤ sum_list_with (λ l, S (String.length l)) cleaned_lines
      + sum_list_with (λ l, S (String.length l)) lines.
Proof.
  induction lines as [|l lines IH]; intros acc; simpl; [lia|].
  specialize (IH (strip_comment_line acc l)).
  pose proof (length_strip_comment_line acc l). lia.
Qed.

(** X22. [strip_comments] only takes text away: what it returns is never
    longer than the code it was given. *)
Theorem strip_comments_length (code : string) :
  String.length (strip_comments code) ≤ String.length code.
Proof.
  unfold strip_comments. destruct (String.eqb code ""); [done|].
  pose proof (length_strip_comment_lines (split_lines code) []) as H.
  pose proof (length_join_lines _ (split_lines_nonempty code)) as Hc.
  rewrite join_split_lines in Hc. simpl in H.
  destruct (foldl strip_comment_line [] (split_lines code)) as [|l ls] eqn:E.
  - simpl. lia.
  - pose proof (length_join_lines (l :: ls)) as Hj.
    rewrite <- Hj in H by done. lia.
Qed.

Lemma contains_char_append (k : ascii) (a b : string) :
  Py.contains (String k "") (a +:+ b)
  = Py.contains (String k "") a || Py.contains (String k "") b.
Proof.
  induction a as [|c a IH].
  - done.
  - change (String c a +:+ b) with (String c (a +:+ b)).
    rewrite !contains_char_cons, IH. by rewrite orb_assoc.
Qed.

Lemma join_lines_char_free (k : ascii) (lines : list string) :
  Ascii.eqb k Py.newline = false →
  Forall (λ l, Py.contains (String k "") l = false) lines →
  Py.contains (String k "") (join_lines lines) = false.
Proof.
  intros Hk. induction 1 as [|l lines Hl Hall IH]; [done|].
  destruct lines as [|l' lines]; [done|].
  rewrite join_lines_cons by done.
  by rewrite contains_char_append, contains_char_cons, Hl, Hk, IH.
Qed.

(** Outside a string the scan stops at the first ['#']: of a line without a
    quote it keeps nothing that holds one. *)
Lemma scan_comment_no_hash (line : string) :
  Py.contains (String dquote "") line = false →
  Py.contains "'" line = false →
  Py.contains "#" (scan_comment false None line) = false.
Proof.
  induction line as [|c line IH]; [done|].
  rewrite !contains_char_cons.
  intros [Hd Hdq]%orb_false_iff [Hs Hsq]%orb_false_iff.
  cbn [scan_comment]. rewrite (Ascii.eqb_sym c dquote), Hd.
  rewrite (Ascii.eqb_sym c "'"), Hs. simpl.
  destruct (Ascii.eqb c "#") eqn:Ec; [done|]. cbn [andb].
  rewrite contains_char_cons, (Ascii.eqb_sym "#" c), Ec. by apply IH.
Qed.

Lemma strip_blank_no_hash (line : string) :
  Py.strip line = "" → Py.contains "#" line = false.
Proof.
  intros H. by rewrite <- (contains_strip "#" "" line eq_refl), H.
Qed.

Lemma strip_comment_line_no_hash (cleaned_lines : list string) (line : string) :
  Py.contains (String dquote "") line = false →
  Py.contains "'" line = false →
  Forall (λ l, Py.contains "#" l = false) cleaned_lines →
  Forall (λ l, Py.contains "#" l = false)
    (strip_comment_line cleaned_lines line).
Proof.
  intros Hd Hs Hall. unfold strip_comment_line.
  destruct (String.eqb_spec (Py.strip line) "") as [Hb|_].
  { apply Forall_app. split; [done|]. repeat constructor.
    by apply strip_blank_no_hash. }
  destruct (Py.startswith (Py.lstrip line) "#"); [done|].
  destruct (Py.contains "#" line) eqn:E.
  - destruct (negb _); [|done]. apply Forall_app. split; [done|].
    repeat constructor. rewrite (contains_rstrip "#" _ eq_refl).
    by apply scan_comment_no_hash.
  - apply Forall_app. split; [done|]. by repeat constructor.
Qed.

Lemma strip_comment_lines_no_hash (lines : list string) :
  ∀ cleaned_lines,
    Forall (λ l, Py.contains (String dquote "") l = false) lines →
    Forall (λ l, Py.contains "'" l = false) lines →
    Forall (λ l, Py.contains "#" l = false) cleaned_lines →
    Forall (λ l, Py.contains "#" l = false)
      (foldl strip_comment_line cleaned_lines lines).
Proof.
  induction lines as [|l lines IH]; intros acc Hd Hs Hacc; [done|].
  apply Forall_cons in Hd as [Hd Hds]. apply Forall_cons in Hs as [Hs Hss].
  simpl. apply IH; [done..|]. by apply strip_comment_line_no_hash.
Qed.

Lemma contains_first_char (k : ascii) (kw s : string) :
  Py.contains (String k kw) s = true → Py.contains (String k "") s = true.
Proof.
  induction s as [|c s IH]; [done|].
  rewrite contains_char_cons. cbn [Py.contains]. rewrite prefix_cons.
  destruct (Ascii.eqb k c); [done|]. simpl. apply IH.
Qed.

(** X23. Of code without a quote character [strip_comments] leaves no
    ['#'] at all. On such code the ["# TODO"] and ["# Placeholder"] tests of
    [is_placeholder_code] cannot answer, and the check made after the
    cleaning comes down to the three other keywords. *)
Theorem strip_comments_no_hash (code : string) :
  Py.contains (String dquote "") code = false →
  Py.contains "'" code = false →
  Py.contains "#" (strip_comments code) = false
  ∧ is_placeholder_code (strip_comments code)
    = String.eqb (strip_comments code) ""
      || Py.any_in ["simulate_output("; "pass"; "return True"]
           (strip_comments code).
Proof.
  intros Hd Hs.
  assert (Hno : Py.contains "#" (strip_comments code) = false).
  { unfold strip_comments.
    destruct (String.eqb_spec code "") as [->|_]; [done|].
    apply join_lines_char_free; [done|].
    apply strip_comment_lines_no_hash; [| |done].
    - by apply split_lines_char.
    - by apply split_lines_char. }
  split; [done|]. unfold is_placeholder_code.
  destruct (String.eqb (strip_comments code) ""); [done|].
  unfold Py.any_in. cbn [existsb].
  destruct (Py.contains "# TODO" (strip_comments code)) eqn:E1.
  { apply contains_first_char in E1. congruence. }
  destruct (Py.contains "# Placeholder" (strip_comments code)) eqn:E2.
  { apply contains_first_char in E2. congruence. }
  done.
Qed.

Lemma strip_comments_no_hash_witness :
  Py.contains "#"
    (strip_comments ("x = 1  # TODO" +:+ String Py.newline "print(x)"))
  = false.
Proof.
  apply (proj1 (strip_comments_no_hash
                  ("x = 1  # TODO" +:+ String Py.newline "print(x)")
                  ltac:(vm_compute; reflexivity)
                  ltac:(vm_compute; reflexivity))).
Defined.

(** ** The pipeline of the front end *)

(** The role the interpreter reads for a node is the one the role classifier
    gave to a node of that id. *)
Lemma classify_node_roles_role_of (nodes : list Node) (dt : string)
  (edges : option (list Edge)) (node : Node) :
  node ∈ nodes →
  ∃ n, n ∈ nodes ∧ node_id n = node_id node
       ∧ role_of (classify_node_roles nodes dt edges) node = node_role dt n.
Proof.
  intros Hnode. unfold role_of.
  destruct (classify_node_roles nodes dt edges !! node_id node) as [r|] eqn:E.
  - apply classify_node_roles_lookup in E as (n & Hn & Hid & ->).
    by exists n.
  - apply not_elem_of_dom in E. destruct E.
    unfold classify_node_roles. cbv zeta.
    rewrite (foldl_insert_dom node_id (node_role dt)).
    apply elem_of_union_l, elem_of_list_to_set. by apply list_elem_of_fmap_2.
Qed.


